(** * miau-index: the anime field unifier and the torrent metadata engine

    A shallow embedding of the algorithmic core of the TypeScript sources
    ([AnimeUnificationService], [NyaaService], the in-memory repositories)
    together with the properties the design document states about them.

    Conventions of the embedding.
    - A JavaScript string is a Rocq [string]: a sequence of code units below
      256.  [toLowerCase] acts on the Latin-1 range accordingly.
    - A JavaScript integer-valued number (seeders, sizes of arrays, byte
      counts) is a [Z]; a Date is its epoch value in milliseconds, a [Z].
    - An optional property ([x?: T]) is an [option]; [undefined] is [None].
    - A [Map<string, V>] whose iteration order is observed is an association
      list in insertion order; one that is only looked up is a [gmap].
    - [new Date()] reads a clock that is part of the world state. *)

From Stdlib Require Import ZArith QArith Qround Lia.
From Stdlib Require Import Strings.String Strings.Ascii.
From stdpp Require Import base option list sorting finite gmap strings.
From Equations Require Import Equations.

Local Open Scope string_scope.
Local Open Scope Z_scope.

(** ** JavaScript strings *)

Module JsString.

(** Code unit of a character. *)
Definition code (c : ascii) : N := N_of_ascii c.

Definition in_range (lo hi : N) (c : ascii) : bool :=
  ((lo <=? code c) && (code c <=? hi))%N.

(** [\d], [a-z], [A-Z] *)
Definition is_digit (c : ascii) : bool := in_range 48 57 c.
Definition is_lower (c : ascii) : bool := in_range 97 122 c.
Definition is_upper (c : ascii) : bool := in_range 65 90 c.
(** [a-z0-9] *)
Definition is_lower_alnum (c : ascii) : bool := is_lower c || is_digit c.

(** [\s] and the characters [trim] strips, below 256: TAB, LF, VT, FF, CR,
    SPACE and NO-BREAK SPACE. *)
Definition is_space (c : ascii) : bool :=
  in_range 9 13 c || (code c =? 32)%N || (code c =? 160)%N.

(** [String.prototype.toLowerCase] on one code unit: A-Z and the Latin-1
    capitals U+00C0..U+00DE (without the multiplication sign U+00D7). *)
Definition lower_char (c : ascii) : ascii :=
  if is_upper c || (in_range 192 222 c && negb (code c =? 215)%N)
  then ascii_of_N (code c + 32)
  else c.

Fixpoint toLowerCase (s : string) : string :=
  match s with
  | EmptyString => EmptyString
  | String c s' => String (lower_char c) (toLowerCase s')
  end.

(** Truthiness of a string: every string but the empty one. *)
Definition truthy (s : string) : bool := negb (String.eqb s "").

(** [s.split(sep)] for a one-character separator; [cur] is the piece being
    read. *)
Fixpoint split_from (sep : ascii) (cur : string) (s : string) : list string :=
  match s with
  | EmptyString => [cur]
  | String c s' =>
      if Ascii.eqb c sep then cur :: split_from sep EmptyString s'
      else split_from sep (cur ++ String c EmptyString) s'
  end.

Definition split (sep : ascii) (s : string) : list string :=
  split_from sep EmptyString s.

(** [s.startsWith(p)] *)
Fixpoint startsWith (p s : string) : bool :=
  match p, s with
  | EmptyString, _ => true
  | String a p', String b s' =>
      if Ascii.eqb a b then startsWith p' s' else false
  | String _ _, EmptyString => false
  end.

(** [s.includes(p)] *)
Fixpoint includes (s p : string) : bool :=
  startsWith p s ||
  match s with
  | EmptyString => false
  | String _ s' => includes s' p
  end.

(** Longest prefix of characters satisfying [f], and the rest. *)
Fixpoint span (f : ascii -> bool) (s : string) : string * string :=
  match s with
  | EmptyString => (EmptyString, EmptyString)
  | String c s' =>
      if f c then let '(a, b) := span f s' in (String c a, b)
      else (EmptyString, s)
  end.

Fixpoint dropWhile (f : ascii -> bool) (s : string) : string :=
  match s with
  | EmptyString => EmptyString
  | String c s' => if f c then dropWhile f s' else s
  end.

Fixpoint forallb (f : ascii -> bool) (s : string) : bool :=
  match s with
  | EmptyString => true
  | String c s' => f c && forallb f s'
  end.

(** The last character of [s] is [c]. *)
Fixpoint endsWith_char (c : ascii) (s : string) : bool :=
  match s with
  | EmptyString => false
  | String a EmptyString => Ascii.eqb a c
  | String _ s' => endsWith_char c s'
  end.

(** The characters of [s] that satisfy [f]. *)
Fixpoint filter (f : ascii -> bool) (s : string) : string :=
  match s with
  | EmptyString => EmptyString
  | String c s' => if f c then String c (filter f s') else filter f s'
  end.

(** [s.trimEnd()]: a whitespace character is kept only when something
    that is kept follows it. *)
Fixpoint trimEnd (s : string) : string :=
  match s with
  | EmptyString => EmptyString
  | String c s' =>
      match trimEnd s' with
      | EmptyString => if is_space c then EmptyString else String c EmptyString
      | t => String c t
      end
  end.

(** [s.trim()] *)
Definition trim (s : string) : string := trimEnd (dropWhile is_space s).

(** [s.replace(/[C]+/g, ' ')] for a character class [C]: every maximal run
    of characters of the class becomes one space.  [in_run] tells that the
    previous character belonged to the class, so that the space of the
    current run has been written already. *)
Fixpoint replace_runs_from (cls : ascii -> bool) (in_run : bool) (s : string)
  : string :=
  match s with
  | EmptyString => EmptyString
  | String c s' =>
      if cls c
      then if in_run then replace_runs_from cls true s'
           else String " " (replace_runs_from cls true s')
      else String c (replace_runs_from cls false s')
  end.

Definition replace_runs (cls : ascii -> bool) (s : string) : string :=
  replace_runs_from cls false s.

End JsString.

(** ** Data model ([types/common.ts], [models/Anime.ts], [models/Episode.ts],
    [models/Torrent.ts]) *)

Module Models.

(** A [Date], as its epoch value. *)
Definition Date := Z.

Inductive AnimeType := TV | MOVIE | OVA | ONA | SPECIAL | MUSIC.
Inductive AnimeStatus := AIRING | FINISHED | NOT_YET_AIRED | CANCELLED.
Inductive Season := WINTER | SPRING | SUMMER | FALL.
Inductive AgeRating := G | PG | PG_13 | R | R_PLUS | RX.
Inductive DataSource := MYANIMELIST | ANILIST | KITSU | ANIDB | TMDB.

#[export] Instance DataSource_eq_dec : EqDecision DataSource.
Proof. solve_decision. Defined.

Definition DataSource_index (s : DataSource) : nat :=
  match s with
  | MYANIMELIST => 0 | ANILIST => 1 | KITSU => 2 | ANIDB => 3 | TMDB => 4
  end.

Definition DataSource_of_index (n : nat) : option DataSource :=
  match n with
  | 0%nat => Some MYANIMELIST | 1%nat => Some ANILIST | 2%nat => Some KITSU
  | 3%nat => Some ANIDB | 4%nat => Some TMDB | _ => None
  end.

#[export] Instance DataSource_countable : Countable DataSource.
Proof.
  apply (inj_countable DataSource_index DataSource_of_index).
  intros []; reflexivity.
Defined.

Record ExternalId := { ext_source : DataSource; ext_id : string }.

Record DateRange := { range_start : option Date; range_end : option Date }.

Record Image := {
  img_small : option string;
  img_medium : option string;
  img_large : option string;
  img_original : option string
}.

Record Title := {
  romaji : option string;
  english : option string;
  native : option string;
  synonyms : option (list string)
}.

(** [score] is a number on a 0-10 scale; it is carried around and never
    computed with, so a rational stands for it. *)
Record Rating := {
  rating_source : DataSource;
  score : option Q;
  votes : option Z;
  rank : option Z;
  popularity : option Z
}.

Record Trailer := { trailer_url : option string; embedUrl : option string }.

Record Broadcast := {
  day : option string;
  time : option string;
  timezone : option string
}.

Inductive RelationType :=
| SEQUEL | PREQUEL | SIDE_STORY | ALTERNATIVE_VERSION | ALTERNATIVE_SETTING
| PARENT_STORY | SUMMARY | FULL_STORY | SPIN_OFF | OTHER_RELATION.

Record AnimeRelation := { rel_animeId : string; relationType : RelationType }.

Inductive AdaptationType :=
| MANGA | LIGHT_NOVEL | NOVEL | VISUAL_NOVEL | GAME | OTHER_ADAPTATION.

Record Adaptation := {
  adapt_type : AdaptationType;
  adapt_title : string;
  adapt_url : option string
}.

Record Anime := {
  id : string;
  title : Title;
  type : AnimeType;
  status : AnimeStatus;
  episodes : option Z;
  duration : option Z;
  season : option Season;
  year : option Z;
  synopsis : option string;
  background : option string;
  images : Image;
  trailer : option Trailer;
  aired : DateRange;
  broadcast : option Broadcast;
  ratings : list Rating;
  ageRating : option AgeRating;
  genres : list string;
  themes : list string;
  demographics : option (list string);
  studios : list string;
  producers : list string;
  licensors : list string;
  relations : option (list AnimeRelation);
  adaptations : option (list Adaptation);
  externalIds : list ExternalId;
  createdAt : Date;
  updatedAt : Date;
  lastSyncedAt : Date
}.

Record Episode := {
  ep_id : string;
  ep_animeId : string;
  number : Z;
  ep_title : option string;
  titleJapanese : option string;
  titleRomaji : option string;
  ep_synopsis : option string;
  ep_duration : option Z;
  ep_images : option Image;
  ep_aired : option Date;
  filler : option bool;
  recap : option bool;
  ep_externalIds : list ExternalId;
  ep_createdAt : Date;
  ep_updatedAt : Date
}.

Record AnimeSeason := {
  season_id : string;
  season_animeId : string;
  seasonNumber : Z;
  season_title : option string;
  episodeCount : option Z;
  season_episodes : option (list Episode);
  season_aired : option DateRange;
  season_externalIds : list ExternalId;
  season_createdAt : Date;
  season_updatedAt : Date
}.

Inductive TorrentQuality :=
| SD_480p | HD_720p | FULL_HD_1080p | UHD_2160p | UHD_4K | RAW
| UNKNOWN_QUALITY.

#[export] Instance TorrentQuality_eq_dec : EqDecision TorrentQuality.
Proof. solve_decision. Defined.

#[export] Instance TorrentQuality_finite : Finite TorrentQuality.
Proof.
  refine {| enum := [SD_480p; HD_720p; FULL_HD_1080p; UHD_2160p; UHD_4K; RAW;
              UNKNOWN_QUALITY] |}.
  - compute_done.
  - intros []; compute_done.
Defined.

Inductive TorrentLanguage :=
| JAPANESE | ENGLISH | PORTUGUESE_BR | SPANISH | FRENCH | GERMAN | ITALIAN
| RUSSIAN | CHINESE | KOREAN | MULTI | UNKNOWN_LANGUAGE.

#[export] Instance TorrentLanguage_eq_dec : EqDecision TorrentLanguage.
Proof. solve_decision. Defined.

#[export] Instance TorrentLanguage_finite : Finite TorrentLanguage.
Proof.
  refine {| enum := [JAPANESE; ENGLISH; PORTUGUESE_BR; SPANISH; FRENCH; GERMAN;
              ITALIAN; RUSSIAN; CHINESE; KOREAN; MULTI; UNKNOWN_LANGUAGE] |}.
  - compute_done.
  - intros []; compute_done.
Defined.

Inductive TorrentCodec :=
| H264 | H265 | HEVC | AV1 | VP9 | XVID | UNKNOWN_CODEC.

Inductive TorrentReleaseType :=
| EPISODE | BATCH | SEASON | COMPLETE | MOVIE_RELEASE | OVA_RELEASE
| SPECIAL_RELEASE.

#[export] Instance TorrentReleaseType_eq_dec : EqDecision TorrentReleaseType.
Proof. solve_decision. Defined.

#[export] Instance TorrentReleaseType_finite : Finite TorrentReleaseType.
Proof.
  refine {| enum := [EPISODE; BATCH; SEASON; COMPLETE; MOVIE_RELEASE; OVA_RELEASE;
              SPECIAL_RELEASE] |}.
  - compute_done.
  - intros []; compute_done.
Defined.

Record TorrentMetadata := {
  quality : TorrentQuality;
  codec : TorrentCodec;
  audioLanguages : list TorrentLanguage;
  subtitleLanguages : list TorrentLanguage;
  releaseType : TorrentReleaseType;
  releaseGroup : option string;
  isDual : option bool;
  isMultiSub : option bool;
  isBatch : option bool;
  hasHardSubs : option bool
}.

Record EpisodeRange := { ep_start : Z; ep_end : Z }.

Record Torrent := {
  torrent_id : string;
  nyaaId : string;
  torrent_title : string;
  category : string;
  magnetLink : string;
  torrentLink : option string;
  infoHash : string;
  size : string;
  sizeBytes : Z;
  fileCount : option Z;
  seeders : Z;
  leechers : Z;
  downloads : Z;
  publishedAt : Date;
  lastChecked : option Date;
  animeId : option string;
  episodeIds : option (list string);
  seasonId : option string;
  episodeNumber : option Z;
  episodeRange : option EpisodeRange;
  metadata : TorrentMetadata;
  description : option string;
  comments : option Z;
  trusted : option bool;
  remake : option bool;
  torrent_createdAt : Date;
  torrent_updatedAt : Date
}.

End Models.

(** ** JavaScript arrays and insertion-ordered sets *)

Module JsArray.

Section Sort.
Context {A : Type}.
(** A comparator as [Array.prototype.sort] takes it: negative, zero or
    positive. *)
Variable cmp : A -> A -> Z.

(** [x] goes before the first element it does not compare greater than,
    hence before the elements it compares equal to. *)
Fixpoint insert_sorted (x : A) (l : list A) : list A :=
  match l with
  | [] => [x]
  | y :: l' => if cmp x y <=? 0 then x :: l else y :: insert_sorted x l'
  end.

(** [x] may stand before [y]. *)
Definition cmp_le (x y : A) : Prop := cmp x y <= 0.

(** [l.sort(cmp)]: the stable sort of [l]. *)
Definition sort (l : list A) : list A := foldr insert_sorted [] l.
End Sort.

(** The comparator of [sort()] without argument, on strings: code unit
    order. *)
Definition default_compare (a b : string) : Z :=
  match String.compare a b with
  | Lt => -1
  | Eq => 0
  | Gt => 1
  end.

(** [set.add(x)] on a [Set<string>] kept in insertion order. *)
Definition set_add (x : string) (s : list string) : list string :=
  if decide (x ∈ s) then s else (s ++ [x])%list.

End JsArray.

(** ** The world a service call runs in *)

Module Effects.
Import Models.

Inductive JsError :=
| TypeError (msg : string)
| Error (msg : string)
| ProviderError (provider msg : string).

(** The clock gives the successive values of [new Date()]; [ticks] counts
    the readings made so far.  [animes] is the store of
    [InMemoryAnimeRepository]. *)
Record World := {
  clock : nat -> Date;
  ticks : nat;
  animes : gmap string Anime
}.

(** A computation changes the world and returns or throws. *)
Definition M (A : Type) : Type := World -> World * (JsError + A).

#[export] Instance M_ret : MRet M := fun A x w => (w, inr x).

#[export] Instance M_bind : MBind M := fun A B f c w =>
  match c w with
  | (w', inl e) => (w', inl e)
  | (w', inr x) => f x w'
  end.

Definition throw {A} (e : JsError) : M A := fun w => (w, inl e).

(** [try { c } catch (e) { h e }] *)
Definition try_catch {A} (c : M A) (h : JsError -> M A) : M A := fun w =>
  match c w with
  | (w', inl e) => h e w'
  | r => r
  end.

(** [new Date()] *)
Definition new_Date : M Date := fun w =>
  ({| clock := clock w; ticks := S (ticks w); animes := animes w |},
   inr (clock w (ticks w))).

End Effects.

(** ** [repositories/AnimeRepository.ts] *)

Module InMemoryAnimeRepository.
Import Models Effects.

Definition set_updatedAt (a : Anime) (d : Date) : Anime :=
  {| id := id a; title := title a; type := type a; status := status a;
     episodes := episodes a; duration := duration a; season := season a;
     year := year a; synopsis := synopsis a; background := background a;
     images := images a; trailer := trailer a; aired := aired a;
     broadcast := broadcast a; ratings := ratings a;
     ageRating := ageRating a; genres := genres a; themes := themes a;
     demographics := demographics a; studios := studios a;
     producers := producers a; licensors := licensors a;
     relations := relations a; adaptations := adaptations a;
     externalIds := externalIds a; createdAt := createdAt a;
     updatedAt := d; lastSyncedAt := lastSyncedAt a |}.

(** [this.animes.set(anime.id, anime)] *)
Definition animes_set (a : Anime) : M unit := fun w =>
  ({| clock := clock w; ticks := ticks w;
      animes := <[id a := a]> (animes w) |}, inr tt).

Definition save (anime : Anime) : M Anime :=
  now ← new_Date;
  let anime := set_updatedAt anime now in
  _ ← animes_set anime;
  mret anime.

End InMemoryAnimeRepository.

(** ** [AnimeUnificationService] *)

Module AnimeUnificationService.
Import Models Effects.

Record UnificationOptions := {
  preferredSources : option (list DataSource);
  minSourcesForConsensus : option Z;
  mergeArrays : option bool
}.

(** What [provider.fetchAnimeById(id)] settles to: it throws, or resolves
    to [null] or to a record. *)
Record IAnimeProvider := {
  getSource : DataSource;
  fetchAnimeById : string -> JsError + option Anime
}.

Definition selectBestValue {T} (values : list (option T))
    (_preferredSources : list DataSource) : option T :=
  let defined := omap (fun v => v) values in
  match defined with
  | [] => None
  | [v] => Some v
  | v :: _ => Some v
  end.

Definition mergeArrayFields (arrays : list (list string)) : list string :=
  let merged :=
    foldl (fun merged arr =>
             foldl (fun merged item =>
                      if JsString.truthy item then JsArray.set_add item merged
                      else merged)
                   merged arr)
          [] arrays in
  JsArray.sort JsArray.default_compare merged.

(** The inner and the outer loop of [mergeArrayFields], from a set
    [merged] onwards. *)
Definition add_items (merged arr : list string) : list string :=
  foldl (fun merged item =>
           if JsString.truthy item then JsArray.set_add item merged else merged)
        merged arr.

Definition add_arrays (merged : list string) (arrays : list (list string))
  : list string :=
  foldl add_items merged arrays.

(** [(a, b) => b.length - a.length] *)
Definition by_length_desc (a b : string) : Z :=
  Z.of_nat (String.length b) - Z.of_nat (String.length a).

(** [sources.map((s) => s.synopsis).filter((s) => !!s)], sorted, then
    [[0] || base.synopsis]. *)
Definition unifySynopsis (base : Anime) (sources : list Anime)
  : option string :=
  let synopses :=
    filter (fun s => JsString.truthy s = true) (omap synopsis sources) in
  match JsArray.sort by_length_desc synopses with
  | s :: _ => Some s
  | [] => synopsis base
  end.

(** The record [unifyAnimeData] builds from [base = sources[0]], before
    the two dates are set. *)
Definition unifyFields (base : Anime) (sources : list Anime)
    (options : UnificationOptions) : Anime :=
  let preferredSources := default [] (preferredSources options) in
  let mergeArrays := default true (mergeArrays options) in
  {| id := id base;
     title :=
       {| romaji := selectBestValue (map (fun s => romaji (title s)) sources)
                      preferredSources;
          english := selectBestValue (map (fun s => english (title s)) sources)
                       preferredSources;
          native := selectBestValue (map (fun s => native (title s)) sources)
                      preferredSources;
          synonyms :=
            if mergeArrays
            then Some (mergeArrayFields
                         (map (fun s => default [] (synonyms (title s)))
                              sources))
            else synonyms (title base) |};
     type := type base; status := status base;
     episodes := episodes base; duration := duration base;
     season := season base; year := year base;
     synopsis := unifySynopsis base sources;
     background := background base;
     images := images base; trailer := trailer base; aired := aired base;
     broadcast := broadcast base;
     ratings := concat (map ratings sources);
     ageRating := ageRating base;
     genres := if mergeArrays then mergeArrayFields (map genres sources)
               else genres base;
     themes := if mergeArrays then mergeArrayFields (map themes sources)
               else themes base;
     demographics := demographics base;
     studios := if mergeArrays then mergeArrayFields (map studios sources)
                else studios base;
     producers := if mergeArrays
                  then mergeArrayFields (map producers sources)
                  else producers base;
     licensors := licensors base;
     relations := relations base; adaptations := adaptations base;
     externalIds := concat (map externalIds sources);
     createdAt := createdAt base;
     updatedAt := updatedAt base;
     lastSyncedAt := lastSyncedAt base |}.

Definition set_dates (a : Anime) (synced updated : Date) : Anime :=
  {| id := id a; title := title a; type := type a; status := status a;
     episodes := episodes a; duration := duration a; season := season a;
     year := year a; synopsis := synopsis a; background := background a;
     images := images a; trailer := trailer a; aired := aired a;
     broadcast := broadcast a; ratings := ratings a;
     ageRating := ageRating a; genres := genres a; themes := themes a;
     demographics := demographics a; studios := studios a;
     producers := producers a; licensors := licensors a;
     relations := relations a; adaptations := adaptations a;
     externalIds := externalIds a; createdAt := createdAt a;
     updatedAt := updated; lastSyncedAt := synced |}.

(** With no source, [base] is [undefined] and the first property read on
    it throws. *)
Definition unifyAnimeData (sources : list Anime)
    (options : UnificationOptions) : M Anime :=
  match sources with
  | [] => throw (TypeError "Cannot read properties of undefined")
  | base :: _ =>
      let unified := unifyFields base sources options in
      synced ← new_Date;
      updated ← new_Date;
      mret (set_dates unified synced updated)
  end.

(** The loop of [fetchAndUnify] over [externalIds]; a failed fetch is
    caught and logged, which leaves the collected records as they are. *)
Fixpoint fetchFromSources (providers : gmap DataSource IAnimeProvider)
    (externalIds : list ExternalId) (animeDataFromSources : list Anime)
  : M (list Anime) :=
  match externalIds with
  | [] => mret animeDataFromSources
  | e :: rest =>
      match providers !! ext_source e with
      | Some provider =>
          collected ←
            try_catch
              (anime ← (fun w => (w, fetchAnimeById provider (ext_id e)));
               match anime with
               | Some a => mret (animeDataFromSources ++ [a])%list
               | None => mret animeDataFromSources
               end)
              (fun _ => mret animeDataFromSources);
          fetchFromSources providers rest collected
      | None => fetchFromSources providers rest animeDataFromSources
      end
  end.

Definition fetchAndUnify (providers : gmap DataSource IAnimeProvider)
    (externalIds : list ExternalId) (options : UnificationOptions)
  : M Anime :=
  animeDataFromSources ← fetchFromSources providers externalIds [];
  if decide (length animeDataFromSources = 0%nat)
  then throw (Error "No anime data could be fetched from any source")
  else
    unified ← unifyAnimeData animeDataFromSources options;
    InMemoryAnimeRepository.save unified.

End AnimeUnificationService.

(** ** JavaScript numbers *)

Module JsNumber.

(** A number that is a value of type [A], an infinity or NaN.  Decimal
    literals denote their exact value: the rounding of a literal to the
    nearest double is not part of the model. *)
Inductive Num (A : Type) :=
| Finite (x : A)
| Infinity (negative : bool)
| NaN.
Arguments Finite {A} x.
Arguments Infinity {A} negative.
Arguments NaN {A}.

(** [a / b] on integers *)
Definition div (a b : Z) : Num Q :=
  if b =? 0
  then if a =? 0 then NaN else Infinity (a <? 0)
  else Finite (Qdiv (inject_Z a) (inject_Z b)).


(** Value of a string of decimal digits, read after the digits [acc]. *)
Fixpoint digits_value (acc : Z) (s : string) : Z :=
  match s with
  | EmptyString => acc
  | String c s' => digits_value (10 * acc + (Z.of_N (JsString.code c) - 48)) s'
  end.



End JsNumber.

(** ** [repositories/TorrentRepository.ts] *)

Module InMemoryTorrentRepository.
Import Models.

(** The [Map<string, Torrent>] of the repository, in insertion order. *)
Definition Store := list (string * Torrent).

(** [Array.from(this.torrents.values())] *)
Definition values (torrents : Store) : list Torrent := map snd torrents.

Definition findByAnimeId (torrents : Store) (animeId' : string)
  : list Torrent :=
  filter (fun t => animeId t = Some animeId') (values torrents).

End InMemoryTorrentRepository.

(** ** [Map<string, V>] in insertion order *)

Module JsMap.

Section Map.
Context {V : Type}.

(** [map.get(key)] *)
Fixpoint get (key : string) (m : list (string * V)) : option V :=
  match m with
  | [] => None
  | (k, v) :: m' => if String.eqb k key then Some v else get key m'
  end.

(** [map.set(key, v)]: a key that is present keeps its place. *)
Fixpoint set (key : string) (v : V) (m : list (string * V))
  : list (string * V) :=
  match m with
  | [] => [(key, v)]
  | (k, v') :: m' =>
      if String.eqb k key then (k, v) :: m' else (k, v') :: set key v m'
  end.

(** [Array.from(map.values())] *)
Definition values (m : list (string * V)) : list V := map snd m.
End Map.

End JsMap.

(** ** [NyaaService] *)

Module NyaaService.
Import Models JsString JsNumber.

(** *** Languages of a release title *)

Definition extractAudioLanguages (title : string) : list TorrentLanguage :=
  let titleLower := toLowerCase title in
  let languages :=
    if includes titleLower "dual audio" || includes titleLower "multi audio"
    then [JAPANESE; ENGLISH]
    else
      ((if includes titleLower "japanese" || includes titleLower "jpn"
           || includes titleLower "jap"
        then [JAPANESE] else []) ++
       (if includes titleLower "english" || includes titleLower "eng"
           || includes titleLower "dub"
        then [ENGLISH] else []))%list in
  if (0 <? length languages)%nat then languages else [JAPANESE].

(** The entries of [langMap], in the order of the object literal. *)
Definition langMap : list (string * TorrentLanguage) :=
  [ ("eng|english", ENGLISH);
    ("pt-br|portuguese", PORTUGUESE_BR);
    ("esp|spanish", SPANISH);
    ("fre|french", FRENCH);
    ("ger|german", GERMAN);
    ("ita|italian", ITALIAN);
    ("rus|russian", RUSSIAN);
    ("chi|chinese", CHINESE);
    ("kor|korean", KOREAN) ].

Definition extractSubtitleLanguages (title : string) : list TorrentLanguage :=
  let titleLower := toLowerCase title in
  if includes titleLower "multi" &&
     (includes titleLower "sub" || includes titleLower "subtitle")
  then [MULTI]
  else
    let languages :=
      foldl (fun languages '(pattern, lang) =>
               let patterns := split "|" pattern in
               if existsb (fun p => includes titleLower p) patterns
               then (languages ++ [lang])%list
               else languages)
            [] langMap in
    if (0 <? length languages)%nat then languages else [ENGLISH].

(** *** Sizes *)








(** *** Duplicates *)

Definition normalize (s : string) : string :=
  replace_runs is_space
    (trim (replace_runs (fun c => negb (is_lower_alnum c)) (toLowerCase s))).

(** [t.infoHash || normalize(t.title)] *)
Definition dedup_key (t : Torrent) : string :=
  if truthy (infoHash t) then infoHash t else normalize (torrent_title t).

(** One turn of the loop over [torrents]. *)
Definition dedup_step (map : list (string * Torrent)) (t : Torrent)
  : list (string * Torrent) :=
  let key := dedup_key t in
  match JsMap.get key map with
  | None => JsMap.set key t map
  | Some existing =>
      if seeders t >? seeders existing then JsMap.set key t map else map
  end.

(** [(a, b) => b.seeders - a.seeders] *)
Definition by_seeders_desc (a b : Torrent) : Z := seeders b - seeders a.

Definition deduplicateTorrents (torrents : list Torrent) : list Torrent :=
  let map := foldl dedup_step [] torrents in
  JsArray.sort by_seeders_desc (JsMap.values map).

(** *** Statistics *)

Record TorrentStats := {
  totalTorrents : Z;
  byQuality : gmap TorrentQuality Z;
  byLanguage : gmap TorrentLanguage Z;
  byReleaseType : gmap TorrentReleaseType Z;
  averageSeeders : Num Q;
  totalSize : Z
}.

(** [rec[k] = (rec[k] ?? 0) + 1] *)
Definition increment `{Countable K} (k : K) (rec : gmap K Z) : gmap K Z :=
  <[k := default 0 (rec !! k) + 1]> rec.

(** The body of [torrents.forEach]. *)
Definition count_torrent (stats : TorrentStats) (torrent : Torrent)
  : TorrentStats :=
  {| totalTorrents := totalTorrents stats;
     byQuality := increment (quality (metadata torrent)) (byQuality stats);
     byLanguage :=
       foldl (fun rec lang => increment lang rec) (byLanguage stats)
             (audioLanguages (metadata torrent));
     byReleaseType :=
       increment (releaseType (metadata torrent)) (byReleaseType stats);
     averageSeeders := averageSeeders stats;
     totalSize := totalSize stats + sizeBytes torrent |}.

Definition getTorrentStats (torrentRepository : InMemoryTorrentRepository.Store)
    (animeId : string) : TorrentStats :=
  let torrents :=
    InMemoryTorrentRepository.findByAnimeId torrentRepository animeId in
  let stats :=
    {| totalTorrents := Z.of_nat (length torrents);
       byQuality := ∅; byLanguage := ∅; byReleaseType := ∅;
       averageSeeders := Finite (inject_Z 0);
       totalSize := 0 |} in
  if (length torrents =? 0)%nat then stats
  else
    let stats := foldl count_torrent stats torrents in
    {| totalTorrents := totalTorrents stats;
       byQuality := byQuality stats;
       byLanguage := byLanguage stats;
       byReleaseType := byReleaseType stats;
       averageSeeders :=
         JsNumber.div (foldl (fun sum t => sum + seeders t) 0 torrents)
                      (Z.of_nat (length torrents));
       totalSize := totalSize stats |}.

End NyaaService.

(** ** The season organizer *)

Module SeasonOrganizer.
Import Models.

(** The 13-episodes-per-season heuristic. *)
Definition EPISODES_PER_SEASON : nat := 13.

Section Chunks.
Context {A : Type}.

(** Modelled from the spec: the body of [organizeIntoSeasons] of [MiauIndex]
    is not among the sources, only its callers in the tests are.  The
    design document has it cut the episode list into consecutive chunks of
    at most 13 episodes: the first 13 of what is left, as long as something
    is left. *)
Equations? chunks (l : list A) : list (list A) by wf (length l) lt :=
  chunks [] := [];
  chunks (x :: l) :=
    take EPISODES_PER_SEASON (x :: l)
    :: chunks (drop EPISODES_PER_SEASON (x :: l)).
Proof. simpl. rewrite length_drop. lia. Qed.

End Chunks.

(** Modelled from the spec: one season record per chunk, numbered from 1,
    with [episodeCount] the length of the chunk and [episodes] the chunk.
    [uuid k] stands for the identifier generated for the [k]-th record and
    [now] for the time of creation. *)
Definition organizeIntoSeasons (uuid : nat -> string) (now : Date)
    (animeId : string) (episodes : list Episode) : list AnimeSeason :=
  imap (fun k chunk =>
          {| season_id := uuid k;
             season_animeId := animeId;
             seasonNumber := Z.of_nat (S k);
             season_title := None;
             episodeCount := Some (Z.of_nat (length chunk));
             season_episodes := Some chunk;
             season_aired := None;
             season_externalIds := [];
             season_createdAt := now;
             season_updatedAt := now |})
       (chunks episodes).

End SeasonOrganizer.

(** ** The design document's vocabulary *)

Module Design.
Import Models.

(** Code unit order on strings, the order of [sort()] without argument:
    case-sensitive, capitals before small letters. *)
Definition string_lt (a b : string) : Prop := String.compare a b = Lt.
Definition string_le (a b : string) : Prop := String.compare a b <> Gt.

(** [result] is the deduplicated, sorted union of [arrays]: it increases
    strictly, and holds exactly the strings that some array holds. *)
Definition is_sorted_union (arrays : list (list string)) (result : list string)
  : Prop :=
  StronglySorted string_lt result /\
  forall x, x ∈ result <-> exists arr, arr ∈ arrays /\ x ∈ arr.

(** The same union, of the non-empty strings only. *)
Definition is_sorted_union_of_truthy (arrays : list (list string))
    (result : list string) : Prop :=
  StronglySorted string_lt result /\
  forall x, x ∈ result <-> x <> "" /\ exists arr, arr ∈ arrays /\ x ∈ arr.

(** The values of a field that the sources define, in source order. *)
Definition defined_values {T} (field : Anime -> option T)
    (sources : list Anime) : list T :=
  omap field sources.

(** The selection rule for a field: nothing when no source defines it, the
    value when one source does, the first value in source order when
    several do. *)
Definition first_defined_rule {T} (defined : list T) (result : option T)
  : Prop :=
  (defined = [] -> result = None) /\
  (forall v, defined = [v] -> result = Some v) /\
  (forall v v' rest, defined = v :: v' :: rest -> result = Some v).

(** The options with another list of preferred sources. *)
Definition with_preferredSources (preferred : option (list DataSource))
    (options : AnimeUnificationService.UnificationOptions)
  : AnimeUnificationService.UnificationOptions :=
  {| AnimeUnificationService.preferredSources := preferred;
     AnimeUnificationService.minSourcesForConsensus :=
       AnimeUnificationService.minSourcesForConsensus options;
     AnimeUnificationService.mergeArrays :=
       AnimeUnificationService.mergeArrays options |}.

(** The record a source returns for an external id, when its provider is
    registered and the fetch neither fails nor finds nothing. *)
Definition returned
    (providers : gmap DataSource AnimeUnificationService.IAnimeProvider)
    (e : ExternalId) : option Anime :=
  match providers !! ext_source e with
  | Some provider =>
      match AnimeUnificationService.fetchAnimeById provider (ext_id e) with
      | inr (Some a) => Some a
      | _ => None
      end
  | None => None
  end.

(** The contributing set: the records of the sources that returned data,
    in the order of the external ids. *)
Definition contributing
    (providers : gmap DataSource AnimeUnificationService.IAnimeProvider)
    (externalIds : list ExternalId) : list Anime :=
  omap (returned providers) externalIds.

(** What the map of [deduplicateTorrents] holds once the candidates [done]
    have been seen: one entry per key, each entry a candidate filed under
    its own key, and every candidate seen is matched, under its key, by an
    entry with at least as many seeders. *)
Definition dedup_inv (done : list Torrent) (m : list (string * Torrent))
  : Prop :=
  NoDup m.*1 /\
  (forall k v, (k, v) ∈ m -> NyaaService.dedup_key v = k /\ v ∈ done) /\
  (forall t, t ∈ done ->
     exists v, JsMap.get (NyaaService.dedup_key t) m = Some v /\
               seeders t <= seeders v).

(** A string of small letters, digits and single spaces, where
    [after_space] tells that no space may come first. *)
Fixpoint spaced (after_space : bool) (s : string) : bool :=
  match s with
  | EmptyString => true
  | String c s' =>
      if Ascii.eqb c " " then negb after_space && spaced true s'
      else JsString.is_lower_alnum c && spaced false s'
  end.

(** A normalized title: small letters, digits and spaces only, no space
    at either end, no two spaces in a row. *)
Definition collapsed_and_trimmed (s : string) : Prop :=
  JsString.forallb (fun c => JsString.is_lower_alnum c || Ascii.eqb c " ") s
  = true /\
  JsString.startsWith " " s = false /\
  JsString.endsWith_char " " s = false /\
  JsString.includes s "  " = false.

(** The markers of the two audio languages, and the keyword table of the
    subtitle languages. *)
Definition audio_markers : list (TorrentLanguage * list string) :=
  [ (JAPANESE, ["japanese"; "jpn"; "jap"]);
    (ENGLISH, ["english"; "eng"; "dub"]) ].

Definition subtitle_keywords : list (TorrentLanguage * list string) :=
  [ (ENGLISH, ["eng"; "english"]);
    (PORTUGUESE_BR, ["pt-br"; "portuguese"]);
    (SPANISH, ["esp"; "spanish"]);
    (FRENCH, ["fre"; "french"]);
    (GERMAN, ["ger"; "german"]);
    (ITALIAN, ["ita"; "italian"]);
    (RUSSIAN, ["rus"; "russian"]);
    (CHINESE, ["chi"; "chinese"]);
    (KOREAN, ["kor"; "korean"]) ].

(** Each entry of a table is tested on its own; the languages whose entry
    has a keyword that the lower-cased title contains are put together, in
    the order of the table. *)
Definition union_of_matches (table : list (TorrentLanguage * list string))
    (titleLower : string) : list TorrentLanguage :=
  omap (fun '(lang, keywords) =>
          if existsb (fun p => JsString.includes titleLower p) keywords
          then Some lang else None)
       table.

(** The first character of [s], if any, does not satisfy [f]. *)
Definition stops (f : ascii -> bool) (s : string) : Prop :=
  match s with
  | EmptyString => True
  | String c _ => f c = false
  end.



(** A source returned a rating; a source returned a score-bearing record. *)
Definition returned_rating (s : Anime) : bool :=
  bool_decide (ratings s <> []).
Definition returned_score (s : Anime) : bool :=
  existsb (fun r => bool_decide (is_Some (score r))) (ratings s).

(** The sum over the sources of 1 for a source that satisfies [p], else 0. *)
Definition count_sources (p : Anime -> bool) (sources : list Anime) : nat :=
  foldr (fun s n => ((if p s then 1 else 0) + n)%nat) 0%nat sources.

End Design.

(** ** Sample data *)

Module Examples.
Import Models Effects AnimeUnificationService.

(** A world whose clock reads 1000, 1001, ... and whose repository is
    empty. *)
Definition world0 : World :=
  {| clock := fun n => 1000 + Z.of_nat n; ticks := 0; animes := ∅ |}.

Definition default_options : UnificationOptions :=
  {| preferredSources := None; minSourcesForConsensus := None;
     mergeArrays := None |}.

Definition no_merge_options : UnificationOptions :=
  {| preferredSources := None; minSourcesForConsensus := None;
     mergeArrays := Some false |}.

Definition no_image : Image :=
  {| img_small := None; img_medium := None; img_large := None;
     img_original := None |}.

(** A record as a provider maps it: the fields given, the rest absent. *)
Definition sample (id' : string) (romaji' : option string) (year' : option Z)
    (ratings' : list Rating) (genres' licensors' : list string)
    (source : DataSource) : Anime :=
  {| id := id';
     title := {| romaji := romaji'; english := None; native := None;
                 synonyms := None |};
     type := TV; status := FINISHED;
     episodes := None; duration := None; season := None; year := year';
     synopsis := None; background := None;
     images := no_image; trailer := None;
     aired := {| range_start := None; range_end := None |};
     broadcast := None;
     ratings := ratings';
     ageRating := None;
     genres := genres'; themes := []; demographics := None;
     studios := []; producers := []; licensors := licensors';
     relations := None; adaptations := None;
     externalIds := [{| ext_source := source; ext_id := id' |}];
     createdAt := 0; updatedAt := 0; lastSyncedAt := 0 |}.

Definition rating_of (source : DataSource) (score' : Q) : Rating :=
  {| rating_source := source; score := Some score'; votes := None;
     rank := None; popularity := None |}.

(** Two records of one anime, from MyAnimeList and from AniList. *)
Definition from_mal : Anime :=
  sample "21" (Some "One Piece") None [rating_of MYANIMELIST (87 # 10)]
         ["Action"; ""] ["Funimation"] MYANIMELIST.

Definition from_anilist : Anime :=
  sample "21" None (Some 1999) [rating_of ANILIST (88 # 10)]
         ["Drama"] ["Aniplex"] ANILIST.

(** A record that carries the ratings of two sources, as a unified record
    does. *)
Definition twice_rated : Anime :=
  sample "21" (Some "One Piece") (Some 1999)
         [rating_of MYANIMELIST (87 # 10); rating_of ANILIST (88 # 10)]
         ["Action"] [] MYANIMELIST.

(** Three registered providers: MyAnimeList fails, AniList answers, Kitsu
    finds nothing. *)
Definition providers : gmap DataSource IAnimeProvider :=
  <[MYANIMELIST := {| getSource := MYANIMELIST;
                      fetchAnimeById := fun _ =>
                        inl (ProviderError "MyAnimeList" "timeout") |}]>
  (<[ANILIST := {| getSource := ANILIST;
                   fetchAnimeById := fun _ => inr (Some from_anilist) |}]>
  (<[KITSU := {| getSource := KITSU;
                 fetchAnimeById := fun _ => inr None |}]> ∅)).

Definition external_ids : list ExternalId :=
  [ {| ext_source := MYANIMELIST; ext_id := "21" |};
    {| ext_source := ANILIST; ext_id := "21" |};
    {| ext_source := KITSU; ext_id := "12" |};
    {| ext_source := TMDB; ext_id := "37854" |} ].

(** The episode numbered [n], as the tests build it, and the identifier of
    the [k]-th generated record. *)
Definition episode (n : Z) : Episode :=
  {| ep_id := "test-ep"; ep_animeId := "test-anime-1"; number := n;
     ep_title := None; titleJapanese := None; titleRomaji := None;
     ep_synopsis := None; ep_duration := None; ep_images := None;
     ep_aired := None; filler := None; recap := None;
     ep_externalIds := []; ep_createdAt := 0; ep_updatedAt := 0 |}.

Definition uuid (k : nat) : string :=
  String (ascii_of_nat (65 + k)) "-season".

(** A candidate release, as the mapper builds it. *)
Definition torrent (title' infoHash' : string) (seeders' : Z) : Torrent :=
  {| torrent_id := "id"; nyaaId := "1"; torrent_title := title';
     category := "1_2"; magnetLink := ""; torrentLink := None;
     infoHash := infoHash'; size := "1.4 GiB"; sizeBytes := 1503238554;
     fileCount := None;
     seeders := seeders'; leechers := 0; downloads := 0;
     publishedAt := 0; lastChecked := None;
     animeId := Some "21"; episodeIds := None; seasonId := None;
     episodeNumber := None; episodeRange := None;
     metadata :=
       {| quality := FULL_HD_1080p; codec := HEVC;
          audioLanguages := [JAPANESE]; subtitleLanguages := [ENGLISH];
          releaseType := EPISODE; releaseGroup := None; isDual := Some false;
          isMultiSub := Some false; isBatch := Some false;
          hasHardSubs := Some false |};
     description := None; comments := None;
     trusted := Some true; remake := Some false;
     torrent_createdAt := 0; torrent_updatedAt := 0 |}.

(** A repository that holds two releases of the anime "21". *)
Definition torrent_store : InMemoryTorrentRepository.Store :=
  [ ("t1", torrent "[Grp] Show - 01 [1080p]" "0123456789abcdef" 10);
    ("t2", torrent "[Grp] Show - 02 [1080p]" "fedcba9876543210" 50) ].

Definition fifty_episodes : list Episode :=
  map (fun i => episode (Z.of_nat i)) (seq 1 50).

End Examples.

(** ** Further sample data *)

Module Samples.
Import Models.

(** The record [a] with the synopsis [s]. *)
Definition with_synopsis (s : string) (a : Anime) : Anime :=
  {| id := id a; title := title a; type := type a; status := status a;
     episodes := episodes a; duration := duration a; season := season a;
     year := year a; synopsis := Some s; background := background a;
     images := images a; trailer := trailer a; aired := aired a;
     broadcast := broadcast a; ratings := ratings a;
     ageRating := ageRating a; genres := genres a; themes := themes a;
     demographics := demographics a; studios := studios a;
     producers := producers a; licensors := licensors a;
     relations := relations a; adaptations := adaptations a;
     externalIds := externalIds a; createdAt := createdAt a;
     updatedAt := updatedAt a; lastSyncedAt := lastSyncedAt a |}.

End Samples.

(** ** [NyaaService]: the other extractors *)

Module NyaaExtractors.
Import Models JsString JsNumber.

Definition extractQuality (title : string) : TorrentQuality :=
  let titleLower := toLowerCase title in
  if includes titleLower "2160p" || includes titleLower "4k" then UHD_4K
  else if includes titleLower "1080p" then FULL_HD_1080p
  else if includes titleLower "720p" then HD_720p
  else if includes titleLower "480p" then SD_480p
  else if includes titleLower "raw" then RAW
  else UNKNOWN_QUALITY.

Definition extractCodec (title : string) : TorrentCodec :=
  let titleLower := toLowerCase title in
  if includes titleLower "hevc" || includes titleLower "h.265" then HEVC
  else if includes titleLower "h.264" || includes titleLower "x264" then H264
  else if includes titleLower "av1" then AV1
  else if includes titleLower "vp9" then VP9
  else if includes titleLower "xvid" then XVID
  else UNKNOWN_CODEC.

Definition extractReleaseType (title : string) : TorrentReleaseType :=
  let titleLower := toLowerCase title in
  if includes titleLower "batch" || includes titleLower "complete" then BATCH
  else if includes titleLower "season" then SEASON
  else if includes titleLower "movie" then MOVIE_RELEASE
  else if includes titleLower "ova" then OVA_RELEASE
  else if includes titleLower "special" then SPECIAL_RELEASE
  else EPISODE.

(** The leftmost place of [s] where [at_] matches: what a regular
    expression without [^] does. *)
Fixpoint search {T} (at_ : string -> option T) (s : string) : option T :=
  match at_ s with
  | Some x => Some x
  | None =>
      match s with
      | EmptyString => None
      | String _ s' => search at_ s'
      end
  end.

(** [[^\]]] *)
Definition not_closing (c : ascii) : bool := negb (Ascii.eqb c "]").

(** [\[([^\]]+)\]$] at the start of [s]: the run of [[^\]]] is taken whole,
    a shorter one would be followed by a character that is not "]". *)
Definition release_group_at (s : string) : option string :=
  match s with
  | String "[" r =>
      let '(group, rest) := span not_closing r in
      if negb (String.eqb group "") && String.eqb rest "]" then Some group
      else None
  | _ => None
  end.

(** [title.match(/\[([^\]]+)\]$/)], then [match[1]] *)
Definition extractReleaseGroup (title : string) : option string :=
  search release_group_at title.

Definition extractMetadata (title : string) : TorrentMetadata :=
  let titleLower := toLowerCase title in
  {| quality := extractQuality title;
     codec := extractCodec title;
     audioLanguages := NyaaService.extractAudioLanguages title;
     subtitleLanguages := NyaaService.extractSubtitleLanguages title;
     releaseType := extractReleaseType title;
     releaseGroup := extractReleaseGroup title;
     isDual := Some (includes titleLower "dual audio");
     isMultiSub := Some (includes titleLower "multi" && includes titleLower "sub");
     isBatch := Some (includes titleLower "batch");
     hasHardSubs := Some (includes titleLower "hardsub") |}.

(** [[a-fA-F0-9]] *)
Definition is_hex (c : ascii) : bool :=
  is_digit c || in_range 97 102 c || in_range 65 70 c.

(** [s] starts with [p] up to the case of letters; [p] is in lower case. *)
Fixpoint startsWith_ignoreCase (p s : string) : bool :=
  match p, s with
  | EmptyString, _ => true
  | String a p', String b s' =>
      if Ascii.eqb a (lower_char b) then startsWith_ignoreCase p' s' else false
  | String _ _, EmptyString => false
  end.

(** The first [n] characters of [s] when they all satisfy [f], and what
    follows them. *)
Fixpoint take_exactly (f : ascii -> bool) (n : nat) (s : string)
  : option (string * string) :=
  match n with
  | O => Some (EmptyString, s)
  | S n' =>
      match s with
      | String c s' =>
          if f c
          then match take_exactly f n' s' with
               | Some (a, r) => Some (String c a, r)
               | None => None
               end
          else None
      | EmptyString => None
      end
  end.

Fixpoint drop (n : nat) (s : string) : string :=
  match n, s with
  | S n', String _ s' => drop n' s'
  | _, _ => s
  end.

(** [btih:([a-fA-F0-9]{40})] with the flag [i], at the start of [s] *)
Definition info_hash_at (s : string) : option string :=
  if startsWith_ignoreCase "btih:" s
  then match take_exactly is_hex 40 (drop 5 s) with
       | Some (hash, _) => Some hash
       | None => None
       end
  else None.

Definition extractInfoHash (magnetLink : string) : string :=
  match search info_hash_at magnetLink with
  | Some hash => toLowerCase hash
  | None => EmptyString
  end.

(** The first alternative that matches, in the order a greedy quantifier
    tries them. *)
Fixpoint first_match {A T} (alternatives : list A) (k : A -> option T)
  : option T :=
  match alternatives with
  | [] => None
  | a :: rest =>
      match k a with
      | Some x => Some x
      | None => first_match rest k
      end
  end.

(** The literal character [c] *)
Definition expect (c : ascii) (s : string) : option string :=
  match s with
  | String a r => if Ascii.eqb a c then Some r else None
  | EmptyString => None
  end.

(** [(\d{2,3})] followed by [k]: three digits are tried before two. *)
Definition digits_2_3 {T} (s : string) (k : string -> string -> option T)
  : option T :=
  first_match [3%nat; 2%nat]
    (fun n => match take_exactly is_digit n s with
              | Some (d, r) => k d r
              | None => None
              end).

(** [\s*-\s*(\d{2,3})]: each [\s*] is followed by a character that is no
    white space, so that it takes the whole run. *)
Definition dash_then_digits (s : string) : option string :=
  match expect "-" (dropWhile is_space s) with
  | Some r => digits_2_3 (dropWhile is_space r) (fun d _ => Some d)
  | None => None
  end.

(** [(\d{2,3})\s*-\s*(\d{2,3})] at the start of [s] *)
Definition range_at (s : string) : option (string * string) :=
  digits_2_3 s (fun a r =>
    match dash_then_digits r with
    | Some b => Some (a, b)
    | None => None
    end).

Definition is_E (c : ascii) : bool := Ascii.eqb c "E" || Ascii.eqb c "e".

(** [[Ee](\d{2,3})\s*-\s*[Ee]?(\d{2,3})] at the start of [s]: the optional
    letter is tried first. *)
Definition e_range_at (s : string) : option (string * string) :=
  match s with
  | String c s' =>
      if is_E c
      then digits_2_3 s' (fun a r =>
             match expect "-" (dropWhile is_space r) with
             | Some r =>
                 let r := dropWhile is_space r in
                 let with_letter :=
                   match r with
                   | String e r' =>
                       if is_E e
                       then digits_2_3 r' (fun b _ => Some (a, b))
                       else None
                   | EmptyString => None
                   end in
                 match with_letter with
                 | Some x => Some x
                 | None => digits_2_3 r (fun b _ => Some (a, b))
                 end
             | None => None
             end)
      else None
  | EmptyString => None
  end.

(** [parseInt(d, 10)] of a string of digits *)
Definition parseInt (d : string) : Z := digits_value 0 d.

Definition extractEpisodeRange (title : string) : option EpisodeRange :=
  first_match [range_at; e_range_at]
    (fun pattern =>
       match search pattern title with
       | Some (a, b) => Some {| ep_start := parseInt a; ep_end := parseInt b |}
       | None => None
       end).

(** Truthiness of an optional string. *)
Definition truthy_opt (s : option string) : bool :=
  match s with
  | Some s => truthy s
  | None => false
  end.

Definition buildSearchQueries (anime : Anime) : list string :=
  let queries := [] in
  let queries :=
    if truthy_opt (romaji (title anime))
    then (queries ++ [default "" (romaji (title anime))])%list
    else queries in
  let queries :=
    if truthy_opt (english (title anime))
       && negb (bool_decide (english (title anime) = romaji (title anime)))
    then (queries ++ [default "" (english (title anime))])%list
    else queries in
  let queries :=
    if truthy_opt (native (title anime))
       && negb (bool_decide (default "" (native (title anime)) ∈ queries))
    then (queries ++ [default "" (native (title anime))])%list
    else queries in
  queries.

End NyaaExtractors.

(** ** Vocabulary of the further properties *)

Module Vocabulary.
Import Models JsString.

(** [0-9a-f] *)
Definition is_lower_hex (c : ascii) : bool :=
  is_digit c || in_range 97 102 c.

(** A character other than "b" and "B", other than "[", a non-digit. *)
Definition not_b (c : ascii) : bool :=
  negb (Ascii.eqb c "b") && negb (Ascii.eqb c "B").
Definition not_opening (c : ascii) : bool := negb (Ascii.eqb c "[").
Definition not_digit (c : ascii) : bool := negb (is_digit c).

(** A numeral of two or three digits. *)
Definition numeral_2_3 (d : string) : Prop :=
  forallb is_digit d = true /\
  (String.length d = 2%nat \/ String.length d = 3%nat).

End Vocabulary.

(** ** [repositories/TorrentRepository.ts]: the other operations *)

Module TorrentRepositoryOps.
Import Models.

Record TorrentSearchFilter := {
  filter_animeId : option string;
  filter_episodeId : option string;
  filter_seasonId : option string;
  filter_episodeNumber : option Z;
  filter_quality : option TorrentQuality;
  filter_audioLanguage : option TorrentLanguage;
  filter_subtitleLanguage : option TorrentLanguage;
  filter_releaseType : option TorrentReleaseType;
  filter_minSeeders : option Z;
  filter_trustedOnly : option bool
}.

(** [results = results.filter(p)] when [condition] holds *)
Definition filter_if (condition : bool) (p : Torrent -> bool)
    (results : list Torrent) : list Torrent :=
  if condition then List.filter p results else results.

(** [t.episodeNumber === n || (t.episodeRange && start <= n && end >= n)] *)
Definition covers_episode (n : Z) (t : Torrent) : bool :=
  bool_decide (episodeNumber t = Some n) ||
  match episodeRange t with
  | Some range => (ep_start range <=? n) && (ep_end range >=? n)
  | None => false
  end.

(** [t.episodeIds?.includes(id)] *)
Definition has_episodeId (id : string) (t : Torrent) : bool :=
  match episodeIds t with
  | Some ids => bool_decide (id ∈ ids)
  | None => false
  end.

Definition findByFilters (torrents : InMemoryTorrentRepository.Store)
    (filters : TorrentSearchFilter) : list Torrent :=
  let results := InMemoryTorrentRepository.values torrents in
  let results :=
    filter_if (NyaaExtractors.truthy_opt (filter_animeId filters))
      (fun t => bool_decide (animeId t = filter_animeId filters)) results in
  let results :=
    filter_if (NyaaExtractors.truthy_opt (filter_episodeId filters))
      (fun t => has_episodeId (default "" (filter_episodeId filters)) t)
      results in
  let results :=
    filter_if (NyaaExtractors.truthy_opt (filter_seasonId filters))
      (fun t => bool_decide (seasonId t = filter_seasonId filters)) results in
  let results :=
    filter_if (bool_decide (is_Some (filter_episodeNumber filters)))
      (fun t => covers_episode (default 0 (filter_episodeNumber filters)) t)
      results in
  let results :=
    filter_if (bool_decide (is_Some (filter_quality filters)))
      (fun t => bool_decide (Some (quality (metadata t)) = filter_quality filters))
      results in
  let results :=
    filter_if (bool_decide (is_Some (filter_audioLanguage filters)))
      (fun t => match filter_audioLanguage filters with
                | Some lang => bool_decide (lang ∈ audioLanguages (metadata t))
                | None => false
                end)
      results in
  let results :=
    filter_if (bool_decide (is_Some (filter_subtitleLanguage filters)))
      (fun t => match filter_subtitleLanguage filters with
                | Some lang =>
                    bool_decide (lang ∈ subtitleLanguages (metadata t))
                | None => false
                end)
      results in
  let results :=
    filter_if (bool_decide (is_Some (filter_releaseType filters)))
      (fun t => bool_decide (Some (releaseType (metadata t))
                             = filter_releaseType filters))
      results in
  let results :=
    filter_if (bool_decide (is_Some (filter_minSeeders filters)))
      (fun t => seeders t >=? default 0 (filter_minSeeders filters)) results in
  let results :=
    filter_if (bool_decide (filter_trustedOnly filters = Some true))
      (fun t => bool_decide (trusted t = Some true)) results in
  JsArray.sort NyaaService.by_seeders_desc results.

(** [this.torrents.get(id) ?? null] *)
Definition findById (torrents : InMemoryTorrentRepository.Store)
    (id : string) : option Torrent :=
  JsMap.get id torrents.

(** [{ ...torrent, updatedAt: now, createdAt: torrent.createdAt ?? now }];
    the creation date of a [Torrent] is never absent. *)
Definition stamped (torrent : Torrent) (now : Date) : Torrent :=
  {| torrent_id := torrent_id torrent; nyaaId := nyaaId torrent;
     torrent_title := torrent_title torrent; category := category torrent;
     magnetLink := magnetLink torrent; torrentLink := torrentLink torrent;
     infoHash := infoHash torrent; size := size torrent;
     sizeBytes := sizeBytes torrent; fileCount := fileCount torrent;
     seeders := seeders torrent; leechers := leechers torrent;
     downloads := downloads torrent; publishedAt := publishedAt torrent;
     lastChecked := lastChecked torrent; animeId := animeId torrent;
     episodeIds := episodeIds torrent; seasonId := seasonId torrent;
     episodeNumber := episodeNumber torrent;
     episodeRange := episodeRange torrent; metadata := metadata torrent;
     description := description torrent; comments := comments torrent;
     trusted := trusted torrent; remake := remake torrent;
     torrent_createdAt := torrent_createdAt torrent;
     torrent_updatedAt := now |}.

(** [save], at the time [now]: the saved record and the store. *)
Definition save (now : Date) (torrent : Torrent)
    (torrents : InMemoryTorrentRepository.Store)
  : Torrent * InMemoryTorrentRepository.Store :=
  let savedTorrent := stamped torrent now in
  (savedTorrent, JsMap.set (torrent_id torrent) savedTorrent torrents).

(** [map.delete(key)]: whether the key was there, and the map without
    it. *)
Fixpoint map_delete {V} (key : string) (m : list (string * V))
  : bool * list (string * V) :=
  match m with
  | [] => (false, [])
  | (k, v) :: m' =>
      if String.eqb k key then (true, m')
      else let '(found, rest) := map_delete key m' in (found, (k, v) :: rest)
  end.

Definition delete (id : string) (torrents : InMemoryTorrentRepository.Store)
  : bool * InMemoryTorrentRepository.Store :=
  map_delete id torrents.

(** [deleteByAnimeId]: the number of torrents found for the anime, and the
    store after the deletion of their ids. *)
Definition deleteByAnimeId (animeId' : string)
    (torrents : InMemoryTorrentRepository.Store)
  : Z * InMemoryTorrentRepository.Store :=
  let toDelete :=
    filter (fun t => animeId t = Some animeId')
           (InMemoryTorrentRepository.values torrents) in
  (Z.of_nat (length toDelete),
   foldl (fun store t => snd (map_delete (torrent_id t) store))
         torrents toDelete).

(** [this.torrents.size] *)
Definition count (torrents : InMemoryTorrentRepository.Store) : Z :=
  Z.of_nat (length torrents).

End TorrentRepositoryOps.

(** ** [NyaaService]: the queries on stored torrents *)

Module NyaaQueries.
Import Models TorrentRepositoryOps.

(** The options of the service that the queries read. *)
Record NyaaServiceOptions := {
  minSeeders : Z;
  trustedOnly : bool;
  preferredQuality : TorrentQuality
}.

Definition no_filter : TorrentSearchFilter :=
  {| filter_animeId := None; filter_episodeId := None;
     filter_seasonId := None; filter_episodeNumber := None;
     filter_quality := None; filter_audioLanguage := None;
     filter_subtitleLanguage := None; filter_releaseType := None;
     filter_minSeeders := None; filter_trustedOnly := None |}.

(** [{ animeId, episodeNumber, minSeeders, trustedOnly }] *)
Definition episode_filter (animeId' : string) (episodeNumber' : Z)
    (options : NyaaServiceOptions) : TorrentSearchFilter :=
  {| filter_animeId := Some animeId'; filter_episodeId := None;
     filter_seasonId := None; filter_episodeNumber := Some episodeNumber';
     filter_quality := None; filter_audioLanguage := None;
     filter_subtitleLanguage := None; filter_releaseType := None;
     filter_minSeeders := Some (minSeeders options);
     filter_trustedOnly := Some (trustedOnly options) |}.

Definition getBestTorrentForEpisode (options : NyaaServiceOptions)
    (torrentRepository : InMemoryTorrentRepository.Store)
    (anime : Anime) (episodeNumber' : Z)
    (preferredQuality' : option TorrentQuality) : option Torrent :=
  let torrents :=
    findByFilters torrentRepository
                  (episode_filter (id anime) episodeNumber' options) in
  if (length torrents =? 0)%nat then None
  else
    let quality' := default (preferredQuality options) preferredQuality' in
    match List.find (fun t => bool_decide (quality (metadata t) = quality'))
                    torrents with
    | Some exactMatch => Some exactMatch
    | None => head torrents
    end.

Definition qualityPriority : list TorrentQuality :=
  [UHD_4K; FULL_HD_1080p; HD_720p; SD_480p].

(** [{ animeId, episodeNumber }] *)
Definition quality_filter (animeId' : string) (episodeNumber' : Z)
  : TorrentSearchFilter :=
  {| filter_animeId := Some animeId'; filter_episodeId := None;
     filter_seasonId := None; filter_episodeNumber := Some episodeNumber';
     filter_quality := None; filter_audioLanguage := None;
     filter_subtitleLanguage := None; filter_releaseType := None;
     filter_minSeeders := None; filter_trustedOnly := None |}.

Definition getBestQualityForEpisode
    (torrentRepository : InMemoryTorrentRepository.Store)
    (animeId' : string) (episodeNumber' : Z) : option TorrentQuality :=
  let torrents :=
    findByFilters torrentRepository (quality_filter animeId' episodeNumber') in
  if (length torrents =? 0)%nat then None
  else
    match List.find
            (fun q => existsb (fun t => bool_decide (quality (metadata t) = q))
                              torrents)
            qualityPriority with
    | Some q => Some q
    | None => option_map (fun t => quality (metadata t)) (head torrents)
    end.

End NyaaQueries.

(** ** Vocabulary of the properties of the repository and its queries *)

Module Criteria.
Import Models JsString TorrentRepositoryOps NyaaQueries.

(** A criterion that is absent holds of every torrent. *)
Definition wanted {A} (criterion : option A) (holds : A -> bool) : bool :=
  match criterion with
  | Some a => holds a
  | None => true
  end.

(** A criterion on a string: absent or empty, it holds of every torrent. *)
Definition wanted_text (criterion : option string) (holds : string -> bool)
  : bool :=
  wanted criterion (fun s => negb (truthy s) || holds s).

(** A torrent meets every criterion of the filter. *)
Definition matches (filters : TorrentSearchFilter) (t : Torrent) : bool :=
  wanted_text (filter_animeId filters)
              (fun a => bool_decide (animeId t = Some a)) &&
  wanted_text (filter_episodeId filters) (fun e => has_episodeId e t) &&
  wanted_text (filter_seasonId filters)
              (fun s => bool_decide (seasonId t = Some s)) &&
  wanted (filter_episodeNumber filters) (fun n => covers_episode n t) &&
  wanted (filter_quality filters)
         (fun q => bool_decide (quality (metadata t) = q)) &&
  wanted (filter_audioLanguage filters)
         (fun l => bool_decide (l ∈ audioLanguages (metadata t))) &&
  wanted (filter_subtitleLanguage filters)
         (fun l => bool_decide (l ∈ subtitleLanguages (metadata t))) &&
  wanted (filter_releaseType filters)
         (fun r => bool_decide (releaseType (metadata t) = r)) &&
  wanted (filter_minSeeders filters) (fun m => m <=? seeders t) &&
  wanted (filter_trustedOnly filters)
         (fun only => negb only || bool_decide (trusted t = Some true)).

(** A torrent of the anime (of any anime when the id is empty) that is the
    episode or whose range holds it. *)
Definition shows_episode (animeId' : string) (n : Z) (t : Torrent) : Prop :=
  (animeId' <> "" -> animeId t = Some animeId') /\
  (episodeNumber t = Some n \/
   exists range, episodeRange t = Some range /\
                 ep_start range <= n <= ep_end range).

(** A torrent that the service accepts for the episode. *)
Definition eligible (options : NyaaServiceOptions) (animeId' : string)
    (n : Z) (t : Torrent) : Prop :=
  shows_episode animeId' n t /\
  minSeeders options <= seeders t /\
  (trustedOnly options = true -> trusted t = Some true).

(** The sum of the counts of a record of counts. *)
Definition histogram_total `{Finite K} (rec : gmap K Z) : Z :=
  foldr Z.add 0 ((fun k => default 0 (rec !! k)) <$> enum K).

(** The count that a record holds for a key, 0 for a key it lacks. *)
Definition count_of `{Countable K} (rec : gmap K Z) (k : K) : Z :=
  default 0 (rec !! k).

(** Every torrent of the store is filed under its own id, no id twice. *)
Definition well_keyed (torrents : InMemoryTorrentRepository.Store) : Prop :=
  NoDup torrents.*1 /\
  forall k t, (k, t) ∈ torrents -> torrent_id t = k.

End Criteria.

(** ** Sample torrents *)

Module TorrentSamples.
Import Models.

(** The torrent [t] under the id [id'], as a release of [anime']. *)
Definition filed (id' : string) (anime' : option string) (t : Torrent)
  : Torrent :=
  {| torrent_id := id'; nyaaId := nyaaId t;
     torrent_title := torrent_title t; category := category t;
     magnetLink := magnetLink t; torrentLink := torrentLink t;
     infoHash := infoHash t; size := size t;
     sizeBytes := sizeBytes t; fileCount := fileCount t;
     seeders := seeders t; leechers := leechers t;
     downloads := downloads t; publishedAt := publishedAt t;
     lastChecked := lastChecked t; animeId := anime';
     episodeIds := episodeIds t; seasonId := seasonId t;
     episodeNumber := episodeNumber t;
     episodeRange := episodeRange t; metadata := metadata t;
     description := description t; comments := comments t;
     trusted := trusted t; remake := remake t;
     torrent_createdAt := torrent_createdAt t;
     torrent_updatedAt := torrent_updatedAt t |}.

(** A store of three torrents, two of the anime "21" and one of "30". *)
Definition three_torrents : InMemoryTorrentRepository.Store :=
  [ ("a", filed "a" (Some "21") (Examples.torrent "Show - 01" "" 10));
    ("b", filed "b" (Some "30") (Examples.torrent "Other - 01" "" 20));
    ("c", filed "c" (Some "21") (Examples.torrent "Show - 02" "" 30)) ].

End TorrentSamples.

(** ** [Array.prototype.slice] and [String.prototype.substring] *)

Module JsSlice.

(** [l.slice(start, end)] for integers: a negative bound counts from the
    end of the array, and both are clamped to the array. *)
Definition slice {A} (l : list A) (start end' : Z) : list A :=
  let len := Z.of_nat (length l) in
  let k := if start <? 0 then Z.max (len + start) 0 else Z.min start len in
  let final := if end' <? 0 then Z.max (len + end') 0 else Z.min end' len in
  take (Z.to_nat (Z.max (final - k) 0)) (drop (Z.to_nat k) l).

(** [s.substring(0, n)] for a natural number [n] *)
Fixpoint substring_0 (n : nat) (s : string) : string :=
  match n, s with
  | S n', String c s' => String c (substring_0 n' s')
  | _, _ => EmptyString
  end.

End JsSlice.

(** ** [repositories/AnimeRepository.ts]: queries *)

Module AnimeRepositoryOps.
Import Models Effects JsString.

(** [this.animes.get(id) || null] *)
Definition findById (id' : string) : M (option Anime) := fun w =>
  (w, inr (animes w !! id')).

(** [s?.toLowerCase().includes(searchTerm)] *)
Definition includes_lower (s : option string) (searchTerm : string) : bool :=
  match s with
  | Some s => includes (toLowerCase s) searchTerm
  | None => false
  end.

(** The condition of [searchByTitle]. *)
Definition title_matches (searchTerm : string) (anime : Anime) : bool :=
  includes_lower (romaji (title anime)) searchTerm ||
  includes_lower (english (title anime)) searchTerm ||
  includes_lower (native (title anime)) searchTerm ||
  match synonyms (title anime) with
  | Some l => existsb (fun s => includes (toLowerCase s) searchTerm) l
  | None => false
  end.

(** The loop of [searchByTitle] over the stored records, which it leaves
    as soon as [results.length >= limit] after a push. *)
Fixpoint search_loop (searchTerm : string) (limit : Z) (animes : list Anime)
    (results : list Anime) : list Anime :=
  match animes with
  | [] => results
  | anime :: rest =>
      if title_matches searchTerm anime
      then
        let results := (results ++ [anime])%list in
        if Z.of_nat (length results) >=? limit then results
        else search_loop searchTerm limit rest results
      else search_loop searchTerm limit rest results
  end.

(** [searchByTitle], on [allAnimes], the stored records in the order of
    their insertion; [limit] is an integer. *)
Definition searchByTitle (allAnimes : list Anime) (title' : string)
    (limit : Z) : list Anime :=
  search_loop (toLowerCase title') limit allAnimes [].

(** [findAll], on [allAnimes = Array.from(this.animes.values())]. *)
Definition findAll (allAnimes : list Anime) (page limit : Z) : list Anime :=
  let start := page * limit in
  JsSlice.slice allAnimes start (start + limit).

End AnimeRepositoryOps.

(** ** [MiauIndex.ts] *)

Module MiauIndex.
Import Models Effects JsString.

(** [getAllLocal], on the stored records in the order of their
    insertion. *)
Definition getAllLocal (allAnimes : list Anime) : list Anime :=
  AnimeRepositoryOps.findAll allAnimes 1 1000.

(** [clearLocal], on the map of the repository in the order of
    insertion: the map that it leaves. *)
Definition clearLocal (animes : list (string * Anime))
  : list (string * Anime) :=
  let allAnime := AnimeRepositoryOps.findAll (JsMap.values animes) 1 10000 in
  foldl (fun store anime =>
           snd (TorrentRepositoryOps.map_delete (id anime) store))
        animes allAnime.

(** [s?.toLowerCase()] *)
Definition lower (s : option string) : option string :=
  option_map toLowerCase s.

(** [romaji?.toLowerCase() || english?.toLowerCase() ||
    native?.toLowerCase() || item.id] *)
Definition title_key (item : Anime) : string :=
  if NyaaExtractors.truthy_opt (lower (romaji (title item)))
  then default "" (lower (romaji (title item)))
  else if NyaaExtractors.truthy_opt (lower (english (title item)))
  then default "" (lower (english (title item)))
  else if NyaaExtractors.truthy_opt (lower (native (title item)))
  then default "" (lower (native (title item)))
  else id item.

(** One turn of the loop of [deduplicateAnime]. *)
Definition seen_step (seen : list (string * Anime)) (item : Anime)
  : list (string * Anime) :=
  let key := title_key item in
  match JsMap.get key seen with
  | Some _ => seen
  | None => JsMap.set key item seen
  end.

Definition deduplicateAnime (anime : list Anime) : list Anime :=
  JsMap.values (foldl seen_step [] anime).

(** What a provider's [searchAnime] settles to; a failure is caught and
    counts as no result. *)
Definition caught (outcome : JsError + list Anime) : list Anime :=
  match outcome with
  | inr results => results
  | inl _ => []
  end.

(** [searchAnime], on the outcomes of the providers' searches in the
    order of the providers. *)
Definition searchAnime (outcomes : list (JsError + list Anime)) (limit : Z)
  : list Anime :=
  let allResults := concat (map caught outcomes) in
  let uniqueResults := deduplicateAnime allResults in
  JsSlice.slice uniqueResults 0 limit.

End MiauIndex.

(** ** [utils/torrentValidation.ts] *)

Module TorrentValidation.
Import JsString.

(** A character of the class that the first [replace] removes: the two
    angle brackets, the apostrophe and the quotation mark. *)
Definition dangerous (c : ascii) : bool :=
  (code c =? 60)%N || (code c =? 62)%N || (code c =? 39)%N ||
  (code c =? 34)%N.

Definition sanitizeSearchQuery (query : string) : string :=
  JsSlice.substring_0 200
    (replace_runs is_space
       (JsString.filter (fun c => negb (dangerous c)) (trim query))).

(** [Number.isInteger(n) && n > 0 && n <= 10000], on an integer. *)
Definition isValidEpisodeNumber (episodeNumber' : Z) : bool :=
  (episodeNumber' >? 0) && (episodeNumber' <=? 10000).

Definition isValidEpisodeRange (start end' : Z) : bool :=
  isValidEpisodeNumber start && isValidEpisodeNumber end' &&
  (start <=? end') && (end' - start <=? 1000).

End TorrentValidation.

(** ** [utils/cache.ts] *)

Module CacheService.

Section Cache.
Context {T : Type}.

Record CacheEntry := {
  data : T;
  expiresAt : Z
}.

(** The state of a cache: its entries and its default time to live.  The
    operations take the reading of [Date.now()] as [now]. *)
Record Cache := {
  cache : gmap string CacheEntry;
  defaultTTL : Z
}.

Definition with_cache (c : Cache) (entries : gmap string CacheEntry) : Cache :=
  {| cache := entries; defaultTTL := defaultTTL c |}.

(** [set(key, value, options)], where [ttl] is [options?.ttl]. *)
Definition set (now : Z) (key : string) (value : T) (ttl : option Z)
    (c : Cache) : Cache :=
  let ttl := default (defaultTTL c) ttl in
  let expiresAt' := now + ttl in
  with_cache c (<[key := {| data := value; expiresAt := expiresAt' |}]>
                  (cache c)).

(** [get(key)]: the value or [null], and the cache it leaves. *)
Definition get (now : Z) (key : string) (c : Cache) : option T * Cache :=
  match cache c !! key with
  | None => (None, c)
  | Some entry =>
      if now >? expiresAt entry
      then (None, with_cache c (base.delete key (cache c)))
      else (Some (data entry), c)
  end.

Definition has (now : Z) (key : string) (c : Cache) : bool * Cache :=
  match cache c !! key with
  | None => (false, c)
  | Some entry =>
      if now >? expiresAt entry
      then (false, with_cache c (base.delete key (cache c)))
      else (true, c)
  end.

(** [cleanup()]: the expired entries are deleted. *)
Definition cleanup (now : Z) (c : Cache) : Cache :=
  let keysToDelete :=
    (map_to_list (base.filter (fun kv => now > expiresAt kv.2) (cache c))).*1 in
  with_cache c (foldl (fun m key => base.delete key m) (cache c) keysToDelete).

(** [getOrSet(key, factory, options)], where [factory] is what the call of
    the factory settles to, should it be called: the result, and the cache
    it leaves. *)
Definition getOrSet (now : Z) (key : string)
    (factory : Effects.JsError + T) (ttl : option Z) (c : Cache)
  : (Effects.JsError + T) * Cache :=
  match get now key c with
  | (Some cached, c') => (inr cached, c')
  | (None, c') =>
      match factory with
      | inl e => (inl e, c')
      | inr value => (inr value, set now key value ttl c')
      end
  end.

End Cache.

Arguments CacheEntry T : clear implicits.
Arguments Cache T : clear implicits.

End CacheService.

(** ** Vocabulary of the properties of queries *)

Module QueryShape.
Import JsString.

(** Every whitespace character of the string is a space, and no two
    spaces are adjacent; [after_space] tells that a space precedes the
    string. *)
Fixpoint single_spaced (after_space : bool) (s : string) : bool :=
  match s with
  | EmptyString => true
  | String c s' =>
      if is_space c
      then Ascii.eqb c " " && negb after_space && single_spaced true s'
      else single_spaced false s'
  end.

Definition starts_with_space (s : string) : bool :=
  match s with
  | String c _ => is_space c
  | EmptyString => false
  end.

(** A character that the sanitizer lets through. *)
Definition safe (c : ascii) : bool := negb (TorrentValidation.dangerous c).

End QueryShape.

(** ** [AnimeUnificationService.searchAndUnify] *)

Module UnificationSearch.
Import Models Effects AnimeUnificationService.

(** [anime.title.romaji || anime.title.english || anime.id] *)
Definition group_key (anime : Anime) : string :=
  if NyaaExtractors.truthy_opt (romaji (title anime))
  then default "" (romaji (title anime))
  else if NyaaExtractors.truthy_opt (english (title anime))
  then default "" (english (title anime))
  else id anime.

(** The body of the loop over the results of a provider: the array under
    the key, which is created when the key is new, gets the record
    pushed. *)
Definition group_step (resultsMap : list (string * list Anime))
    (anime : Anime) : list (string * list Anime) :=
  let key := group_key anime in
  let resultsMap :=
    match JsMap.get key resultsMap with
    | Some _ => resultsMap
    | None => JsMap.set key [] resultsMap
    end in
  match JsMap.get key resultsMap with
  | Some group => JsMap.set key (group ++ [anime])%list resultsMap
  | None => resultsMap
  end.

(** [{ mergeArrays: true }] *)
Definition merge_options : UnificationOptions :=
  {| preferredSources := None; minSourcesForConsensus := None;
     mergeArrays := Some true |}.

(** The loop over [resultsMap.values()]. *)
Fixpoint unify_groups (groups : list (list Anime)) (unified : list Anime)
  : M (list Anime) :=
  match groups with
  | [] => mret unified
  | animeGroup :: rest =>
      if (0 <? length animeGroup)%nat
      then
        unifiedAnime ← unifyAnimeData animeGroup merge_options;
        unify_groups rest (unified ++ [unifiedAnime])%list
      else unify_groups rest unified
  end.

(** [searchAndUnify], on the outcomes of the providers' searches in the
    order of the providers: a search that fails is caught before any of
    its results is seen. *)
Definition searchAndUnify (outcomes : list (JsError + list Anime))
    (limit : Z) : M (list Anime) :=
  let resultsMap :=
    foldl group_step [] (concat (map MiauIndex.caught outcomes)) in
  unified ← unify_groups (JsMap.values resultsMap) [];
  mret (JsSlice.slice unified 0 limit).

(** What the map of [searchAndUnify] holds once the records [done] have
    been seen: one entry per key, under every key the records of that
    key in the order in which they came, at least one, and an entry for
    the key of every record. *)
Definition grouped (done : list Anime) (m : list (string * list Anime))
  : Prop :=
  NoDup m.*1 /\
  (forall k g, JsMap.get k m = Some g ->
     g <> [] /\ g = base.filter (fun a => group_key a = k) done) /\
  (forall a, a ∈ done -> is_Some (JsMap.get (group_key a) m)).

(** The record [u] unifies the group [g]. *)
Definition unifies (u : Anime) (g : list Anime) : Prop :=
  exists base rest synced updated,
    g = base :: rest /\
    u = set_dates (unifyFields base g merge_options) synced updated.

End UnificationSearch.

(** ** [InMemoryEpisodeRepository] *)

Module InMemoryEpisodeRepository.
Import Models.

(** The [Map<string, Episode>] of the repository, in insertion order. *)
Definition Store := list (string * Episode).

(** [(a, b) => a.number - b.number] *)
Definition by_number (a b : Episode) : Z := number a - number b.

(** The loop pushes the episodes of the anime in the order of the map;
    the array is then sorted. *)
Definition findByAnimeId (episodes : Store) (animeId' : string)
  : list Episode :=
  JsArray.sort by_number
    (List.filter (fun episode => String.eqb (ep_animeId episode) animeId')
                 (JsMap.values episodes)).

(** The loop returns the first episode of the anime with the number. *)
Definition findByNumber (episodes : Store) (animeId' : string) (number' : Z)
  : option Episode :=
  List.find (fun episode =>
               String.eqb (ep_animeId episode) animeId' &&
               (number episode =? number'))
            (JsMap.values episodes).

(** [count(animeId?)] *)
Definition count (episodes : Store) (animeId' : option string) : Z :=
  if negb (NyaaExtractors.truthy_opt animeId')
  then Z.of_nat (length episodes)
  else
    Z.of_nat
      (length
         (List.filter
            (fun episode =>
               String.eqb (ep_animeId episode) (default "" animeId'))
            (JsMap.values episodes))).

End InMemoryEpisodeRepository.

(** ** [NyaaService.isValidTorrent] *)

Module NyaaValidity.
Import Models NyaaQueries.

Definition isValidTorrent (options : NyaaServiceOptions) (torrent : Torrent)
  : bool :=
  if seeders torrent <? minSeeders options then false
  else if trustedOnly options &&
          negb match trusted torrent with
               | Some b => b
               | None => false
               end
  then false
  else true.

End NyaaValidity.

(** ** [providers/BaseProvider.ts]: [fetchWithRetry] *)

Module BaseAnimeProvider.
Import Effects.

(** What the retries have cost: the calls of [fetchFn] made and the
    milliseconds waited. *)
Record Retries := {
  calls : nat;
  waited : Z
}.

Section Retry.
Context {T : Type}.

(** The loop [for (let i = 0; i < maxRetries; i++)], of which [remaining]
    turns are left.  [fetchFn k] is what the [k]-th call of the fetch
    function settles to, counted from 0. *)
Fixpoint retry_loop (fetchFn : nat -> JsError + T) (maxRetries : Z)
    (remaining i : nat) (lastError : option JsError) (st : Retries)
  : Retries * (JsError + T) :=
  match remaining with
  | O => (st, inl (default (Error "Fetch failed after retries") lastError))
  | S remaining' =>
      match fetchFn (calls st) with
      | inr value => ({| calls := S (calls st); waited := waited st |},
                      inr value)
      | inl error =>
          let delay :=
            if Z.of_nat i <? maxRetries - 1
            then 2 ^ Z.of_nat i * 1000
            else 0 in
          retry_loop fetchFn maxRetries remaining' (S i) (Some error)
                     {| calls := S (calls st); waited := waited st + delay |}
      end
  end.

(** [fetchWithRetry(fetchFn, maxRetries)], for an integer [maxRetries]. *)
Definition fetchWithRetry (fetchFn : nat -> JsError + T) (maxRetries : Z)
  : Retries * (JsError + T) :=
  retry_loop fetchFn maxRetries (Z.to_nat maxRetries) 0 None
             {| calls := 0; waited := 0 |}.

End Retry.

End BaseAnimeProvider.

(** * Properties *)

(** A fact about one character, settled on each of the 256. *)
Ltac by_cases c :=
  destruct c as [[] [] [] [] [] [] [] []]; vm_compute; try reflexivity;
  try discriminate; auto.

(** ** Strings *)

Section StringOrder.
Import Design.

Lemma ascii_compare_refl (c : ascii) : Ascii.compare c c = Eq.
Proof. unfold Ascii.compare. apply N.compare_refl. Qed.

Lemma ascii_compare_lt_trans (a b c : ascii) :
  Ascii.compare a b = Lt -> Ascii.compare b c = Lt -> Ascii.compare a c = Lt.
Proof.
  unfold Ascii.compare. rewrite !N.compare_lt_iff. apply N.lt_trans.
Qed.

Lemma string_compare_refl (s : string) : String.compare s s = Eq.
Proof.
  induction s as [|c s IH]; simpl; [reflexivity|].
  now rewrite ascii_compare_refl.
Qed.

Lemma string_lt_trans (a b c : string) :
  string_lt a b -> string_lt b c -> string_lt a c.
Proof.
  unfold string_lt. revert b c.
  induction a as [|x a IH]; intros [|y b] [|z c]; simpl; try congruence.
  destruct (Ascii.compare x y) eqn:Hxy; try discriminate.
  - apply Ascii.compare_eq_iff in Hxy as ->.
    destruct (Ascii.compare y z); try discriminate; eauto.
  - destruct (Ascii.compare y z) eqn:Hyz; try discriminate.
    + apply Ascii.compare_eq_iff in Hyz as <-. now rewrite Hxy.
    + now rewrite (ascii_compare_lt_trans _ _ _ Hxy Hyz).
Qed.

Lemma string_lt_irrefl (a : string) : ~ string_lt a a.
Proof. unfold string_lt. now rewrite string_compare_refl. Qed.

Lemma string_le_lt_or_eq (a b : string) :
  string_le a b <-> string_lt a b \/ a = b.
Proof.
  unfold string_le, string_lt. split.
  - destruct (String.compare a b) eqn:H; intros Hn; try congruence; auto.
    right. now apply String.compare_eq_iff.
  - intros [->| ->]; [discriminate|]. now rewrite string_compare_refl.
Qed.

#[global] Instance string_lt_transitive : Transitive string_lt.
Proof. intros a b c. apply string_lt_trans. Qed.

Lemma default_compare_le (a b : string) :
  JsArray.default_compare a b <= 0 <-> string_le a b.
Proof.
  unfold JsArray.default_compare, string_le.
  destruct (String.compare a b); split; intros; try lia; congruence.
Qed.

Lemma default_compare_total (a b : string) :
  JsArray.default_compare a b <= 0 \/ JsArray.default_compare b a <= 0.
Proof.
  unfold JsArray.default_compare. rewrite (String.compare_antisym b a).
  destruct (String.compare a b); simpl; lia.
Qed.

End StringOrder.

(** ** [Array.prototype.sort] *)

Section SortFacts.
Context {A : Type} (cmp : A -> A -> Z).

Hypothesis cmp_total : forall x y, cmp x y <= 0 \/ cmp y x <= 0.

Lemma insert_sorted_Permutation (x : A) (l : list A) :
  JsArray.insert_sorted cmp x l ≡ₚ x :: l.
Proof.
  induction l as [|y l IH]; simpl; [reflexivity|].
  destruct (cmp x y <=? 0); [reflexivity|].
  rewrite IH. apply Permutation_swap.
Qed.

Lemma sort_Permutation (l : list A) : JsArray.sort cmp l ≡ₚ l.
Proof.
  induction l as [|x l IH]; simpl; [reflexivity|].
  rewrite insert_sorted_Permutation. now rewrite IH.
Qed.

Lemma insert_sorted_Sorted (x : A) (l : list A) :
  Sorted (JsArray.cmp_le cmp) l ->
  Sorted (JsArray.cmp_le cmp) (JsArray.insert_sorted cmp x l).
Proof.
  induction l as [|y l IH]; simpl; intros Hs.
  - repeat constructor.
  - destruct (Z.leb_spec (cmp x y) 0) as [Hle|Hgt].
    + constructor; [assumption|]. now constructor.
    + apply Sorted_inv in Hs as [Hs Hhd].
      constructor; [auto|].
      assert (Hyx : JsArray.cmp_le cmp y x).
      { destruct (cmp_total x y); [lia | assumption]. }
      destruct l as [|z l]; simpl.
      * now constructor.
      * destruct (cmp x z <=? 0); constructor; auto.
        now apply HdRel_inv in Hhd.
Qed.

Lemma sort_Sorted (l : list A) :
  Sorted (JsArray.cmp_le cmp) (JsArray.sort cmp l).
Proof.
  induction l as [|x l IH]; simpl; [constructor|].
  now apply insert_sorted_Sorted.
Qed.

(** Sorting leaves a sorted array as it is. *)
Lemma sort_of_Sorted (l : list A) :
  Sorted (JsArray.cmp_le cmp) l -> JsArray.sort cmp l = l.
Proof.
  induction l as [|x l IH]; simpl; [reflexivity|]; intros Hs.
  apply Sorted_inv in Hs as [Hs Hhd]. rewrite (IH Hs).
  destruct l as [|y l]; [reflexivity|]. simpl.
  apply HdRel_inv in Hhd. unfold JsArray.cmp_le in Hhd.
  destruct (Z.leb_spec (cmp x y) 0); [reflexivity | lia].
Qed.

End SortFacts.

(** ** [mergeArrayFields] *)

Section MergeFacts.
Import Design AnimeUnificationService.

Lemma truthy_spec (s : string) : JsString.truthy s = true <-> s <> "".
Proof.
  unfold JsString.truthy. destruct (String.eqb_spec s ""); simpl; split;
    congruence.
Qed.

Lemma set_add_elem (x y : string) (s : list string) :
  y ∈ JsArray.set_add x s <-> y ∈ s \/ y = x.
Proof.
  unfold JsArray.set_add. destruct (decide (x ∈ s)) as [Hin|Hout].
  - split; [auto|]. intros [?| ->]; assumption.
  - rewrite elem_of_app, list_elem_of_singleton. reflexivity.
Qed.

Lemma set_add_NoDup (x : string) (s : list string) :
  NoDup s -> NoDup (JsArray.set_add x s).
Proof.
  intros Hs. unfold JsArray.set_add. destruct (decide (x ∈ s)); [assumption|].
  apply NoDup_app. split; [assumption|]. split.
  - intros y Hy Hx. apply list_elem_of_singleton in Hx as ->. contradiction.
  - apply NoDup_singleton.
Qed.

Lemma mergeArrayFields_unfold (arrays : list (list string)) :
  mergeArrayFields arrays =
  JsArray.sort JsArray.default_compare (add_arrays [] arrays).
Proof. reflexivity. Qed.

Lemma add_items_elem (arr merged : list string) (x : string) :
  x ∈ add_items merged arr <-> x ∈ merged \/ (x <> "" /\ x ∈ arr).
Proof.
  revert merged. induction arr as [|item arr IH]; intros merged; simpl.
  - split; [auto|]. intros [?|[_ H]]; [assumption|]. inversion H.
  - unfold add_items in IH. rewrite IH, elem_of_cons.
    destruct (JsString.truthy item) eqn:Ht.
    + apply truthy_spec in Ht. rewrite set_add_elem.
      split; [intros [[?| ->]|[? ?]]|intros [?|[? [->|?]]]]; auto.
    + assert (item = "") as ->.
      { destruct (String.eqb_spec item ""); [assumption|].
        unfold JsString.truthy in Ht.
        destruct (String.eqb_spec item ""); simpl in Ht; congruence. }
      split; [intros [?|[? ?]]|intros [?|[? [->|?]]]]; auto. congruence.
Qed.

Lemma add_items_NoDup (arr merged : list string) :
  NoDup merged -> NoDup (add_items merged arr).
Proof.
  revert merged. induction arr as [|item arr IH]; intros merged Hm; simpl;
    [assumption|].
  apply IH. destruct (JsString.truthy item); [|assumption].
  now apply set_add_NoDup.
Qed.

Lemma add_arrays_elem (arrays : list (list string)) (merged : list string)
    (x : string) :
  x ∈ add_arrays merged arrays <->
  x ∈ merged \/ (x <> "" /\ exists arr, arr ∈ arrays /\ x ∈ arr).
Proof.
  revert merged. induction arrays as [|arr arrays IH]; intros merged; simpl.
  - split; [auto|]. intros [?|[_ [arr [H _]]]]; [assumption|]. inversion H.
  - unfold add_arrays in IH. rewrite IH, add_items_elem. split.
    + intros [[?|[? ?]]|[? [a [? ?]]]]; auto.
      * right. split; [assumption|]. exists arr. split; [left|assumption].
      * right. split; [assumption|]. exists a. split; [now right|assumption].
    + intros [?|[Hne [a [Ha Hx]]]]; auto.
      apply elem_of_cons in Ha as [->|Ha]; [auto|].
      right. split; [assumption|]. now exists a.
Qed.

Lemma add_arrays_NoDup (arrays : list (list string)) (merged : list string) :
  NoDup merged -> NoDup (add_arrays merged arrays).
Proof.
  revert merged. induction arrays as [|arr arrays IH]; intros merged Hm; simpl;
    [assumption|].
  apply IH. now apply add_items_NoDup.
Qed.

(** An array sorted by the default comparator and free of duplicates
    increases strictly. *)
Lemma Sorted_le_NoDup_lt (l : list string) :
  Sorted (JsArray.cmp_le JsArray.default_compare) l -> NoDup l ->
  StronglySorted string_lt l.
Proof.
  intros Hs Hn. apply Sorted_StronglySorted; [apply _|].
  induction l as [|x l IH]; [constructor|].
  apply Sorted_inv in Hs as [Hs Hhd]. apply NoDup_cons in Hn as [Hx Hn].
  constructor; [auto|].
  destruct l as [|y l]; constructor.
  apply HdRel_inv in Hhd. unfold JsArray.cmp_le in Hhd.
  apply default_compare_le, string_le_lt_or_eq in Hhd as [?| ->];
    [assumption|].
  exfalso. apply Hx. left.
Qed.

Lemma StronglySorted_lt_Sorted_le (l : list string) :
  StronglySorted string_lt l ->
  Sorted (JsArray.cmp_le JsArray.default_compare) l.
Proof.
  intros Hs. apply StronglySorted_Sorted in Hs.
  induction Hs as [|x l Hs IH Hhd]; constructor; [assumption|].
  destruct Hhd; constructor. unfold JsArray.cmp_le.
  apply default_compare_le, string_le_lt_or_eq. now left.
Qed.

Lemma StronglySorted_lt_NoDup (l : list string) :
  StronglySorted string_lt l -> NoDup l.
Proof.
  induction 1 as [|x l Hs IH Hall]; constructor; [|assumption].
  intros Hin. rewrite Forall_forall in Hall.
  now apply (string_lt_irrefl x), Hall.
Qed.

(** What [mergeArrayFields] returns: the non-empty strings of the arrays,
    each once, in increasing code unit order. *)
Lemma mergeArrayFields_spec (arrays : list (list string)) :
  is_sorted_union_of_truthy arrays (mergeArrayFields arrays).
Proof.
  rewrite mergeArrayFields_unfold. split.
  - apply Sorted_le_NoDup_lt.
    + apply sort_Sorted, default_compare_total.
    + rewrite sort_Permutation. apply add_arrays_NoDup, NoDup_nil_2.
  - intros x. rewrite sort_Permutation, add_arrays_elem. split.
    + intros [H|?]; [inversion H|assumption].
    + auto.
Qed.

(** Merging an array that is merged already gives it back. *)
Lemma add_items_fresh (arr merged : list string) :
  NoDup (merged ++ arr) -> Forall (fun x => x <> "") arr ->
  add_items merged arr = (merged ++ arr)%list.
Proof.
  revert merged. induction arr as [|item arr IH]; intros merged Hn Hall; simpl.
  - now rewrite app_nil_r.
  - apply Forall_cons in Hall as [Hitem Hall].
    apply truthy_spec in Hitem. rewrite Hitem.
    unfold JsArray.set_add. destruct (decide (item ∈ merged)) as [Hin|Hout].
    + apply NoDup_app in Hn as (_ & Hdisj & _). exfalso.
      apply (Hdisj item Hin). left.
    + unfold add_items in IH.
      rewrite IH; [now rewrite <- app_assoc| |assumption].
      now rewrite <- app_assoc.
Qed.

Lemma mergeArrayFields_merged (l : list string) :
  StronglySorted string_lt l -> Forall (fun x => x <> "") l ->
  mergeArrayFields [l] = l.
Proof.
  intros Hs Hall. rewrite mergeArrayFields_unfold. simpl.
  rewrite (add_items_fresh l []); simpl;
    [|now apply StronglySorted_lt_NoDup|assumption].
  apply sort_of_Sorted. now apply StronglySorted_lt_Sorted_le.
Qed.

Lemma mergeArrayFields_idempotent (arrays : list (list string)) :
  mergeArrayFields [mergeArrayFields arrays] = mergeArrayFields arrays.
Proof.
  destruct (mergeArrayFields_spec arrays) as [Hs Hin].
  apply mergeArrayFields_merged; [assumption|].
  apply Forall_forall. intros x Hx. now apply Hin in Hx as [? _].
Qed.

End MergeFacts.

(** ** [unifyAnimeData] *)

Section UnifyFacts.
Import Models Effects Design AnimeUnificationService.

(** With a first source the call returns, after two readings of the
    clock. *)
Lemma unifyAnimeData_returns (base : Anime) (rest : list Anime)
    (options : UnificationOptions) (w : World) :
  unifyAnimeData (base :: rest) options w =
  ({| clock := clock w; ticks := S (S (ticks w)); animes := animes w |},
   inr (set_dates (unifyFields base (base :: rest) options)
                  (clock w (ticks w)) (clock w (S (ticks w))))).
Proof. reflexivity. Qed.

Lemma unifyAnimeData_throws (options : UnificationOptions) (w : World) :
  exists e, unifyAnimeData [] options w = (w, inl e).
Proof. eexists. reflexivity. Qed.

Lemma selectBestValue_first {T} (values : list (option T))
    (preferred : list DataSource) :
  selectBestValue values preferred = head (omap (fun v => v) values).
Proof.
  unfold selectBestValue. destruct (omap _ values) as [|v [|v' l]]; reflexivity.
Qed.

Lemma omap_fmap_id {S T} (f : S -> option T) (l : list S) :
  omap (fun v => v) (map f l) = omap f l.
Proof.
  induction l as [|x l IH]; [reflexivity|].
  cbn. destruct (f x); cbn; now f_equal.
Qed.

Lemma head_first_defined_rule {T} (defined : list T) :
  first_defined_rule defined (head defined).
Proof.
  unfold first_defined_rule. repeat split.
  - now intros ->.
  - now intros v ->.
  - now intros v v' rest ->.
Qed.

Lemma unified_field_rule {T} (f : Anime -> option T) (sources : list Anime)
    (preferred : list DataSource) :
  first_defined_rule (defined_values f sources)
                     (selectBestValue (map f sources) preferred).
Proof.
  rewrite selectBestValue_first, omap_fmap_id. apply head_first_defined_rule.
Qed.

(** ** C1: the array fields *)

(** C1, as amended.  For a non-empty list of sources unified with
    [mergeArrays] true (the default), each of [genres], [themes], [studios]
    and [producers] of the unified record is the deduplicated union, in
    increasing case-sensitive code unit order, of the non-empty strings of
    the sources' arrays; with [mergeArrays] false the five array fields,
    [licensors] included, are those of the first source. *)
Theorem C1_array_merge (sources : list Anime) (options : UnificationOptions)
    (w : World) :
  sources <> [] ->
  exists base unified w',
    head sources = Some base /\
    unifyAnimeData sources options w = (w', inr unified) /\
    (default true (mergeArrays options) = true ->
       is_sorted_union_of_truthy (map genres sources) (genres unified) /\
       is_sorted_union_of_truthy (map themes sources) (themes unified) /\
       is_sorted_union_of_truthy (map studios sources) (studios unified) /\
       is_sorted_union_of_truthy (map producers sources) (producers unified)) /\
    (mergeArrays options = Some false ->
       genres unified = genres base /\ themes unified = themes base /\
       studios unified = studios base /\ producers unified = producers base /\
       licensors unified = licensors base).
Proof.
  destruct sources as [|base rest]; [congruence|]. intros _.
  eexists base, _, _. split; [reflexivity|].
  split; [apply unifyAnimeData_returns|]. simpl. split.
  - intros ->. split; [|split; [|split]]; apply mergeArrayFields_spec.
  - intros ->. simpl. auto.
Qed.

Lemma C1_array_merge_witness :
  exists base unified w',
    head [Examples.from_mal; Examples.from_anilist] = Some base /\
    unifyAnimeData [Examples.from_mal; Examples.from_anilist]
                   Examples.default_options Examples.world0
      = (w', inr unified) /\
    genres unified = ["Action"; "Drama"].
Proof.
  destruct (C1_array_merge [Examples.from_mal; Examples.from_anilist]
              Examples.default_options Examples.world0)
    as (base & unified & w' & Hbase & Hrun & _); [discriminate|].
  exists base, unified, w'. split; [assumption|]. split; [assumption|].
  rewrite unifyAnimeData_returns in Hrun. injection Hrun as _ <-.
  reflexivity.
Defined.

(** The claim as stated fails: [licensors] is not among the merged fields,
    and an empty string of a source array is not in the result. *)
Lemma C1_counterexample :
  exists unified w',
    unifyAnimeData [Examples.from_mal; Examples.from_anilist]
                   Examples.default_options Examples.world0
      = (w', inr unified) /\
    ~ is_sorted_union
        (map licensors [Examples.from_mal; Examples.from_anilist])
        (licensors unified) /\
    ~ is_sorted_union
        (map genres [Examples.from_mal; Examples.from_anilist])
        (genres unified).
Proof.
  eexists _, _. split; [apply unifyAnimeData_returns|]. split.
  - intros [_ Hin]. specialize (Hin "Aniplex").
    destruct Hin as [_ Hin].
    assert (H : "Aniplex" ∈ ["Funimation"]).
    { apply Hin. exists ["Aniplex"]. split; [|left]. right. left. }
    apply list_elem_of_singleton in H. discriminate.
  - intros [_ Hin]. specialize (Hin "").
    destruct Hin as [_ Hin].
    assert (H : "" ∈ ["Action"; "Drama"]).
    { apply Hin. exists ["Action"; ""]. split; [left|]. right. left. }
    repeat (apply elem_of_cons in H as [H|H]; [discriminate|]).
    inversion H.
Qed.

(** ** C2: the scalar fields *)

(** C2, as amended.  For each of the title fields [romaji], [english] and
    [native] and every non-empty list of sources, the unified value is
    undefined when no source defines the field, the single defined value
    when exactly one source does, and the first defined value in source
    order when several do; the list of preferred sources has no effect on
    the result.  The other scalar fields ([episodes], [duration], [season],
    [year], [background]) are those of the first source. *)
Theorem C2_field_selection (sources : list Anime)
    (options : UnificationOptions) (w : World) :
  sources <> [] ->
  exists base unified w',
    head sources = Some base /\
    unifyAnimeData sources options w = (w', inr unified) /\
    first_defined_rule (defined_values (fun s => romaji (title s)) sources)
                       (romaji (title unified)) /\
    first_defined_rule (defined_values (fun s => english (title s)) sources)
                       (english (title unified)) /\
    first_defined_rule (defined_values (fun s => native (title s)) sources)
                       (native (title unified)) /\
    (forall preferred,
       unifyAnimeData sources (with_preferredSources preferred options) w
       = (w', inr unified)) /\
    episodes unified = episodes base /\ duration unified = duration base /\
    season unified = season base /\ year unified = year base /\
    background unified = background base.
Proof.
  destruct sources as [|base rest]; [congruence|]. intros _.
  eexists base, _, _. split; [reflexivity|].
  split; [apply unifyAnimeData_returns|].
  split; [apply (unified_field_rule _ (base :: rest))|].
  split; [apply (unified_field_rule _ (base :: rest))|].
  split; [apply (unified_field_rule _ (base :: rest))|].
  split; [|simpl; auto 6].
  intros preferred. rewrite unifyAnimeData_returns. reflexivity.
Qed.

Lemma C2_field_selection_witness :
  exists unified w',
    unifyAnimeData [Examples.from_mal; Examples.from_anilist]
                   Examples.default_options Examples.world0
      = (w', inr unified) /\
    romaji (title unified) = Some "One Piece".
Proof.
  destruct (C2_field_selection [Examples.from_mal; Examples.from_anilist]
              Examples.default_options Examples.world0)
    as (base & unified & w' & _ & Hrun & (_ & Hone & _) & _);
    [discriminate|].
  exists unified, w'. split; [assumption|]. now apply Hone.
Defined.

(** The claim as stated fails for a scalar field outside the title: only
    the second source defines [year], and the unified record has none. *)
Lemma C2_counterexample :
  exists unified w',
    unifyAnimeData [Examples.from_mal; Examples.from_anilist]
                   Examples.default_options Examples.world0
      = (w', inr unified) /\
    defined_values year [Examples.from_mal; Examples.from_anilist] = [1999] /\
    year unified = None /\
    ~ first_defined_rule
        (defined_values year [Examples.from_mal; Examples.from_anilist])
        (year unified).
Proof.
  eexists _, _. split; [apply unifyAnimeData_returns|].
  split; [reflexivity|]. split; [reflexivity|].
  intros (_ & Hone & _). specialize (Hone 1999 eq_refl). discriminate.
Qed.

(** ** C3: the ratings *)

Lemma length_concat_sum {T} (ls : list (list T)) :
  length (concat ls) = sum_list (map length ls).
Proof.
  induction ls as [|l ls IH]; simpl; [reflexivity|].
  now rewrite length_app, IH.
Qed.

Lemma count_at_most_one (sources : list Anime) :
  Forall (fun s => (length (ratings s) <= 1)%nat) sources ->
  sum_list (map (fun s => length (ratings s)) sources)
  = count_sources returned_rating sources.
Proof.
  induction 1 as [|s sources Hs _ IH]; simpl; [reflexivity|].
  rewrite IH. f_equal. unfold returned_rating.
  destruct (ratings s) as [|r [|r' l]]; simpl in *; try reflexivity. lia.
Qed.

Lemma count_one_scored (sources : list Anime) :
  Forall (fun s => ratings s = [] \/
                   exists r, ratings s = [r] /\ is_Some (score r)) sources ->
  sum_list (map (fun s => length (ratings s)) sources)
  = count_sources returned_score sources.
Proof.
  induction 1 as [|s sources Hs _ IH]; simpl; [reflexivity|].
  rewrite IH. f_equal. unfold returned_score.
  destruct Hs as [->|(r & -> & Hr)]; simpl; [reflexivity|].
  now rewrite bool_decide_eq_true_2.
Qed.

(** C3, as amended.  For every non-empty list of sources, the ratings of
    the unified record are the ratings of the sources, one after the other
    and none merged, so that their number is the sum over the sources of
    the number of rating entries of the source; when no source carries
    more than one rating entry, that is the number of sources that returned
    a rating, and when each entry moreover bears a score, the number of
    sources that returned a score-bearing record. *)
Theorem C3_ratings (sources : list Anime) (options : UnificationOptions)
    (w : World) :
  sources <> [] ->
  exists unified w',
    unifyAnimeData sources options w = (w', inr unified) /\
    ratings unified = concat (map ratings sources) /\
    length (ratings unified)
    = sum_list (map (fun s => length (ratings s)) sources) /\
    (Forall (fun s => (length (ratings s) <= 1)%nat) sources ->
     length (ratings unified) = count_sources returned_rating sources) /\
    (Forall (fun s => ratings s = [] \/
                      exists r, ratings s = [r] /\ is_Some (score r)) sources ->
     length (ratings unified) = count_sources returned_score sources).
Proof.
  destruct sources as [|base rest]; [congruence|]. intros _.
  eexists _, _. split; [apply unifyAnimeData_returns|].
  assert (Hlen : length (concat (map ratings (base :: rest)))
                 = sum_list (map (fun s => length (ratings s)) (base :: rest))).
  { rewrite length_concat_sum, map_map. reflexivity. }
  cbn [ratings set_dates unifyFields].
  split; [reflexivity|]. split; [exact Hlen|]. split.
  - intros H. rewrite Hlen. now apply count_at_most_one.
  - intros H. rewrite Hlen. now apply count_one_scored.
Qed.

Lemma C3_ratings_witness :
  exists unified w',
    unifyAnimeData [Examples.from_mal; Examples.from_anilist]
                   Examples.default_options Examples.world0
      = (w', inr unified) /\
    length (ratings unified) = 2%nat.
Proof.
  destruct (C3_ratings [Examples.from_mal; Examples.from_anilist]
              Examples.default_options Examples.world0)
    as (unified & w' & Hrun & _ & _ & Hcount & _); [discriminate|].
  exists unified, w'. split; [assumption|].
  rewrite Hcount; [reflexivity|].
  repeat constructor.
Defined.

(** The claim as stated fails for a source that carries two rating
    entries, as a unified record does: one source returned a rating, and
    the unified record has two. *)
Lemma C3_counterexample :
  exists unified w',
    unifyAnimeData [Examples.twice_rated] Examples.default_options
                   Examples.world0
      = (w', inr unified) /\
    length (ratings unified) = 2%nat /\
    count_sources returned_rating [Examples.twice_rated] = 1%nat /\
    count_sources returned_score [Examples.twice_rated] = 1%nat /\
    length (ratings unified)
    <> count_sources returned_rating [Examples.twice_rated] /\
    length (ratings unified)
    <> count_sources returned_score [Examples.twice_rated].
Proof.
  eexists _, _. split; [apply unifyAnimeData_returns|].
  repeat split; discriminate.
Qed.

(** ** C9: unifying a unified record *)

Lemma selectBestValue_single {T} (v : option T) (preferred : list DataSource) :
  selectBestValue [v] preferred = v.
Proof. destruct v; reflexivity. Qed.

Lemma unifySynopsis_single (base a : Anime) :
  synopsis base = synopsis a -> unifySynopsis base [a] = synopsis a.
Proof.
  intros Hbase. unfold unifySynopsis. cbn [omap list_omap].
  destruct (synopsis a) as [s|] eqn:Hs; cbn; [|assumption].
  destruct (decide (JsString.truthy s = true)); [reflexivity|assumption].
Qed.

(** Unifying the record unified from one source changes the two dates
    only. *)
Lemma unifyFields_fixed (a : Anime) (options : UnificationOptions)
    (d1 d2 d3 d4 : Date) :
  let u := set_dates (unifyFields a [a] options) d1 d2 in
  set_dates (unifyFields u [u] options) d3 d4 = set_dates u d3 d4.
Proof.
  intros u. subst u. unfold set_dates, unifyFields.
  cbn [id title type status episodes duration season year synopsis background
       images trailer aired broadcast ratings ageRating genres themes
       demographics studios producers licensors relations adaptations
       externalIds createdAt updatedAt lastSyncedAt
       romaji english native synonyms map].
  rewrite !selectBestValue_single.
  f_equal.
  - f_equal. destruct (default true (mergeArrays options)); [|reflexivity].
    cbn [default from_option]. f_equal.
    apply mergeArrayFields_idempotent.
  - etransitivity; [apply unifySynopsis_single; reflexivity|reflexivity].
  - cbn. now rewrite !app_nil_r.
  - destruct (default true (mergeArrays options)); [|reflexivity].
    now rewrite mergeArrayFields_idempotent.
  - destruct (default true (mergeArrays options)); [|reflexivity].
    now rewrite mergeArrayFields_idempotent.
  - destruct (default true (mergeArrays options)); [|reflexivity].
    now rewrite mergeArrayFields_idempotent.
  - destruct (default true (mergeArrays options)); [|reflexivity].
    now rewrite mergeArrayFields_idempotent.
  - cbn. now rewrite !app_nil_r.
Qed.

(** C9.  Unification is idempotent up to the time stamps: for every source
    record [a], unifying the one-element list of the record unified from
    [[a]] gives that record again, but for [updatedAt] and
    [lastSyncedAt]. *)
Theorem C9_idempotent (a : Anime) (options : UnificationOptions)
    (w1 w2 : World) :
  exists u w1' u' w2',
    unifyAnimeData [a] options w1 = (w1', inr u) /\
    unifyAnimeData [u] options w2 = (w2', inr u') /\
    u' = set_dates u (lastSyncedAt u') (updatedAt u').
Proof.
  eexists _, _, _, _.
  split; [apply unifyAnimeData_returns|].
  split; [apply unifyAnimeData_returns|].
  cbn [lastSyncedAt updatedAt set_dates].
  apply (unifyFields_fixed a options).
Qed.

End UnifyFacts.

(** ** C4: [fetchAndUnify] *)

Section FetchFacts.
Import Models Effects Design AnimeUnificationService.

(** The loop collects the contributing set and leaves the world as it
    is. *)
Lemma fetchFromSources_collects (providers : gmap DataSource IAnimeProvider)
    (externalIds : list ExternalId) (collected : list Anime) (w : World) :
  fetchFromSources providers externalIds collected w =
  (w, inr (collected ++ contributing providers externalIds)%list).
Proof.
  revert collected. induction externalIds as [|e rest IH]; intros collected.
  - simpl. now rewrite app_nil_r.
  - unfold contributing. cbn [fetchFromSources omap list_omap].
    unfold returned at 1.
    destruct (providers !! ext_source e) as [provider|]; [|apply IH].
    unfold mbind, M_bind, try_catch, mret, M_ret.
    destruct (fetchAnimeById provider (ext_id e)) as [err|[a|]]; rewrite IH.
    + reflexivity.
    + now rewrite <- app_assoc.
    + reflexivity.
Qed.

(** C4.  [fetchAndUnify] throws ("No anime data could be fetched from any
    source") exactly when no source returns data.  As soon as one source
    returns a record, the failed fetches are left out of the contributing
    set, the records of the sources that succeeded are unified, and the
    unified record is saved in the repository and returned. *)
Theorem C4_fetchAndUnify (providers : gmap DataSource IAnimeProvider)
    (externalIds : list ExternalId) (options : UnificationOptions)
    (w : World) :
  (contributing providers externalIds = [] ->
   fetchAndUnify providers externalIds options w
   = (w, inl (Error "No anime data could be fetched from any source"))) /\
  (contributing providers externalIds <> [] ->
   exists unified w1 saved,
     unifyAnimeData (contributing providers externalIds) options w
     = (w1, inr unified) /\
     saved = InMemoryAnimeRepository.set_updatedAt unified
               (clock w (ticks w1)) /\
     fetchAndUnify providers externalIds options w
     = ({| clock := clock w; ticks := S (ticks w1);
           animes := <[id saved := saved]> (animes w) |}, inr saved)) /\
  ((exists e w', fetchAndUnify providers externalIds options w = (w', inl e))
   <-> contributing providers externalIds = []).
Proof.
  assert (Hempty : contributing providers externalIds = [] ->
            fetchAndUnify providers externalIds options w
            = (w, inl (Error "No anime data could be fetched from any source"))).
  { intros Hnone. unfold fetchAndUnify, mbind, M_bind.
    rewrite fetchFromSources_collects, Hnone. reflexivity. }
  assert (Hsome : contributing providers externalIds <> [] ->
            exists unified w1 saved,
              unifyAnimeData (contributing providers externalIds) options w
              = (w1, inr unified) /\
              saved = InMemoryAnimeRepository.set_updatedAt unified
                        (clock w (ticks w1)) /\
              fetchAndUnify providers externalIds options w
              = ({| clock := clock w; ticks := S (ticks w1);
                    animes := <[id saved := saved]> (animes w) |}, inr saved)).
  { intros Hsome. unfold fetchAndUnify, mbind, M_bind.
    rewrite fetchFromSources_collects. cbn [app].
    destruct (contributing providers externalIds) as [|base rest];
      [congruence|].
    eexists _, _, _. split; [apply unifyAnimeData_returns|].
    split; [reflexivity|]. reflexivity. }
  split; [exact Hempty|]. split; [exact Hsome|]. split.
  - intros (e & w' & Hthrow).
    destruct (contributing providers externalIds) as [|base rest] eqn:Hc;
      [reflexivity|].
    destruct Hsome as (unified & w1 & saved & _ & _ & Hrun); [congruence|].
    rewrite Hrun in Hthrow. discriminate.
  - intros Hnone. eexists _, _. now apply Hempty.
Qed.

Lemma C4_fetchAndUnify_witness :
  exists saved w',
    fetchAndUnify Examples.providers Examples.external_ids
                  Examples.default_options Examples.world0
    = (w', inr saved) /\
    ticks w' = 3%nat /\ animes w' !! "21" = Some saved /\
    updatedAt saved = 1002 /\
    externalIds saved = [{| ext_source := ANILIST; ext_id := "21" |}].
Proof.
  destruct (C4_fetchAndUnify Examples.providers Examples.external_ids
              Examples.default_options Examples.world0)
    as (_ & Hsome & _).
  destruct Hsome as (unified & w1 & saved & Hunify & Hsaved & Hrun);
    [discriminate|].
  eexists saved, _. split; [exact Hrun|].
  change (contributing Examples.providers Examples.external_ids)
    with [Examples.from_anilist] in Hunify.
  rewrite unifyAnimeData_returns in Hunify. injection Hunify as <- <-.
  subst saved. cbn [ticks animes].
  split; [reflexivity|]. split; [apply lookup_insert_eq|].
  split; reflexivity.
Defined.

End FetchFacts.

(** ** C5: the season organizer *)

Section SeasonFacts.
Import Models SeasonOrganizer.

Lemma chunks_cons {A} (x : A) (l : list A) :
  chunks (x :: l) = take 13 (x :: l) :: chunks (drop 13 (x :: l)).
Proof. now rewrite chunks_equation_2. Qed.

(** Induction on a list along [drop 13]. *)
Lemma chunks_ind {A} (P : list A -> Prop) :
  P [] ->
  (forall x l, P (drop 13 (x :: l)) -> P (x :: l)) ->
  forall l, P l.
Proof.
  intros Hnil Hcons l.
  remember (length l) as n eqn:Hn. revert l Hn.
  induction n as [n IH] using lt_wf_ind. intros [|x l] Hn; [exact Hnil|].
  apply Hcons. apply (IH (length (drop 13 (x :: l)))); [|reflexivity].
  subst n. rewrite length_drop. simpl. lia.
Qed.

Lemma chunks_concat {A} (l : list A) : concat (chunks l) = l.
Proof.
  induction l as [|x l IH] using chunks_ind; [reflexivity|].
  rewrite chunks_cons. cbn [concat]. rewrite IH. apply take_drop.
Qed.

Lemma chunks_length {A} (l : list A) :
  length (chunks l) = ((length l + 12) / 13)%nat.
Proof.
  induction l as [|x l IH] using chunks_ind; [reflexivity|].
  rewrite chunks_cons. cbn [length]. rewrite IH, length_drop. cbn [length].
  destruct (le_lt_dec 13 (S (length l))) as [Hge|Hlt].
  - replace (S (length l) + 12)%nat with (1 * 13 + (S (length l) - 13 + 12))%nat
      by lia.
    rewrite Nat.div_add_l by lia. lia.
  - replace (S (length l) - 13)%nat with 0%nat by lia.
    rewrite (Nat.div_small (0 + 12) 13) by lia.
    apply Nat.div_unique with (r := length l); lia.
Qed.

Lemma chunks_lookup {A} (l : list A) (k : nat) :
  (k * 13 < length l)%nat ->
  chunks l !! k = Some (take 13 (drop (k * 13) l)).
Proof.
  revert k. induction l as [|x l IH] using chunks_ind; intros k Hk.
  - simpl in Hk. lia.
  - rewrite chunks_cons. destruct k as [|k]; [reflexivity|].
    cbn [lookup list_lookup]. rewrite IH.
    + rewrite drop_drop. reflexivity.
    + rewrite length_drop. lia.
Qed.

Lemma organizeIntoSeasons_length (uuid : nat -> string) (now : Date)
    (animeId : string) (episodes : list Episode) :
  length (organizeIntoSeasons uuid now animeId episodes)
  = length (chunks episodes).
Proof. unfold organizeIntoSeasons. apply length_imap. Qed.

Lemma organizeIntoSeasons_lookup (uuid : nat -> string) (now : Date)
    (animeId : string) (episodes : list Episode) (k : nat) :
  (k * 13 < length episodes)%nat ->
  exists s,
    organizeIntoSeasons uuid now animeId episodes !! k = Some s /\
    seasonNumber s = Z.of_nat (S k) /\
    season_animeId s = animeId /\
    season_episodes s = Some (take 13 (drop (k * 13) episodes)) /\
    episodeCount s
    = Some (Z.of_nat (length (take 13 (drop (k * 13) episodes)))).
Proof.
  intros Hk. unfold organizeIntoSeasons. rewrite list_lookup_imap.
  rewrite chunks_lookup by assumption. cbn. eexists. split; [reflexivity|].
  auto.
Qed.

Lemma organizeIntoSeasons_episodes (uuid : nat -> string) (now : Date)
    (animeId : string) (episodes : list Episode) :
  concat ((fun s => default [] (season_episodes s)) <$>
          organizeIntoSeasons uuid now animeId episodes)
  = episodes.
Proof.
  unfold organizeIntoSeasons. rewrite fmap_imap.
  rewrite (imap_ext _ (const (fun c => c))) by reflexivity.
  rewrite imap_const, list_fmap_id. apply chunks_concat.
Qed.

Lemma season_index_bound (E k : nat) :
  (k < (E + 12) / 13)%nat <-> (k * 13 < E)%nat.
Proof.
  pose proof (Nat.div_mod_eq (E + 12) 13) as Hdiv.
  pose proof (Nat.mod_upper_bound (E + 12) 13) as Hmod.
  split; intros H; nia.
Qed.

(** C5.  For [E >= 1] episodes the organizer creates [ceil(E/13)] seasons;
    season [k], counted from 1, receives the episodes [(k-1)*13+1] to
    [k*13] of the list, cut at its end; the seasons' episodes, put one
    after the other, are the list again, and an episode of a list without
    repetition is in exactly one season; at most 13 episodes give one
    season. *)
Theorem C5_season_partition (uuid : nat -> string) (now : Date)
    (animeId : string) (episodes : list Episode) :
  (1 <= length episodes)%nat ->
  let seasons := organizeIntoSeasons uuid now animeId episodes in
  let E := length episodes in
  length seasons = ((E + 12) / 13)%nat /\
  (13 * (length seasons - 1) < E <= 13 * length seasons)%nat /\
  (forall k, (1 <= k <= length seasons)%nat ->
     exists s,
       seasons !! (k - 1)%nat = Some s /\
       seasonNumber s = Z.of_nat k /\
       season_episodes s = Some (take 13 (drop ((k - 1) * 13) episodes)) /\
       episodeCount s = Some (Z.of_nat (min 13 (E - (k - 1) * 13)))) /\
  concat ((fun s => default [] (season_episodes s)) <$> seasons) = episodes /\
  (NoDup episodes ->
   forall e, e ∈ episodes ->
     exists k,
       (exists s chunk, seasons !! k = Some s /\
                        season_episodes s = Some chunk /\ e ∈ chunk) /\
       forall k',
         (exists s chunk, seasons !! k' = Some s /\
                          season_episodes s = Some chunk /\ e ∈ chunk) ->
         k' = k) /\
  ((E <= 13)%nat -> length seasons = 1%nat).
Proof.
  intros HE seasons E.
  assert (Hlen : length seasons = ((E + 12) / 13)%nat).
  { subst seasons. now rewrite organizeIntoSeasons_length, chunks_length. }
  assert (Hceil : (13 * (length seasons - 1) < E <= 13 * length seasons)%nat).
  { rewrite Hlen.
    pose proof (Nat.div_mod_eq (E + 12) 13) as Hdiv.
    pose proof (Nat.mod_upper_bound (E + 12) 13) as Hmod.
    subst E. lia. }
  assert (Hmem : forall k s chunk,
            seasons !! k = Some s -> season_episodes s = Some chunk ->
            forall e, e ∈ chunk ->
              exists j, (j < 13)%nat /\ episodes !! (k * 13 + j)%nat = Some e).
  { intros k s chunk Hs Hchunk e He.
    assert (Hk : (k * 13 < E)%nat).
    { apply season_index_bound. rewrite <- Hlen.
      now apply lookup_lt_Some in Hs. }
    destruct (organizeIntoSeasons_lookup uuid now animeId episodes k Hk)
      as (s' & Hs' & _ & _ & Heps & _).
    fold seasons in Hs'. rewrite Hs in Hs'. injection Hs' as <-.
    rewrite Hchunk in Heps. injection Heps as ->.
    apply elem_of_take in He as (j & Hj & Hlt).
    rewrite lookup_drop in Hj. eauto. }
  split; [exact Hlen|]. split; [exact Hceil|]. split; [|split; [|split]].
  - intros k [Hk1 Hk2].
    assert (Hk : ((k - 1) * 13 < E)%nat).
    { apply season_index_bound. rewrite <- Hlen. lia. }
    destruct (organizeIntoSeasons_lookup uuid now animeId episodes _ Hk)
      as (s & Hs & Hnum & _ & Heps & Hcount).
    exists s. split; [exact Hs|]. split; [|split; [exact Heps|]].
    + rewrite Hnum. f_equal. lia.
    + rewrite Hcount, length_take, length_drop. reflexivity.
  - apply organizeIntoSeasons_episodes.
  - intros Hnodup e He.
    apply list_elem_of_lookup in He as [i Hi].
    assert (HiE : (i < E)%nat) by now apply lookup_lt_Some in Hi.
    pose proof (Nat.div_mod_eq i 13) as Hdiv.
    pose proof (Nat.mod_upper_bound i 13) as Hmod.
    assert (Hk : (i / 13 * 13 < E)%nat) by lia.
    destruct (organizeIntoSeasons_lookup uuid now animeId episodes _ Hk)
      as (s & Hs & _ & _ & Heps & _).
    exists (i / 13)%nat. split.
    + exists s, (take 13 (drop (i / 13 * 13) episodes)).
      split; [exact Hs|]. split; [exact Heps|].
      apply elem_of_take. exists (i mod 13)%nat. split; [|lia].
      rewrite lookup_drop. rewrite <- Hi. f_equal. lia.
    + intros k' (s' & chunk & Hs' & Hchunk & He').
      destruct (Hmem _ _ _ Hs' Hchunk _ He') as (j & Hj & Hlook).
      pose proof (NoDup_lookup _ _ _ _ Hnodup Hi Hlook). lia.
  - intros Hsmall. rewrite Hlen.
    apply eq_sym, Nat.div_unique with (r := (E - 1)%nat); subst E; lia.
Qed.

(** The 50 episodes of the test suite: four seasons, of 13, 13, 13 and 11
    episodes. *)
Lemma C5_season_partition_witness :
  length (organizeIntoSeasons Examples.uuid 0 "test-anime-1"
            Examples.fifty_episodes) = 4%nat /\
  (episodeCount <$> organizeIntoSeasons Examples.uuid 0 "test-anime-1"
                      Examples.fifty_episodes)
  = [Some 13; Some 13; Some 13; Some 11] /\
  concat ((fun s => default [] (season_episodes s)) <$>
          organizeIntoSeasons Examples.uuid 0 "test-anime-1"
            Examples.fifty_episodes)
  = Examples.fifty_episodes.
Proof.
  destruct (C5_season_partition Examples.uuid 0 "test-anime-1"
              Examples.fifty_episodes)
    as (Hlen & _ & _ & Hall & _); [cbn; lia|].
  split; [exact Hlen|]. split; [reflexivity|exact Hall].
Defined.

End SeasonFacts.

(** ** [Map<string, V>] *)

Section JsMapFacts.
Context {V : Type}.
Implicit Types (m : list (string * V)) (k : string) (v : V).

Lemma get_Some_elem m k v : JsMap.get k m = Some v -> (k, v) ∈ m.
Proof.
  induction m as [|[k' v'] m IH]; simpl; [discriminate|].
  destruct (String.eqb_spec k' k) as [->|Hne].
  - intros [= ->]. left.
  - intros H. right. auto.
Qed.

Lemma get_None_keys m k : JsMap.get k m = None <-> k ∉ m.*1.
Proof.
  induction m as [|[k' v'] m IH]; simpl.
  - split; [|reflexivity]. intros _ H. inversion H.
  - rewrite not_elem_of_cons. destruct (String.eqb_spec k' k) as [->|Hne].
    + split; [discriminate|]. intros [H _]. congruence.
    + rewrite IH.
      split; [intros H; split; [congruence|exact H]|now intros [_ H]].
Qed.

Lemma get_set_eq m k v : JsMap.get k (JsMap.set k v m) = Some v.
Proof.
  induction m as [|[k' v'] m IH]; simpl.
  - now rewrite String.eqb_refl.
  - destruct (String.eqb_spec k' k) as [->|Hne]; simpl.
    + now rewrite String.eqb_refl.
    + destruct (String.eqb_spec k' k); [congruence|assumption].
Qed.

Lemma get_set_ne m k k' v :
  k <> k' -> JsMap.get k' (JsMap.set k v m) = JsMap.get k' m.
Proof.
  intros Hne. induction m as [|[k0 v0] m IH]; simpl.
  - destruct (String.eqb_spec k k'); [congruence|reflexivity].
  - destruct (String.eqb_spec k0 k) as [->|Hk0]; simpl.
    + destruct (String.eqb_spec k k'); [congruence|reflexivity].
    + destruct (String.eqb_spec k0 k'); [reflexivity|assumption].
Qed.

Lemma set_keys_present m k v :
  k ∈ m.*1 -> (JsMap.set k v m).*1 = m.*1.
Proof.
  induction m as [|[k' v'] m IH]; simpl; intros Hin.
  - inversion Hin.
  - destruct (String.eqb_spec k' k) as [->|Hne]; simpl; [reflexivity|].
    f_equal. apply IH.
    apply elem_of_cons in Hin as [?|?]; [congruence|assumption].
Qed.

Lemma set_keys_absent m k v :
  k ∉ m.*1 -> (JsMap.set k v m).*1 = (m.*1 ++ [k])%list.
Proof.
  induction m as [|[k' v'] m IH]; simpl; intros Hout; [reflexivity|].
  apply not_elem_of_cons in Hout as [Hne Hout].
  destruct (String.eqb_spec k' k) as [->|_]; [congruence|]. simpl.
  f_equal. now apply IH.
Qed.

Lemma set_elem m k v k' v' :
  (k', v') ∈ JsMap.set k v m -> (k', v') = (k, v) \/ (k', v') ∈ m.
Proof.
  induction m as [|[k0 v0] m IH]; simpl.
  - intros H. apply list_elem_of_singleton in H. now left.
  - destruct (String.eqb_spec k0 k) as [->|Hne]; intros H;
      apply elem_of_cons in H as [H|H].
    + now left.
    + right. now right.
    + right. rewrite H. left.
    + destruct (IH H) as [?|?]; [now left|]. right. now right.
Qed.

Lemma set_keys_NoDup m k v : NoDup m.*1 -> NoDup (JsMap.set k v m).*1.
Proof.
  intros Hn. destruct (decide (k ∈ m.*1)) as [Hin|Hout].
  - now rewrite set_keys_present.
  - rewrite set_keys_absent by assumption. apply NoDup_app.
    split; [assumption|]. split; [|apply NoDup_singleton].
    intros x Hx Hk. apply list_elem_of_singleton in Hk as ->. contradiction.
Qed.

End JsMapFacts.

(** ** [normalize] *)

Section NormalizeFacts.
Import JsString Design NyaaService.

Lemma alnum_not_blank (c : ascii) :
  is_lower_alnum c = true -> Ascii.eqb c " " = false.
Proof. by_cases c. Qed.

Lemma alnum_not_space (c : ascii) :
  is_lower_alnum c = true -> is_space c = false.
Proof. by_cases c. Qed.

Lemma blank_not_alnum (c : ascii) :
  Ascii.eqb c " " = true -> is_lower_alnum c = false /\ is_space c = true.
Proof. by_cases c. Qed.

Lemma spaced_weaken (s : string) :
  spaced true s = true -> spaced false s = true.
Proof.
  destruct s as [|c s]; [reflexivity|]. simpl.
  destruct (Ascii.eqb c " "); [discriminate|auto].
Qed.

Lemma replace_runs_spaced (s : string) (b : bool) :
  spaced b (replace_runs_from (fun c => negb (is_lower_alnum c)) b s) = true.
Proof.
  revert b. induction s as [|c s IH]; intros b; [reflexivity|]. simpl.
  destruct (is_lower_alnum c) eqn:Hc; simpl.
  - now rewrite (alnum_not_blank c Hc), Hc, IH.
  - destruct b; simpl; now rewrite IH.
Qed.

Lemma dropWhile_spaced_id (s : string) :
  spaced true s = true -> dropWhile is_space s = s.
Proof.
  destruct s as [|c s]; [reflexivity|]. simpl.
  destruct (Ascii.eqb c " "); [discriminate|].
  intros H. apply andb_true_iff in H as [Hc _].
  now rewrite (alnum_not_space c Hc).
Qed.

Lemma dropWhile_spaced (s : string) :
  spaced false s = true -> spaced true (dropWhile is_space s) = true.
Proof.
  destruct s as [|c s]; [reflexivity|]. simpl.
  destruct (Ascii.eqb c " ") eqn:Hb; simpl.
  - destruct (blank_not_alnum c Hb) as [_ ->]. intros H.
    now rewrite dropWhile_spaced_id.
  - intros H. pose proof H as H'. apply andb_true_iff in H' as [Hc _].
    rewrite (alnum_not_space c Hc). simpl. now rewrite Hb.
Qed.

Lemma trimEnd_spaced (s : string) (b : bool) :
  spaced b s = true ->
  spaced b (trimEnd s) = true /\ endsWith_char " " (trimEnd s) = false.
Proof.
  revert b. induction s as [|c s IH]; intros b; [auto|]. simpl.
  destruct (Ascii.eqb c " ") eqn:Hb.
  - intros H. apply andb_true_iff in H as [Hnb Hs].
    destruct (IH true Hs) as [IH1 IH2].
    destruct (blank_not_alnum c Hb) as [_ Hsp].
    destruct (trimEnd s) as [|c' t] eqn:Ht.
    + rewrite Hsp. auto.
    + split; [simpl; now rewrite Hb, Hnb|exact IH2].
  - intros H. apply andb_true_iff in H as [Hc Hs].
    destruct (IH false Hs) as [IH1 IH2].
    destruct (trimEnd s) as [|c' t] eqn:Ht.
    + rewrite (alnum_not_space c Hc). simpl. rewrite Hb, Hc. auto.
    + split; [simpl; now rewrite Hb, Hc|exact IH2].
Qed.

Lemma replace_spaces_spaced (s : string) (b : bool) :
  spaced b s = true -> replace_runs_from is_space b s = s.
Proof.
  revert b. induction s as [|c s IH]; intros b; [reflexivity|]. simpl.
  destruct (Ascii.eqb c " ") eqn:Hb.
  - intros H. apply andb_true_iff in H as [Hnb Hs].
    destruct (blank_not_alnum c Hb) as [_ ->].
    destruct b; [discriminate|]. rewrite (IH true Hs).
    apply Ascii.eqb_eq in Hb as ->. reflexivity.
  - intros H. apply andb_true_iff in H as [Hc Hs].
    now rewrite (alnum_not_space c Hc), (IH false Hs).
Qed.

(** [normalize] ends with its [trim]: the second replacement finds nothing
    left to do. *)
Lemma normalize_trim (s : string) :
  normalize s =
  trim (replace_runs (fun c => negb (is_lower_alnum c)) (toLowerCase s)) /\
  spaced true (normalize s) = true /\
  endsWith_char " " (normalize s) = false.
Proof.
  unfold normalize, trim, replace_runs.
  pose proof (replace_runs_spaced (toLowerCase s) false) as H1.
  apply dropWhile_spaced in H1.
  destruct (trimEnd_spaced _ _ H1) as [H2 H3].
  rewrite (replace_spaces_spaced _ false) by now apply spaced_weaken.
  auto.
Qed.

Lemma spaced_chars (s : string) (b : bool) :
  spaced b s = true ->
  forallb (fun c => is_lower_alnum c || Ascii.eqb c " ") s = true.
Proof.
  revert b. induction s as [|c s IH]; intros b; [reflexivity|]. simpl.
  destruct (Ascii.eqb c " ") eqn:Hb; intros H;
    apply andb_true_iff in H as [Hc Hs]; rewrite (IH _ Hs).
  - now rewrite orb_true_r.
  - now rewrite Hc.
Qed.

Lemma spaced_no_double (s : string) (b : bool) :
  spaced b s = true -> includes s "  " = false.
Proof.
  revert b. induction s as [|c s IH]; intros b; [reflexivity|].
  cbn [spaced includes startsWith].
  destruct (Ascii.eqb c " ") eqn:Hb; intros H;
    apply andb_true_iff in H as [Hc Hs]; rewrite (IH _ Hs), orb_false_r.
  - destruct (Ascii.eqb " " c); [|reflexivity].
    destruct s as [|c' s]; [reflexivity|]. simpl in Hs.
    destruct (Ascii.eqb_spec " " c') as [<-|_]; [discriminate|reflexivity].
  - destruct (Ascii.eqb_spec " " c) as [<-|_]; [discriminate|reflexivity].
Qed.

Lemma normalize_collapsed_and_trimmed (s : string) :
  collapsed_and_trimmed (normalize s).
Proof.
  destruct (normalize_trim s) as (_ & Hsp & Hend).
  split; [now apply (spaced_chars _ true)|].
  split; [|split; [exact Hend|now apply (spaced_no_double _ true)]].
  destruct (normalize s) as [|c r]; [reflexivity|].
  cbn [startsWith spaced] in *.
  destruct (Ascii.eqb_spec " " c) as [<-|_]; [discriminate|reflexivity].
Qed.

Lemma filter_replace_runs (s : string) (b : bool) :
  filter is_lower_alnum
    (replace_runs_from (fun c => negb (is_lower_alnum c)) b s)
  = filter is_lower_alnum s.
Proof.
  revert b. induction s as [|c s IH]; intros b; [reflexivity|]. simpl.
  destruct (is_lower_alnum c) eqn:Hc; simpl.
  - now rewrite Hc, IH.
  - destruct b; simpl; now rewrite IH.
Qed.

Lemma filter_dropWhile (s : string) :
  filter is_lower_alnum (dropWhile is_space s) = filter is_lower_alnum s.
Proof.
  induction s as [|c s IH]; [reflexivity|]. simpl.
  destruct (is_space c) eqn:Hc; [|reflexivity].
  destruct (is_lower_alnum c) eqn:Ha; [|exact IH].
  rewrite (alnum_not_space c Ha) in Hc. discriminate.
Qed.

Lemma filter_trimEnd (s : string) :
  filter is_lower_alnum (trimEnd s) = filter is_lower_alnum s.
Proof.
  induction s as [|c s IH]; [reflexivity|]. simpl.
  destruct (trimEnd s) as [|c' t] eqn:Ht.
  - rewrite <- IH. destruct (is_space c) eqn:Hc; [|reflexivity].
    destruct (is_lower_alnum c) eqn:Ha; [|reflexivity].
    rewrite (alnum_not_space c Ha) in Hc. discriminate.
  - simpl in *. now rewrite IH.
Qed.

(** The letters and digits of the normalized title are those of the
    lower-cased title, in their order. *)
Lemma normalize_letters (s : string) :
  filter is_lower_alnum (normalize s) = filter is_lower_alnum (toLowerCase s).
Proof.
  destruct (normalize_trim s) as (-> & _). unfold trim, replace_runs.
  now rewrite filter_trimEnd, filter_dropWhile, filter_replace_runs.
Qed.

End NormalizeFacts.

(** ** C6: [deduplicateTorrents] *)

Section DedupFacts.
Import Models Design NyaaService.

Lemma dedup_step_inv (done : list Torrent) (m : list (string * Torrent))
    (t : Torrent) :
  dedup_inv done m -> dedup_inv (done ++ [t]) (dedup_step m t).
Proof.
  intros (Hkeys & Hfiled & Hmax).
  assert (Hreplace :
            (forall v, JsMap.get (dedup_key t) m = Some v ->
                       seeders v <= seeders t) ->
            dedup_inv (done ++ [t]) (JsMap.set (dedup_key t) t m)).
  { intros Hbetter. split; [now apply set_keys_NoDup|]. split.
    - intros k v Hin. apply set_elem in Hin as [[= -> ->]|Hin].
      + split; [reflexivity|]. apply elem_of_app. right. left.
      + destruct (Hfiled _ _ Hin) as [Hk Hv]. split; [assumption|].
        apply elem_of_app. now left.
    - intros t' Ht'. apply elem_of_app in Ht' as [Ht'|Ht'].
      + destruct (Hmax _ Ht') as (v & Hget & Hle).
        destruct (decide (dedup_key t = dedup_key t')) as [Heq|Hne].
        * exists t. rewrite <- Heq, get_set_eq. split; [reflexivity|].
          rewrite <- Heq in Hget. specialize (Hbetter _ Hget). lia.
        * exists v. now rewrite get_set_ne.
      + apply list_elem_of_singleton in Ht' as ->.
        exists t. rewrite get_set_eq. split; [reflexivity|lia]. }
  unfold dedup_step.
  destruct (JsMap.get (dedup_key t) m) as [existing|] eqn:Hget.
  - destruct (Z.gtb_spec (seeders t) (seeders existing)) as [Hgt|Hle].
    + apply Hreplace. intros v [= <-]. lia.
    + split; [assumption|]. split.
      * intros k v Hin. destruct (Hfiled _ _ Hin) as [Hk Hv].
        split; [assumption|]. apply elem_of_app. now left.
      * intros t' Ht'. apply elem_of_app in Ht' as [Ht'|Ht']; [auto|].
        apply list_elem_of_singleton in Ht' as ->. eauto.
  - apply Hreplace. intros v [=].
Qed.

Lemma dedup_loop_inv (torrents done : list Torrent)
    (m : list (string * Torrent)) :
  dedup_inv done m ->
  dedup_inv (done ++ torrents) (foldl dedup_step m torrents).
Proof.
  revert done m. induction torrents as [|t torrents IH]; intros done m Hinv.
  - now rewrite app_nil_r.
  - simpl.
    replace (done ++ t :: torrents)%list with ((done ++ [t]) ++ torrents)%list
      by now rewrite <- app_assoc.
    apply IH. now apply dedup_step_inv.
Qed.

Lemma dedup_map_inv (torrents : list Torrent) :
  dedup_inv torrents (foldl dedup_step [] torrents).
Proof.
  apply (dedup_loop_inv torrents [] []). split; [constructor|]. split.
  - intros k v H. inversion H.
  - intros t H. inversion H.
Qed.

Lemma by_seeders_desc_total (a b : Torrent) :
  by_seeders_desc a b <= 0 \/ by_seeders_desc b a <= 0.
Proof. unfold by_seeders_desc. lia. Qed.

#[local] Instance by_seeders_desc_transitive :
  Transitive (JsArray.cmp_le by_seeders_desc).
Proof. intros a b c. unfold JsArray.cmp_le, by_seeders_desc. lia. Qed.

Lemma deduplicateTorrents_sorted (torrents : list Torrent) :
  StronglySorted (fun a b => seeders b <= seeders a)
                 (deduplicateTorrents torrents).
Proof.
  unfold deduplicateTorrents.
  pose proof (sort_Sorted by_seeders_desc by_seeders_desc_total
                (JsMap.values (foldl dedup_step [] torrents))) as Hs.
  apply Sorted_StronglySorted in Hs; [|apply _].
  induction Hs as [|x l Hs IH Hall]; constructor; [assumption|].
  eapply Forall_impl; [exact Hall|].
  intros y. unfold JsArray.cmp_le, by_seeders_desc. lia.
Qed.

Lemma dedup_key_values (m : list (string * Torrent)) :
  (forall k v, (k, v) ∈ m -> dedup_key v = k) ->
  dedup_key <$> JsMap.values m = m.*1.
Proof.
  unfold JsMap.values. induction m as [|[k v] m IH]; intros H; [reflexivity|].
  cbn. f_equal.
  - apply H. left.
  - apply IH. intros k' v' Hin. apply H. now right.
Qed.

Lemma dedup_key_infoHash (t : Torrent) :
  infoHash t <> "" -> dedup_key t = infoHash t.
Proof.
  intros H. unfold dedup_key. apply truthy_spec in H. now rewrite H.
Qed.

(** Of two candidates with one key, whatever their order, the one with
    more seeders is left. *)
Lemma deduplicate_pair (a b : Torrent) :
  dedup_key a = dedup_key b -> seeders a < seeders b ->
  deduplicateTorrents [a; b] = [b] /\ deduplicateTorrents [b; a] = [b].
Proof.
  intros Hkey Hlt. unfold deduplicateTorrents. cbn [foldl].
  unfold dedup_step. cbn [JsMap.get JsMap.set].
  rewrite Hkey. rewrite !String.eqb_refl.
  destruct (Z.gtb_spec (seeders b) (seeders a)); [|lia].
  destruct (Z.gtb_spec (seeders a) (seeders b)); [lia|].
  split; reflexivity.
Qed.

(** C6.  Candidates are filed under their [infoHash] when it is not empty
    and else under their normalized title (lower-cased, runs of other
    characters than small letters and digits collapsed to one space,
    trimmed); of the candidates filed under one key one with the most
    seeders is retained, so that of two candidates with one [infoHash] and
    10 and 50 seeders the survivor has 50; the result is in descending
    order of seeders. *)
Theorem C6_deduplicate (torrents : list Torrent) :
  (forall t,
     dedup_key t = if decide (infoHash t = "")
                   then normalize (torrent_title t) else infoHash t) /\
  (forall title,
     collapsed_and_trimmed (normalize title) /\
     JsString.filter JsString.is_lower_alnum (normalize title)
     = JsString.filter JsString.is_lower_alnum (JsString.toLowerCase title)) /\
  (forall r, r ∈ deduplicateTorrents torrents -> r ∈ torrents) /\
  NoDup (dedup_key <$> deduplicateTorrents torrents) /\
  (forall t, t ∈ torrents ->
     exists r, r ∈ deduplicateTorrents torrents /\
               dedup_key r = dedup_key t /\ seeders t <= seeders r) /\
  StronglySorted (fun a b => seeders b <= seeders a)
                 (deduplicateTorrents torrents) /\
  (forall a b,
     infoHash a = infoHash b -> infoHash a <> "" ->
     seeders a = 10 -> seeders b = 50 ->
     deduplicateTorrents [a; b] = [b] /\ deduplicateTorrents [b; a] = [b]).
Proof.
  destruct (dedup_map_inv torrents) as (Hkeys & Hfiled & Hmax).
  assert (Hperm : deduplicateTorrents torrents
                  ≡ₚ JsMap.values (foldl dedup_step [] torrents))
    by apply sort_Permutation.
  split; [|split; [|split; [|split; [|split; [|split]]]]].
  - intros t. unfold dedup_key, JsString.truthy.
    destruct (String.eqb_spec (infoHash t) ""), (decide (infoHash t = ""));
      simpl; congruence.
  - intros title. split; [apply normalize_collapsed_and_trimmed|].
    apply normalize_letters.
  - intros r Hr. rewrite Hperm in Hr. unfold JsMap.values in Hr.
    apply list_elem_of_fmap in Hr as ([k v] & -> & Hin).
    now apply Hfiled in Hin as [_ ?].
  - rewrite Hperm, dedup_key_values; [assumption|].
    intros k v Hin. now apply Hfiled in Hin as [? _].
  - intros t Ht. destruct (Hmax t Ht) as (v & Hget & Hle).
    apply get_Some_elem in Hget. exists v. split; [|split].
    + rewrite Hperm. unfold JsMap.values.
      apply list_elem_of_fmap. now exists (dedup_key t, v).
    + now apply Hfiled in Hget as [? _].
    + assumption.
  - apply deduplicateTorrents_sorted.
  - intros a b Hhash Hne Ha Hb. apply deduplicate_pair; [|lia].
    rewrite !dedup_key_infoHash; congruence.
Qed.

Lemma C6_deduplicate_witness :
  deduplicateTorrents
    [ Examples.torrent "[Grp] Show - 01 [1080p]" "0123456789abcdef" 10;
      Examples.torrent "Other - 02" "" 7;
      Examples.torrent "[Grp] Show - 01 (1080p)" "0123456789abcdef" 50;
      Examples.torrent "OTHER   02!" "" 3 ]
  = [ Examples.torrent "[Grp] Show - 01 (1080p)" "0123456789abcdef" 50;
      Examples.torrent "Other - 02" "" 7 ] /\
  deduplicateTorrents
    [ Examples.torrent "a" "0123456789abcdef" 10;
      Examples.torrent "b" "0123456789abcdef" 50 ]
  = [ Examples.torrent "b" "0123456789abcdef" 50 ].
Proof.
  split; [reflexivity|].
  destruct (C6_deduplicate []) as (_ & _ & _ & _ & _ & _ & Hpair).
  apply (Hpair (Examples.torrent "a" "0123456789abcdef" 10)
               (Examples.torrent "b" "0123456789abcdef" 50));
    [reflexivity|discriminate|reflexivity|reflexivity].
Defined.

End DedupFacts.

(** ** C7: the languages of a release *)

Section LanguageFacts.
Import Models JsString Design NyaaService.

Lemma startsWith_spec (p s : string) :
  startsWith p s = true <-> exists post, s = (p ++ post)%string.
Proof.
  revert s. induction p as [|a p IH]; intros s; simpl.
  - split; [eauto|reflexivity].
  - destruct s as [|b s].
    + split; [discriminate|]. intros [post H]. discriminate.
    + destruct (Ascii.eqb_spec a b) as [->|Hne].
      * rewrite IH. split; intros [post H]; exists post;
          [now rewrite H|now injection H].
      * split; [discriminate|]. intros [post H]. injection H as H _.
        congruence.
Qed.

(** [s.includes(p)]: [p] occurs somewhere in [s]. *)
Lemma includes_spec (s p : string) :
  includes s p = true <-> exists pre post, s = (pre ++ p ++ post)%string.
Proof.
  induction s as [|c s IH]; cbn [includes];
    rewrite orb_true_iff, startsWith_spec.
  - split.
    + intros [[post H]|H]; [|discriminate]. now exists "", post.
    + intros ([|c pre] & post & H); [left; eauto|discriminate].
  - rewrite IH. split.
    + intros [[post H]|(pre & post & H)].
      * now exists "", post.
      * exists (String c pre), post. now rewrite H.
    + intros ([|c' pre] & post & H).
      * left. eauto.
      * right. exists pre, post. now injection H.
Qed.

Lemma union_of_matches_elem (table : list (TorrentLanguage * list string))
    (t : string) (lang : TorrentLanguage) :
  lang ∈ union_of_matches table t <->
  exists keywords keyword,
    (lang, keywords) ∈ table /\ keyword ∈ keywords /\
    includes t keyword = true.
Proof.
  unfold union_of_matches. rewrite list_elem_of_omap. split.
  - intros ([l kws] & Hin & Hsome).
    destruct (existsb _ kws) eqn:Hex; [|discriminate].
    injection Hsome as ->. apply existsb_exists in Hex as (kw & Hkw & Hinc).
    exists kws, kw. rewrite <- list_elem_of_In in Hkw. auto.
  - intros (kws & kw & Hin & Hkw & Hinc). exists (lang, kws).
    split; [assumption|].
    assert (existsb (fun p => includes t p) kws = true) as ->; [|reflexivity].
    apply existsb_exists. exists kw. rewrite <- list_elem_of_In. auto.
Qed.

(** The loop over the entries of [langMap]. *)
Lemma langMap_loop (t : string) (table : list (string * TorrentLanguage))
    (languages : list TorrentLanguage) :
  foldl (fun languages '(pattern, lang) =>
           let patterns := split "|" pattern in
           if existsb (fun p => includes t p) patterns
           then (languages ++ [lang])%list
           else languages)
        languages table
  = (languages ++
     union_of_matches (map (fun '(pattern, lang) => (lang, split "|" pattern))
                           table) t)%list.
Proof.
  revert languages. induction table as [|[pattern lang] table IH];
    intros languages; cbn [foldl map].
  - unfold union_of_matches. simpl. now rewrite app_nil_r.
  - rewrite IH. unfold union_of_matches. cbn [omap list_omap].
    destruct (existsb _ (split "|" pattern)); [|reflexivity].
    now rewrite <- app_assoc.
Qed.

Lemma langMap_table :
  map (fun '(pattern, lang) => (lang, split "|" pattern)) langMap
  = subtitle_keywords.
Proof. reflexivity. Qed.

(** C7.  The audio and the subtitle languages extracted from a title are
    never empty.  A title that contains "dual audio" or "multi audio" has
    the audio languages Japanese and English; any other title has the
    languages whose markers it contains, Japanese when it contains none.
    A title that contains "multi" and "sub" (or "subtitle") has the
    subtitle language MULTI; any other title has the languages of the
    keyword table of which it contains a keyword, English when there is
    none. *)
Theorem C7_languages (title : string) :
  extractAudioLanguages title <> [] /\
  extractSubtitleLanguages title <> [] /\
  (includes (toLowerCase title) "dual audio" = true \/
   includes (toLowerCase title) "multi audio" = true ->
   extractAudioLanguages title = [JAPANESE; ENGLISH]) /\
  (includes (toLowerCase title) "dual audio" = false ->
   includes (toLowerCase title) "multi audio" = false ->
   (union_of_matches audio_markers (toLowerCase title) = [] ->
    extractAudioLanguages title = [JAPANESE]) /\
   (union_of_matches audio_markers (toLowerCase title) <> [] ->
    extractAudioLanguages title
    = union_of_matches audio_markers (toLowerCase title))) /\
  (includes (toLowerCase title) "multi" = true ->
   includes (toLowerCase title) "sub" = true \/
   includes (toLowerCase title) "subtitle" = true ->
   extractSubtitleLanguages title = [MULTI]) /\
  (includes (toLowerCase title) "multi" = false \/
   (includes (toLowerCase title) "sub" = false /\
    includes (toLowerCase title) "subtitle" = false) ->
   (union_of_matches subtitle_keywords (toLowerCase title) = [] ->
    extractSubtitleLanguages title = [ENGLISH]) /\
   (union_of_matches subtitle_keywords (toLowerCase title) <> [] ->
    extractSubtitleLanguages title
    = union_of_matches subtitle_keywords (toLowerCase title))) /\
  (forall table lang,
     lang ∈ union_of_matches table (toLowerCase title) <->
     exists keywords keyword,
       (lang, keywords) ∈ table /\ keyword ∈ keywords /\
       includes (toLowerCase title) keyword = true) /\
  (forall keyword,
     includes (toLowerCase title) keyword = true <->
     exists pre post, toLowerCase title = (pre ++ keyword ++ post)%string).
Proof.
  assert (Haudio :
    extractAudioLanguages title =
    if includes (toLowerCase title) "dual audio"
       || includes (toLowerCase title) "multi audio"
    then [JAPANESE; ENGLISH]
    else match union_of_matches audio_markers (toLowerCase title) with
         | [] => [JAPANESE]
         | l => l
         end).
  { unfold extractAudioLanguages, union_of_matches, audio_markers.
    cbn [omap list_omap existsb]. rewrite !orb_false_r.
    destruct (includes _ "dual audio" || includes _ "multi audio");
      [reflexivity|].
    destruct (includes _ "japanese"), (includes _ "jpn"), (includes _ "jap"),
      (includes _ "english"), (includes _ "eng"), (includes _ "dub");
      reflexivity. }
  assert (Hsubs :
    extractSubtitleLanguages title =
    if includes (toLowerCase title) "multi"
       && (includes (toLowerCase title) "sub"
           || includes (toLowerCase title) "subtitle")
    then [MULTI]
    else match union_of_matches subtitle_keywords (toLowerCase title) with
         | [] => [ENGLISH]
         | l => l
         end).
  { unfold extractSubtitleLanguages.
    rewrite langMap_loop, langMap_table. cbn [app].
    destruct (_ && _); [reflexivity|].
    destruct (union_of_matches subtitle_keywords _); reflexivity. }
  split; [|split; [|split; [|split; [|split; [|split; [|split]]]]]].
  - rewrite Haudio. destruct (_ || _); [discriminate|].
    destruct (union_of_matches audio_markers _); discriminate.
  - rewrite Hsubs. destruct (_ && _); [discriminate|].
    destruct (union_of_matches subtitle_keywords _); discriminate.
  - intros H. rewrite Haudio.
    apply orb_true_iff in H. now rewrite H.
  - intros Hd Hm. rewrite Haudio, Hd, Hm. cbn [orb]. split.
    + now intros ->.
    + destruct (union_of_matches audio_markers _); [congruence|reflexivity].
  - intros Hm Hs. rewrite Hsubs, Hm. apply orb_true_iff in Hs. now rewrite Hs.
  - intros H. rewrite Hsubs.
    assert (includes (toLowerCase title) "multi"
            && (includes (toLowerCase title) "sub"
                || includes (toLowerCase title) "subtitle") = false) as ->.
    { destruct H as [->|[-> ->]]; [reflexivity|]. apply andb_false_r. }
    split.
    + now intros ->.
    + destruct (union_of_matches subtitle_keywords _);
        [congruence|reflexivity].
  - intros table lang. apply union_of_matches_elem.
  - intros keyword. apply includes_spec.
Qed.

Lemma C7_languages_witness :
  extractAudioLanguages "[SubsPlease] One Piece - 1000 [1080p][Dual Audio][HEVC]"
  = [JAPANESE; ENGLISH] /\
  extractSubtitleLanguages "[Grp] Show - 01 [720p] [ENG][RUS][KOR]"
  = [ENGLISH; RUSSIAN; KOREAN] /\
  extractAudioLanguages "[Grp] Show - 01 [720p]" = [JAPANESE] /\
  extractSubtitleLanguages "[Grp] Show - 01 [720p]" = [ENGLISH].
Proof.
  destruct (C7_languages
              "[SubsPlease] One Piece - 1000 [1080p][Dual Audio][HEVC]")
    as (_ & _ & Hdual & _).
  destruct (C7_languages "[Grp] Show - 01 [720p] [ENG][RUS][KOR]")
    as (_ & _ & _ & _ & _ & Htable & _).
  destruct (C7_languages "[Grp] Show - 01 [720p]")
    as (_ & _ & _ & Hnone & _ & Hsubs & _).
  split; [apply Hdual; left; reflexivity|].
  split; [apply (proj2 (Htable (or_introl eq_refl))); discriminate|].
  split; [apply (proj1 (Hnone eq_refl eq_refl)); reflexivity|].
  apply (proj1 (Hsubs (or_introl eq_refl))); reflexivity.
Defined.

End LanguageFacts.

(** ** C8: [parseSizeToBytes] *)

Section SizeFacts.
Import JsString JsNumber Design NyaaService.

Lemma append_cons (c : ascii) (a b : string) :
  (String c a ++ b)%string = String c (a ++ b)%string.
Proof. reflexivity. Qed.

Lemma span_spec (f : ascii -> bool) (s a b : string) :
  span f s = (a, b) ->
  s = (a ++ b)%string /\ forallb f a = true /\ stops f b.
Proof.
  revert a b. induction s as [|c s IH]; intros a b; simpl.
  - intros [= <- <-]. split; [reflexivity|]. split; [reflexivity|exact I].
  - destruct (f c) eqn:Hc.
    + destruct (span f s) as [a' b']. intros [= <- <-].
      destruct (IH _ _ eq_refl) as (-> & Hall & Hstop).
      split; [reflexivity|]. split; [|assumption]. simpl. now rewrite Hc.
    + intros [= <- <-]. split; [reflexivity|]. split; [reflexivity|exact Hc].
Qed.

Lemma span_unique (f : ascii -> bool) (a b : string) :
  forallb f a = true -> stops f b -> span f (a ++ b)%string = (a, b).
Proof.
  intros Hall Hstop. induction a as [|c a IH].
  - change ("" ++ b)%string with b.
    destruct b as [|c b]; [reflexivity|]. simpl in *. now rewrite Hstop.
  - simpl in Hall. apply andb_true_iff in Hall as [Hc Hall].
    rewrite append_cons. simpl. now rewrite Hc, (IH Hall).
Qed.





Lemma stops_app (f g : ascii -> bool) (x y : string) :
  (forall c, g c = true -> f c = false) ->
  forallb g x = true -> stops f y -> stops f (x ++ y)%string.
Proof.
  intros Hfg Hx Hy. destruct x as [|c x]; [exact Hy|].
  simpl in Hx. apply andb_true_iff in Hx as [Hc _].
  rewrite append_cons. simpl. auto.
Qed.










End SizeFacts.

(** ** C10: [getTorrentStats] *)

Section StatsFacts.
Import Models JsNumber NyaaService.

(** C10.  For an anime without stored torrents [getTorrentStats] returns
    the statistics with no torrent, average 0, size 0 and three empty
    histograms; the division by the number of torrents is made on a
    non-empty list only, so that the average is never NaN. *)
Theorem C10_empty_stats (torrentRepository : InMemoryTorrentRepository.Store)
    (animeId : string) :
  (InMemoryTorrentRepository.findByAnimeId torrentRepository animeId = [] ->
   getTorrentStats torrentRepository animeId
   = {| totalTorrents := 0; byQuality := ∅; byLanguage := ∅;
        byReleaseType := ∅; averageSeeders := Finite (inject_Z 0);
        totalSize := 0 |}) /\
  (exists average,
     averageSeeders (getTorrentStats torrentRepository animeId)
     = Finite average) /\
  averageSeeders (getTorrentStats torrentRepository animeId) <> NaN.
Proof.
  unfold getTorrentStats.
  destruct (InMemoryTorrentRepository.findByAnimeId torrentRepository animeId)
    as [|t torrents] eqn:Hfound.
  - split; [reflexivity|]. split; [eexists; reflexivity|discriminate].
  - split; [discriminate|].
    cbn [length Nat.eqb averageSeeders]. unfold div.
    destruct (Z.eqb_spec (Z.of_nat (S (length torrents))) 0) as [H|_]; [lia|].
    split; [eexists; reflexivity|discriminate].
Qed.

Lemma C10_empty_stats_witness :
  getTorrentStats Examples.torrent_store "5114"
  = {| totalTorrents := 0; byQuality := ∅; byLanguage := ∅;
       byReleaseType := ∅; averageSeeders := Finite (inject_Z 0);
       totalSize := 0 |} /\
  averageSeeders (getTorrentStats Examples.torrent_store "21")
  = Finite (Qdiv (inject_Z 60) (inject_Z 2)).
Proof.
  destruct (C10_empty_stats Examples.torrent_store "5114") as (Hempty & _).
  split; [apply Hempty; reflexivity|reflexivity].
Defined.

End StatsFacts.

(** * Further properties of the sources *)

(** ** More of [unifyAnimeData] *)

Section UnifyMore.
Import Models Effects Design AnimeUnificationService.

(** The first element of the array sorted by descending length: no
    element is longer, and the elements before it in the array are
    shorter. *)
Lemma sort_by_length_head (l : list string) :
  l <> [] ->
  exists s rest pre post,
    JsArray.sort by_length_desc l = s :: rest /\
    l = (pre ++ s :: post)%list /\
    Forall (fun s' => (String.length s' < String.length s)%nat) pre /\
    Forall (fun s' => (String.length s' <= String.length s)%nat) post.
Proof.
  induction l as [|x l IH]; [congruence|]. intros _.
  destruct l as [|y l].
  { exists x, [], [], []. repeat split; constructor. }
  destruct IH as (s & rest & pre & post & Hsort & Hl & Hpre & Hpost);
    [discriminate|].
  cbn [JsArray.sort foldr] in *. rewrite Hsort. cbn [JsArray.insert_sorted].
  unfold by_length_desc at 1.
  destruct (Z.leb_spec (Z.of_nat (String.length s) - Z.of_nat (String.length x)) 0)
    as [Hle|Hgt].
  - exists x, (s :: rest), [], (y :: l). split; [reflexivity|].
    split; [reflexivity|]. split; [constructor|].
    rewrite Hl. apply Forall_app. split.
    + eapply Forall_impl; [exact Hpre|]. intros s' Hs'. simpl in Hs'. lia.
    + constructor; [lia|].
      eapply Forall_impl; [exact Hpost|]. intros s' Hs'. simpl in Hs'. lia.
  - exists s, (JsArray.insert_sorted by_length_desc x rest), (x :: pre), post.
    split; [reflexivity|]. split; [now rewrite Hl|].
    split; [|assumption]. constructor; [lia|assumption].
Qed.

(** X1: the synopsis of the unified record is the longest non-empty synopsis of
    the sources, the first one of that length in source order; when no
    source has a non-empty synopsis it is the synopsis of the first
    source. *)
Theorem X1_synopsis_longest (sources : list Anime)
    (options : UnificationOptions) (w : World) :
  sources <> [] ->
  exists base unified w',
    head sources = Some base /\
    unifyAnimeData sources options w = (w', inr unified) /\
    (filter (fun s => s <> "") (omap synopsis sources) = [] ->
     synopsis unified = synopsis base) /\
    (filter (fun s => s <> "") (omap synopsis sources) <> [] ->
     exists s pre post,
       synopsis unified = Some s /\ s <> "" /\
       filter (fun s => s <> "") (omap synopsis sources)
       = (pre ++ s :: post)%list /\
       Forall (fun s' => (String.length s' < String.length s)%nat) pre /\
       Forall (fun s' => (String.length s' <= String.length s)%nat) post).
Proof.
  destruct sources as [|base rest]; [congruence|]. intros _.
  eexists base, _, _. split; [reflexivity|].
  split; [apply unifyAnimeData_returns|].
  cbn [synopsis set_dates unifyFields]. unfold unifySynopsis.
  assert (Hfilter :
    filter (fun s => JsString.truthy s = true) (omap synopsis (base :: rest))
    = filter (fun s => s <> "") (omap synopsis (base :: rest))).
  { apply list_filter_iff. intros s. apply truthy_spec. }
  rewrite Hfilter. split.
  - now intros ->.
  - intros Hne.
    destruct (sort_by_length_head _ Hne)
      as (s & tail & pre & post & -> & Hl & Hpre & Hpost).
    exists s, pre, post. split; [reflexivity|]. split; [|auto].
    assert (Hin : s ∈ filter (fun s => s <> "")
                      (omap synopsis (base :: rest))).
    { rewrite Hl. apply elem_of_app. right. left. }
    now apply list_elem_of_filter in Hin as [? _].
Qed.

Lemma X1_synopsis_longest_witness :
  exists unified w',
    unifyAnimeData
      [ Samples.with_synopsis "twelve chars" Examples.from_mal;
        Samples.with_synopsis "a synopsis of fifty characters, beyond any doubt."
          Examples.from_anilist;
        Samples.with_synopsis "thirty characters of synopsis."
          Examples.twice_rated ]
      Examples.default_options Examples.world0
    = (w', inr unified) /\
    synopsis unified
    = Some "a synopsis of fifty characters, beyond any doubt.".
Proof.
  destruct (X1_synopsis_longest
      [ Samples.with_synopsis "twelve chars" Examples.from_mal;
        Samples.with_synopsis "a synopsis of fifty characters, beyond any doubt."
          Examples.from_anilist;
        Samples.with_synopsis "thirty characters of synopsis."
          Examples.twice_rated ]
      Examples.default_options Examples.world0)
    as (base & unified & w' & _ & Hrun & _ & _); [discriminate|].
  exists unified, w'. split; [exact Hrun|].
  rewrite unifyAnimeData_returns in Hrun. injection Hrun as _ <-.
  reflexivity.
Defined.

(** X2: the external ids of the unified record are those of the sources, one
    source after the other, none dropped: their number is the sum of the
    sources' numbers, hence at least the number of sources when each
    source carries an id. *)
Theorem X2_externalIds_additive (sources : list Anime)
    (options : UnificationOptions) (w : World) :
  sources <> [] ->
  exists unified w',
    unifyAnimeData sources options w = (w', inr unified) /\
    externalIds unified = concat (map externalIds sources) /\
    length (externalIds unified)
    = sum_list (map (fun s => length (externalIds s)) sources) /\
    (Forall (fun s => externalIds s <> []) sources ->
     (length sources <= length (externalIds unified))%nat).
Proof.
  destruct sources as [|base rest]; [congruence|]. intros _.
  eexists _, _. split; [apply unifyAnimeData_returns|].
  cbn [externalIds set_dates unifyFields].
  split; [reflexivity|].
  rewrite length_concat_sum, map_map. split; [reflexivity|].
  generalize (base :: rest). intros l Hall.
  induction Hall as [|s l Hs _ IH]; simpl; [lia|].
  destruct (externalIds s); [congruence|]. simpl. lia.
Qed.

Lemma X2_externalIds_additive_witness :
  exists unified w',
    unifyAnimeData [Examples.from_mal; Examples.from_anilist]
                   Examples.default_options Examples.world0
    = (w', inr unified) /\
    (2 <= length (externalIds unified))%nat.
Proof.
  destruct (X2_externalIds_additive [Examples.from_mal; Examples.from_anilist]
              Examples.default_options Examples.world0)
    as (unified & w' & Hrun & _ & _ & Hge); [discriminate|].
  exists unified, w'. split; [exact Hrun|].
  apply Hge. repeat constructor; discriminate.
Defined.

#[local] Instance string_lt_antisymm : AntiSymm (=) string_lt.
Proof.
  intros a b Hab Hba. exfalso.
  apply (string_lt_irrefl a). now apply (string_lt_trans a b a).
Qed.

(** The merged array does not depend on the order of the sources, nor on
    the order of the strings in their arrays. *)
Lemma mergeArrayFields_same_elements (arrays arrays' : list (list string)) :
  (forall x, (exists arr, arr ∈ arrays /\ x ∈ arr) <->
             (exists arr, arr ∈ arrays' /\ x ∈ arr)) ->
  mergeArrayFields arrays = mergeArrayFields arrays'.
Proof.
  intros Hsame.
  destruct (mergeArrayFields_spec arrays) as [Hs Hin].
  destruct (mergeArrayFields_spec arrays') as [Hs' Hin'].
  apply (StronglySorted_unique string_lt); [assumption..|].
  apply NoDup_Permutation; [now apply StronglySorted_lt_NoDup..|].
  intros x. rewrite Hin, Hin', Hsame. reflexivity.
Qed.

(** X3: with merging of arrays, the genres, themes, studios, producers and
    synonyms of the unified record do not depend on the order in which the
    sources are given. *)
Theorem X3_merge_order_independent (sources sources' : list Anime)
    (options : UnificationOptions) (w w' : World) :
  sources ≡ₚ sources' ->
  default true (mergeArrays options) = true ->
  forall unified unified' w1 w1',
    unifyAnimeData sources options w = (w1, inr unified) ->
    unifyAnimeData sources' options w' = (w1', inr unified') ->
    genres unified = genres unified' /\ themes unified = themes unified' /\
    studios unified = studios unified' /\
    producers unified = producers unified' /\
    synonyms (title unified) = synonyms (title unified').
Proof.
  intros Hperm Hmerge unified unified' w1 w1'.
  assert (Hfield : forall f : Anime -> list string,
            mergeArrayFields (map f sources) = mergeArrayFields (map f sources')).
  { intros f. apply mergeArrayFields_same_elements. intros x.
    split; intros (arr & Harr & Hx); exists arr; split; try assumption.
    - change (arr ∈ f <$> sources'). rewrite <- Hperm. exact Harr.
    - change (arr ∈ f <$> sources). rewrite Hperm. exact Harr. }
  destruct sources as [|base rest].
  { apply Permutation_nil in Hperm as ->. discriminate. }
  destruct sources' as [|base' rest'].
  { symmetry in Hperm. apply Permutation_nil in Hperm. discriminate. }
  rewrite !unifyAnimeData_returns. intros [= _ <-] [= _ <-].
  cbn [genres themes studios producers title synonyms set_dates unifyFields].
  rewrite Hmerge.
  rewrite (Hfield genres), (Hfield themes), (Hfield studios),
    (Hfield producers),
    (Hfield (fun s => default [] (synonyms (title s)))).
  auto.
Qed.

Lemma X3_merge_order_independent_witness :
  exists unified unified' w1 w1',
    unifyAnimeData [Examples.from_mal; Examples.from_anilist]
                   Examples.default_options Examples.world0
    = (w1, inr unified) /\
    unifyAnimeData [Examples.from_anilist; Examples.from_mal]
                   Examples.default_options Examples.world0
    = (w1', inr unified') /\
    genres unified = genres unified'.
Proof.
  eexists _, _, _, _.
  split; [apply unifyAnimeData_returns|].
  split; [apply unifyAnimeData_returns|].
  eapply (X3_merge_order_independent
            [Examples.from_mal; Examples.from_anilist]
            [Examples.from_anilist; Examples.from_mal]
            Examples.default_options Examples.world0 Examples.world0).
  - apply Permutation_swap.
  - reflexivity.
  - apply unifyAnimeData_returns.
  - apply unifyAnimeData_returns.
Defined.

End UnifyMore.

(** ** The metadata extractor *)

Section ExtractorFacts.
Import Models JsString JsNumber Design NyaaService NyaaExtractors.

Lemma append_assoc (a b c : string) :
  ((a ++ b) ++ c)%string = (a ++ b ++ c)%string.
Proof.
  induction a as [|x a IH]; [reflexivity|]. now rewrite !append_cons, IH.
Qed.

Lemma includes_longer (t p q : string) :
  includes t (p ++ q) = true -> includes t p = true.
Proof.
  rewrite !includes_spec. intros (pre & post & ->).
  exists pre, (q ++ post)%string. now rewrite append_assoc.
Qed.

(** The two extractors, as unions of matches. *)
Lemma extractAudioLanguages_eq (title : string) :
  extractAudioLanguages title =
  if includes (toLowerCase title) "dual audio"
     || includes (toLowerCase title) "multi audio"
  then [JAPANESE; ENGLISH]
  else match union_of_matches audio_markers (toLowerCase title) with
       | [] => [JAPANESE]
       | l => l
       end.
Proof.
  unfold extractAudioLanguages, union_of_matches, audio_markers.
  cbn [omap list_omap existsb]. rewrite !orb_false_r.
  destruct (includes _ "dual audio" || includes _ "multi audio");
    [reflexivity|].
  destruct (includes _ "japanese"), (includes _ "jpn"), (includes _ "jap"),
    (includes _ "english"), (includes _ "eng"), (includes _ "dub");
    reflexivity.
Qed.

Lemma extractSubtitleLanguages_eq (title : string) :
  extractSubtitleLanguages title =
  if includes (toLowerCase title) "multi"
     && (includes (toLowerCase title) "sub"
         || includes (toLowerCase title) "subtitle")
  then [MULTI]
  else match union_of_matches subtitle_keywords (toLowerCase title) with
       | [] => [ENGLISH]
       | l => l
       end.
Proof.
  unfold extractSubtitleLanguages.
  rewrite langMap_loop, langMap_table. cbn [app].
  destruct (_ && _); [reflexivity|].
  destruct (union_of_matches subtitle_keywords _); reflexivity.
Qed.

Lemma table_languages (table : list (TorrentLanguage * list string))
    (t : string) (lang : TorrentLanguage) :
  lang ∈ union_of_matches table t -> lang ∈ table.*1.
Proof.
  intros H. apply union_of_matches_elem in H as (kws & _ & Hin & _).
  apply list_elem_of_fmap. now exists (lang, kws).
Qed.

(** X4: values of the enumerations that no title yields: the extractor reports
    2160p as 4K, h.265 as HEVC and "complete" as BATCH, and knows no
    unknown language; a subtitle language MULTI stands alone. *)
Theorem X4_values_never_extracted (title : string) :
  quality (extractMetadata title) <> UHD_2160p /\
  codec (extractMetadata title) <> H265 /\
  releaseType (extractMetadata title) <> COMPLETE /\
  (forall lang, lang ∈ audioLanguages (extractMetadata title) ->
     lang = JAPANESE \/ lang = ENGLISH) /\
  (forall lang, lang ∈ subtitleLanguages (extractMetadata title) ->
     lang <> JAPANESE /\ lang <> UNKNOWN_LANGUAGE /\
     (lang = MULTI -> subtitleLanguages (extractMetadata title) = [MULTI])).
Proof.
  cbn [quality codec releaseType audioLanguages subtitleLanguages
       extractMetadata].
  split; [|split; [|split; [|split]]].
  - unfold extractQuality.
    repeat match goal with |- context [if ?b then _ else _] => destruct b end;
      discriminate.
  - unfold extractCodec.
    repeat match goal with |- context [if ?b then _ else _] => destruct b end;
      discriminate.
  - unfold extractReleaseType.
    repeat match goal with |- context [if ?b then _ else _] => destruct b end;
      discriminate.
  - intros lang. rewrite extractAudioLanguages_eq.
    destruct (_ || _).
    + intros H. repeat (apply elem_of_cons in H as [->|H]; [auto|]).
      inversion H.
    + destruct (union_of_matches audio_markers _) as [|l0 l] eqn:Hu.
      * intros H. apply list_elem_of_singleton in H. auto.
      * rewrite <- Hu. intros H. apply table_languages in H.
        repeat (apply elem_of_cons in H as [->|H]; [auto|]). inversion H.
  - intros lang. rewrite extractSubtitleLanguages_eq.
    destruct (_ && _).
    + intros H. apply list_elem_of_singleton in H as ->.
      repeat split; discriminate.
    + destruct (union_of_matches subtitle_keywords _) as [|l0 l] eqn:Hu.
      * intros H. apply list_elem_of_singleton in H as ->.
        repeat split; discriminate.
      * rewrite <- Hu. intros H. apply table_languages in H.
        repeat (apply elem_of_cons in H as [->|H];
                [repeat split; discriminate|]).
        inversion H.
Qed.

(** X5: the flags of the metadata agree with its fields: a dual-audio title
    has the audio languages Japanese and English, the multi-sub flag is
    set exactly when the subtitle language is MULTI, and a batch title has
    the release type BATCH. *)
Theorem X5_flags_agree (title : string) :
  (isDual (extractMetadata title) = Some true ->
   audioLanguages (extractMetadata title) = [JAPANESE; ENGLISH]) /\
  (isMultiSub (extractMetadata title) = Some true <->
   subtitleLanguages (extractMetadata title) = [MULTI]) /\
  (isBatch (extractMetadata title) = Some true ->
   releaseType (extractMetadata title) = BATCH).
Proof.
  cbn [isDual isMultiSub isBatch audioLanguages subtitleLanguages releaseType
       extractMetadata].
  split; [|split].
  - intros [= H]. now rewrite extractAudioLanguages_eq, H.
  - rewrite extractSubtitleLanguages_eq.
    destruct (includes (toLowerCase title) "multi") eqn:Hm; cbn [andb].
    + destruct (includes (toLowerCase title) "sub") eqn:Hs; cbn [orb].
      * split; reflexivity.
      * destruct (includes (toLowerCase title) "subtitle") eqn:Hst.
        { apply (includes_longer _ "sub" "title") in Hst. congruence. }
        split; [discriminate|].
        destruct (union_of_matches subtitle_keywords _) as [|l0 l] eqn:Hu;
          [discriminate|].
        intros H.
        assert (Hin : MULTI ∈ union_of_matches subtitle_keywords
                                (toLowerCase title)).
        { rewrite Hu, H. left. }
        apply table_languages in Hin. exfalso.
        repeat (apply elem_of_cons in Hin as [Hin|Hin]; [discriminate|]).
        inversion Hin.
    + split; [discriminate|].
      destruct (union_of_matches subtitle_keywords _) as [|l0 l] eqn:Hu;
        [discriminate|].
      intros H.
      assert (Hin : MULTI ∈ union_of_matches subtitle_keywords
                              (toLowerCase title)).
      { rewrite Hu, H. left. }
      apply table_languages in Hin. exfalso.
      repeat (apply elem_of_cons in Hin as [Hin|Hin]; [discriminate|]).
      inversion Hin.
  - intros [= H]. unfold extractReleaseType. now rewrite H.
Qed.

Lemma X5_flags_agree_witness :
  audioLanguages
    (extractMetadata "[Grp] Show (Batch) [Dual Audio][Multi-Subs]")
  = [JAPANESE; ENGLISH] /\
  subtitleLanguages
    (extractMetadata "[Grp] Show (Batch) [Dual Audio][Multi-Subs]")
  = [MULTI] /\
  releaseType (extractMetadata "[Grp] Show (Batch) [Dual Audio][Multi-Subs]")
  = BATCH.
Proof.
  destruct (X5_flags_agree "[Grp] Show (Batch) [Dual Audio][Multi-Subs]")
    as (Hdual & Hmulti & Hbatch).
  split; [apply Hdual; reflexivity|].
  split; [apply Hmulti; reflexivity|apply Hbatch; reflexivity].
Defined.

End ExtractorFacts.

(** ** Patterns *)

Section PatternFacts.
Import Models JsString JsNumber Design Vocabulary NyaaExtractors.

Lemma append_length (a b : string) :
  String.length (a ++ b) = (String.length a + String.length b)%nat.
Proof. induction a as [|c a IH]; simpl; [reflexivity|]. now rewrite IH. Qed.

(** A match found by [search] is a match at the start of some suffix. *)
Lemma search_sound {T} (at_ : string -> option T) (s : string) (x : T) :
  search at_ s = Some x ->
  exists pre post, s = (pre ++ post)%string /\ at_ post = Some x.
Proof.
  induction s as [|c s IH]; cbn [search].
  - destruct (at_ "") eqn:H; [|discriminate]. intros [= ->]. now exists "", "".
  - destruct (at_ (String c s)) eqn:H.
    + intros [= ->]. now exists "", (String c s).
    + intros Hs. destruct (IH Hs) as (pre & post & -> & Hat).
      now exists (String c pre), post.
Qed.

(** No match starts within [pre] when no pattern matches a string that
    starts with a character of [pre]. *)
Lemma search_skip {T} (at_ : string -> option T) (f : ascii -> bool)
    (pre s : string) :
  (forall c r, f c = true -> at_ (String c r) = None) ->
  forallb f pre = true ->
  search at_ (pre ++ s) = search at_ s.
Proof.
  intros Hnone. induction pre as [|c pre IH]; [reflexivity|].
  cbn [forallb]. intros H. apply andb_true_iff in H as [Hc Hpre].
  change (String c pre ++ s)%string with (String c (pre ++ s)).
  cbn [search]. rewrite (Hnone c _ Hc). auto.
Qed.

Lemma search_here {T} (at_ : string -> option T) (s : string) (x : T) :
  at_ s = Some x -> search at_ s = Some x.
Proof. intros H. destruct s; cbn [search]; now rewrite H. Qed.

Lemma take_exactly_spec (f : ascii -> bool) (n : nat) (s a r : string) :
  take_exactly f n s = Some (a, r) ->
  s = (a ++ r)%string /\ String.length a = n /\ forallb f a = true.
Proof.
  revert s a r. induction n as [|n IH]; intros s a r; cbn [take_exactly].
  - intros [= <- <-]. auto.
  - destruct s as [|c s]; [discriminate|].
    destruct (f c) eqn:Hc; [|discriminate].
    destruct (take_exactly f n s) as [[a' r']|] eqn:Ht; [|discriminate].
    intros [= <- <-]. destruct (IH _ _ _ Ht) as (-> & Hlen & Hall).
    split; [reflexivity|]. simpl. rewrite Hc, Hlen. auto.
Qed.

Lemma take_exactly_app (f : ascii -> bool) (a r : string) :
  forallb f a = true ->
  take_exactly f (String.length a) (a ++ r) = Some (a, r).
Proof.
  induction a as [|c a IH]; [reflexivity|]. simpl.
  intros H. apply andb_true_iff in H as [Hc Ha].
  rewrite ?append_cons. cbn [take_exactly]. now rewrite Hc, (IH Ha).
Qed.

Lemma take_exactly_short (f : ascii -> bool) (n : nat) (a r : string) :
  forallb f a = true -> stops f r -> (String.length a < n)%nat ->
  take_exactly f n (a ++ r) = None.
Proof.
  revert n. induction a as [|c a IH]; intros n Ha Hr Hn.
  - change ("" ++ r)%string with r. destruct n; [simpl in Hn; lia|].
    cbn [take_exactly]. destruct r as [|c r]; [reflexivity|].
    simpl in Hr. now rewrite Hr.
  - simpl in Ha. apply andb_true_iff in Ha as [Hc Ha].
    destruct n; [simpl in Hn; lia|]. rewrite ?append_cons.
    cbn [take_exactly]. rewrite Hc, IH; auto. simpl in Hn. lia.
Qed.

Lemma toLowerCase_length (s : string) :
  String.length (toLowerCase s) = String.length s.
Proof. induction s as [|c s IH]; simpl; [reflexivity|]. now rewrite IH. Qed.

Lemma lower_hex (c : ascii) :
  is_hex c = true -> is_lower_hex (lower_char c) = true.
Proof. by_cases c. Qed.

Lemma toLowerCase_hex (s : string) :
  forallb is_hex s = true -> forallb is_lower_hex (toLowerCase s) = true.
Proof.
  induction s as [|c s IH]; [reflexivity|]. simpl.
  intros H. apply andb_true_iff in H as [Hc Hs].
  now rewrite (lower_hex c Hc), (IH Hs).
Qed.

Lemma info_hash_at_b (c : ascii) (r : string) :
  not_b c = true -> info_hash_at (String c r) = None.
Proof.
  intros Hc. unfold info_hash_at. cbn [startsWith_ignoreCase].
  assert (Ascii.eqb "b" (lower_char c) = false) as ->; [|reflexivity].
  revert Hc. by_cases c.
Qed.

(** X6: the info hash is empty or consists of 40 hexadecimal digits in lower
    case, which follow "btih:" (in any case of letters) in the magnet
    link; they are found when no "b" comes before. *)
Theorem X6_info_hash (magnetLink : string) :
  (extractInfoHash magnetLink = "" \/
   (String.length (extractInfoHash magnetLink) = 40%nat /\
    forallb is_lower_hex (extractInfoHash magnetLink) = true /\
    exists pre tag hash post,
      magnetLink = (pre ++ tag ++ hash ++ post)%string /\
      toLowerCase tag = "btih:" /\
      extractInfoHash magnetLink = toLowerCase hash)) /\
  (forall pre tag hash post,
     magnetLink = (pre ++ tag ++ hash ++ post)%string ->
     forallb not_b pre = true -> toLowerCase tag = "btih:" ->
     String.length hash = 40%nat -> forallb is_hex hash = true ->
     extractInfoHash magnetLink = toLowerCase hash).
Proof.
  split.
  - unfold extractInfoHash.
    destruct (search info_hash_at magnetLink) as [hash|] eqn:Hs; [|now left].
    right. apply search_sound in Hs as (pre & rest & -> & Hat).
    unfold info_hash_at in Hat.
    destruct (startsWith_ignoreCase "btih:" rest) eqn:Htag; [|discriminate].
    destruct (take_exactly is_hex 40 (drop 5 rest)) as [[h post]|] eqn:Ht;
      [|discriminate].
    injection Hat as ->. apply take_exactly_spec in Ht as (Hrest & Hlen & Hhex).
    split; [now rewrite toLowerCase_length|].
    split; [now apply toLowerCase_hex|].
    destruct rest as [|c1 [|c2 [|c3 [|c4 [|c5 rest]]]]];
      cbn [startsWith_ignoreCase] in Htag;
      repeat match type of Htag with
             | (if ?b then _ else _) = true =>
                 destruct b eqn:?; [|discriminate]
             end; try discriminate.
    cbn [drop] in Hrest. subst rest.
    exists pre, (String c1 (String c2 (String c3 (String c4 (String c5 ""))))),
      hash, post.
    split; [reflexivity|]. split; [|reflexivity].
    cbn [toLowerCase].
    repeat match goal with
           | H : Ascii.eqb _ _ = true |- _ => apply Ascii.eqb_eq in H as <-
           end.
    reflexivity.
  - intros pre tag hash post -> Hpre Htag Hlen Hhex.
    unfold extractInfoHash.
    rewrite (search_skip info_hash_at not_b pre); [|apply info_hash_at_b|exact Hpre].
    assert (Hat : info_hash_at (tag ++ hash ++ post) = Some hash).
    { destruct tag as [|c1 [|c2 [|c3 [|c4 [|c5 [|c6 tag]]]]]];
        try discriminate Htag.
      cbn [toLowerCase] in Htag. injection Htag as H1 H2 H3 H4 H5.
      unfold info_hash_at. rewrite ?append_cons.
      cbn [startsWith_ignoreCase]. rewrite H1, H2, H3, H4, H5.
      cbn [Ascii.eqb Bool.eqb]. cbn [drop].
      change ("" ++ hash ++ post)%string with (hash ++ post)%string.
      rewrite <- Hlen. now rewrite take_exactly_app. }
    now rewrite (search_here _ _ _ Hat).
Qed.

Lemma X6_info_hash_witness :
  extractInfoHash
    "magnet:?xt=urn:btih:0123456789ABCDEF0123456789abcdef01234567&dn=x"
  = "0123456789abcdef0123456789abcdef01234567".
Proof.
  destruct (X6_info_hash
    "magnet:?xt=urn:btih:0123456789ABCDEF0123456789abcdef01234567&dn=x")
    as [_ Hfound].
  apply (Hfound "magnet:?xt=urn:" "btih:"
                "0123456789ABCDEF0123456789abcdef01234567" "&dn=x");
    reflexivity.
Defined.

End PatternFacts.

(** ** The release group *)

Section ReleaseGroupFacts.
Import Models JsString Design Vocabulary NyaaExtractors.

Lemma release_group_at_spec (s g : string) :
  release_group_at s = Some g <->
  s = ("[" ++ g ++ "]")%string /\ g <> "" /\ forallb not_closing g = true.
Proof.
  unfold release_group_at. split.
  - destruct s as [|c r]; [discriminate|].
    destruct (Ascii.eqb_spec c "[") as [->|Hc].
    + destruct (span not_closing r) as [group rest] eqn:Hspan.
      apply span_spec in Hspan as (-> & Hall & _).
      destruct (String.eqb_spec group ""); [discriminate|].
      destruct (String.eqb_spec rest "]") as [->|]; [|discriminate].
      intros [= <-]. auto.
    + destruct c as [[] [] [] [] [] [] [] []]; try discriminate.
      congruence.
  - intros (-> & Hg & Hall). rewrite ?append_cons.
    change ("" ++ g ++ "]")%string with (g ++ "]")%string.
    rewrite (span_unique not_closing g "]" Hall eq_refl).
    destruct (String.eqb_spec g ""); [congruence|reflexivity].
Qed.

Lemma release_group_at_other (c : ascii) (r : string) :
  not_opening c = true -> release_group_at (String c r) = None.
Proof.
  unfold not_opening, release_group_at.
  destruct c as [[] [] [] [] [] [] [] []]; try reflexivity. discriminate.
Qed.

(** The run of [[^\]]] stops at the first "]" of the string. *)
Lemma span_closing (x y : string) :
  exists a z, span not_closing (x ++ "]" ++ y) = (a, ("]" ++ z ++ y)%string).
Proof.
  induction x as [|c x (a & z & IH)].
  - now exists "", "".
  - change (String c x ++ "]" ++ y)%string with (String c (x ++ "]" ++ y)).
    cbn [span]. destruct (not_closing c) eqn:Hc.
    + rewrite IH. now exists (String c a), z.
    + exists "", (x ++ "]")%string.
      unfold not_closing in Hc. apply negb_false_iff, Ascii.eqb_eq in Hc as ->.
      now rewrite append_assoc.
Qed.

(** No group starts before a "]" that is not the last character. *)
Lemma search_past_closing (z rest : string) :
  rest <> "" ->
  search release_group_at (z ++ "]" ++ rest) = search release_group_at rest.
Proof.
  intros Hrest. induction z as [|c z IH].
  - change ("" ++ "]" ++ rest)%string with (String "]" rest).
    cbn [search]. now rewrite release_group_at_other.
  - change (String c z ++ "]" ++ rest)%string
      with (String c (z ++ "]" ++ rest)).
    cbn [search].
    assert (release_group_at (String c (z ++ "]" ++ rest)) = None) as ->;
      [|exact IH].
    destruct (not_opening c) eqn:Hc; [now apply release_group_at_other|].
    unfold not_opening in Hc. apply negb_false_iff, Ascii.eqb_eq in Hc as ->.
    unfold release_group_at.
    destruct (span_closing z rest) as (a & z' & ->).
    destruct (String.eqb_spec ("]" ++ z' ++ rest)%string "]") as [H|_];
      [|now rewrite andb_false_r].
    exfalso. injection H as H. destruct z'; [|discriminate]. contradiction.
Qed.

Lemma endsWith_char_spec (c : ascii) (s : string) :
  endsWith_char c s = true <-> exists z, s = (z ++ String c "")%string.
Proof.
  induction s as [|a s IH]; cbn [endsWith_char].
  - split; [discriminate|]. intros [[|? ?] H]; discriminate.
  - destruct s as [|b s].
    + destruct (Ascii.eqb_spec a c) as [->|Hne]; split; try discriminate.
      * intros _. now exists "".
      * reflexivity.
      * intros [[|x z] H]; [injection H; congruence|].
        injection H as _ H. destruct z; discriminate H.
    + rewrite IH. split.
      * intros [z ->]. now exists (String a z).
      * intros [[|x z] H]; [discriminate|]. injection H as -> H. now exists z.
Qed.

(** X7: a release group is the content of a bracket that closes the title: it
    is not empty and holds no "]".  A title that ends in such a bracket
    has a release group, a quality or codec tag if that is what the last
    bracket holds; a title that does not end in "]" has none. *)
Theorem X7_release_group (title : string) :
  (forall g, extractReleaseGroup title = Some g ->
     g <> "" /\ forallb not_closing g = true /\
     exists pre, title = (pre ++ "[" ++ g ++ "]")%string) /\
  (forall p1 p2 g,
     title = (p1 ++ p2 ++ "[" ++ g ++ "]")%string ->
     p1 = "" \/ endsWith_char "]" p1 = true ->
     forallb not_opening p2 = true ->
     g <> "" -> forallb not_closing g = true ->
     extractReleaseGroup title = Some g) /\
  (endsWith_char "]" title = false -> extractReleaseGroup title = None).
Proof.
  assert (Hsound : forall g, extractReleaseGroup title = Some g ->
            g <> "" /\ forallb not_closing g = true /\
            exists pre, title = (pre ++ "[" ++ g ++ "]")%string).
  { intros g Hg. apply search_sound in Hg as (pre & post & -> & Hat).
    apply release_group_at_spec in Hat as (-> & Hne & Hall). eauto. }
  split; [exact Hsound|]. split.
  - intros p1 p2 g -> Hp1 Hp2 Hg Hall. unfold extractReleaseGroup.
    assert (Hrest : search release_group_at (p2 ++ "[" ++ g ++ "]")
                    = Some g).
    { rewrite (search_skip _ not_opening p2);
        [|apply release_group_at_other|exact Hp2].
      apply search_here. now apply release_group_at_spec. }
    destruct Hp1 as [->|Hp1]; [exact Hrest|].
    apply endsWith_char_spec in Hp1 as [z ->].
    rewrite append_assoc.
    change (String "]" "" ++ p2 ++ "[" ++ g ++ "]")%string
      with ("]" ++ p2 ++ "[" ++ g ++ "]")%string.
    rewrite search_past_closing; [exact Hrest|].
    destruct p2; discriminate.
  - intros Hend.
    destruct (extractReleaseGroup title) as [g|] eqn:Hg; [|reflexivity].
    destruct (Hsound g eq_refl) as (_ & _ & pre & ->).
    assert (endsWith_char "]" (pre ++ "[" ++ g ++ "]") = true); [|congruence].
    apply endsWith_char_spec. exists (pre ++ "[" ++ g)%string.
    now rewrite !append_assoc.
Qed.

Lemma X7_release_group_witness :
  extractReleaseGroup "[SubsPlease] One Piece - 1000 [1080p][HEVC]"
  = Some "HEVC" /\
  extractReleaseGroup "[SubsPlease] One Piece - 1000 (1080p)" = None.
Proof.
  destruct (X7_release_group "[SubsPlease] One Piece - 1000 [1080p][HEVC]")
    as (_ & Hlast & _).
  destruct (X7_release_group "[SubsPlease] One Piece - 1000 (1080p)")
    as (_ & _ & Hnone).
  split.
  - apply (Hlast "[SubsPlease] One Piece - 1000 [1080p]" "" "HEVC");
      [reflexivity|now right|reflexivity|discriminate|reflexivity].
  - apply Hnone. reflexivity.
Defined.

End ReleaseGroupFacts.

(** ** Episode ranges *)

Section RangeFacts.
Import Models JsString JsNumber Design Vocabulary NyaaExtractors.

Lemma digit_value (c : ascii) :
  is_digit c = true -> 0 <= Z.of_N (code c) - 48 <= 9.
Proof.
  destruct c as [[] [] [] [] [] [] [] []]; vm_compute; intros H;
    try discriminate H; split; discriminate.
Qed.

Lemma digits_value_bounds (d : string) (acc : Z) :
  forallb is_digit d = true ->
  acc * 10 ^ Z.of_nat (String.length d) <= digits_value acc d
  < (acc + 1) * 10 ^ Z.of_nat (String.length d).
Proof.
  revert acc. induction d as [|c d IH]; intros acc Hd.
  - simpl. lia.
  - cbn [forallb] in Hd. apply andb_true_iff in Hd as [Hc Hd].
    cbn [digits_value String.length]. pose proof (digit_value c Hc) as Hv.
    specialize (IH (10 * acc + (Z.of_N (code c) - 48)) Hd).
    rewrite Nat2Z.inj_succ, Z.pow_succ_r by lia.
    assert (0 < 10 ^ Z.of_nat (String.length d)) by (apply Z.pow_pos_nonneg; lia).
    nia.
Qed.

Lemma numeral_bounds (d : string) :
  numeral_2_3 d -> 0 <= parseInt d <= 999.
Proof.
  intros [Hd Hlen]. unfold parseInt.
  pose proof (digits_value_bounds d 0 Hd) as H.
  destruct Hlen as [Hlen|Hlen]; rewrite Hlen in H; simpl in H; lia.
Qed.

(** What [(\d{2,3})] captures is a numeral of two or three digits. *)
Lemma digits_2_3_sound {T} (s : string) (k : string -> string -> option T)
    (x : T) :
  digits_2_3 s k = Some x ->
  exists d r, numeral_2_3 d /\ s = (d ++ r)%string /\ k d r = Some x.
Proof.
  unfold digits_2_3. cbn [first_match].
  destruct (take_exactly is_digit 3 s) as [[d r]|] eqn:H3.
  - apply take_exactly_spec in H3 as (-> & Hlen & Hd).
    destruct (k d r) eqn:Hk.
    + intros [= ->]. exists d, r. unfold numeral_2_3. auto.
    + destruct (take_exactly is_digit 2 (d ++ r)) as [[d' r']|] eqn:H2;
        [|discriminate].
      apply take_exactly_spec in H2 as (Heq & Hlen' & Hd').
      destruct (k d' r') eqn:Hk'; [|discriminate].
      intros [= ->]. exists d', r'. unfold numeral_2_3. auto.
  - destruct (take_exactly is_digit 2 s) as [[d' r']|] eqn:H2; [|discriminate].
    apply take_exactly_spec in H2 as (-> & Hlen' & Hd').
    destruct (k d' r') eqn:Hk'; [|discriminate].
    intros [= ->]. exists d', r'. unfold numeral_2_3. auto.
Qed.

(** A numeral that no digit follows is captured whole. *)
Lemma digits_2_3_numeral {T} (d r : string)
    (k : string -> string -> option T) (x : T) :
  numeral_2_3 d -> stops is_digit r -> k d r = Some x ->
  digits_2_3 (d ++ r) k = Some x.
Proof.
  intros [Hd [Hlen|Hlen]] Hr Hk; unfold digits_2_3; cbn [first_match].
  - rewrite (take_exactly_short is_digit 3 d r) by (auto; lia).
    rewrite <- Hlen at 1. now rewrite take_exactly_app, Hk.
  - rewrite <- Hlen at 1. now rewrite take_exactly_app, Hk.
Qed.

Lemma dropWhile_app (f : ascii -> bool) (x y : string) :
  forallb f x = true -> stops f y -> dropWhile f (x ++ y) = y.
Proof.
  intros Hx Hy. induction x as [|c x IH].
  - change ("" ++ y)%string with y.
    destruct y as [|c y]; [reflexivity|]. simpl in *. now rewrite Hy.
  - cbn [forallb] in Hx. apply andb_true_iff in Hx as [Hc Hx].
    change (String c x ++ y)%string with (String c (x ++ y)).
    cbn [dropWhile]. rewrite Hc. auto.
Qed.

Lemma digit_not_space (c : ascii) : is_digit c = true -> is_space c = false.
Proof. by_cases c. Qed.

Lemma numeral_stops_space (d r : string) :
  numeral_2_3 d -> stops is_space (d ++ r).
Proof.
  intros [Hd Hlen]. destruct d as [|c d]; [simpl in Hlen; lia|].
  cbn [forallb] in Hd. apply andb_true_iff in Hd as [Hc _].
  change (String c d ++ r)%string with (String c (d ++ r)).
  simpl. now apply digit_not_space.
Qed.

Lemma range_at_sound (s a b : string) :
  range_at s = Some (a, b) -> numeral_2_3 a /\ numeral_2_3 b.
Proof.
  unfold range_at. intros H.
  apply digits_2_3_sound in H as (d & r & Hd & _ & Hk).
  unfold dash_then_digits in Hk.
  destruct (expect "-" (dropWhile is_space r)) as [r'|]; [|discriminate].
  destruct (digits_2_3 (dropWhile is_space r') (fun d _ => Some d))
    as [b'|] eqn:Hb; [|discriminate].
  injection Hk as <- <-.
  apply digits_2_3_sound in Hb as (d' & _ & Hd' & _ & [= <-]). auto.
Qed.

Lemma e_range_at_sound (s a b : string) :
  e_range_at s = Some (a, b) -> numeral_2_3 a /\ numeral_2_3 b.
Proof.
  unfold e_range_at. destruct s as [|c s]; [discriminate|].
  destruct (is_E c); [|discriminate]. intros H.
  apply digits_2_3_sound in H as (d & r & Hd & _ & Hk).
  destruct (expect "-" (dropWhile is_space r)) as [r'|]; [|discriminate].
  destruct (dropWhile is_space r') as [|e r''] eqn:Hr.
  - apply digits_2_3_sound in Hk as (d' & _ & Hd' & _ & [= <- <-]). auto.
  - destruct (is_E e).
    + destruct (digits_2_3 r'' (fun b0 _ => Some (d, b0))) as [[a' b']|] eqn:H1.
      * injection Hk as <- <-.
        apply digits_2_3_sound in H1 as (d' & _ & Hd' & _ & [= <- <-]). auto.
      * apply digits_2_3_sound in Hk as (d' & _ & Hd' & _ & [= <- <-]). auto.
    + apply digits_2_3_sound in Hk as (d' & _ & Hd' & _ & [= <- <-]). auto.
Qed.

Lemma range_at_not_digit (c : ascii) (r : string) :
  not_digit c = true -> range_at (String c r) = None.
Proof.
  unfold not_digit. intros Hc. apply negb_true_iff in Hc.
  unfold range_at, digits_2_3. cbn [first_match take_exactly].
  now rewrite Hc.
Qed.

(** X8: the two numbers of an extracted range lie between 0 and 999, and
    nothing orders them: two numerals of two or three digits around a
    dash, after a text without digits, are read as start and end as they
    stand, also when the first is the greater. *)
Theorem X8_episode_range (title : string) :
  (forall range, extractEpisodeRange title = Some range ->
     0 <= ep_start range <= 999 /\ 0 <= ep_end range <= 999) /\
  (forall pre a space1 space2 b post,
     title = (pre ++ a ++ space1 ++ "-" ++ space2 ++ b ++ post)%string ->
     forallb not_digit pre = true ->
     numeral_2_3 a -> numeral_2_3 b ->
     forallb is_space space1 = true -> forallb is_space space2 = true ->
     stops is_digit post ->
     extractEpisodeRange title
     = Some {| ep_start := parseInt a; ep_end := parseInt b |}).
Proof.
  split.
  - intros range. unfold extractEpisodeRange. cbn [first_match].
    destruct (search range_at title) as [[a b]|] eqn:H1.
    + intros [= <-]. apply search_sound in H1 as (_ & post & _ & H1).
      apply range_at_sound in H1 as [Ha Hb].
      cbn [ep_start ep_end]. split; now apply numeral_bounds.
    + destruct (search e_range_at title) as [[a b]|] eqn:H2; [|discriminate].
      intros [= <-]. apply search_sound in H2 as (_ & post & _ & H2).
      apply e_range_at_sound in H2 as [Ha Hb].
      cbn [ep_start ep_end]. split; now apply numeral_bounds.
  - intros pre a space1 space2 b post -> Hpre Ha Hb Hs1 Hs2 Hpost.
    unfold extractEpisodeRange. cbn [first_match].
    rewrite (search_skip range_at not_digit pre);
      [|apply range_at_not_digit|exact Hpre].
    assert (Hdash : stops is_space ("-" ++ space2 ++ b ++ post)) by reflexivity.
    assert (Hat : range_at (a ++ space1 ++ "-" ++ space2 ++ b ++ post)
                  = Some (a, b)).
    { unfold range_at. apply digits_2_3_numeral; [exact Ha| |].
      - apply (stops_app _ is_space); [|exact Hs1|reflexivity].
        intros c Hc. destruct (is_digit c) eqn:Hd; [|reflexivity].
        apply digit_not_space in Hd. congruence.
      - unfold dash_then_digits.
        rewrite (dropWhile_app is_space space1 _ Hs1 Hdash).
        change (expect "-" ("-" ++ space2 ++ b ++ post))
          with (Some (space2 ++ b ++ post)%string).
        cbv beta iota.
        rewrite (dropWhile_app is_space space2 _ Hs2
                   (numeral_stops_space b post Hb)).
        now rewrite (digits_2_3_numeral b post _ b Hb Hpost eq_refl). }
    now rewrite (search_here _ _ _ Hat).
Qed.

Lemma X8_episode_range_witness :
  extractEpisodeRange "Anime - 01-12 [1080p]"
  = Some {| ep_start := 1; ep_end := 12 |} /\
  extractEpisodeRange "Anime - 12 - 01 [1080p]"
  = Some {| ep_start := 12; ep_end := 1 |}.
Proof.
  destruct (X8_episode_range "Anime - 01-12 [1080p]") as [_ H1].
  destruct (X8_episode_range "Anime - 12 - 01 [1080p]") as [_ H2].
  split.
  - apply (H1 "Anime - " "01" "" "" "12" " [1080p]"); try reflexivity;
      split; auto.
  - apply (H2 "Anime - " "12" " " " " "01" " [1080p]"); try reflexivity;
      split; auto.
Defined.

End RangeFacts.

(** ** The search queries *)

Section QueryFacts.
Import Models JsString NyaaExtractors.

(** X9: the queries built for an anime are its non-empty titles, romaji
    first, then English, then native, each once: at most three, none
    empty, none twice. *)
Theorem X9_search_queries (anime : Anime) :
  NoDup (buildSearchQueries anime) /\
  (length (buildSearchQueries anime) <= 3)%nat /\
  (forall q, q ∈ buildSearchQueries anime <->
     q <> "" /\
     (romaji (title anime) = Some q \/ english (title anime) = Some q \/
      native (title anime) = Some q)).
Proof.
  assert (Htruthy : forall o, truthy_opt o = true <->
                              exists s, o = Some s /\ s <> "").
  { intros [s|]; simpl.
    - rewrite truthy_spec. split; [eauto|]. now intros (? & [= <-] & ?).
    - split; [discriminate|]. now intros (? & [=] & _). }
  unfold buildSearchQueries. cbn [app].
  set (R := romaji (title anime)). set (E := english (title anime)).
  set (N := native (title anime)).
  set (q1 := if truthy_opt R then [default "" R] else []).
  assert (H1 : NoDup q1 /\ (length q1 <= 1)%nat /\
               forall q, q ∈ q1 <-> q <> "" /\ R = Some q).
  { subst q1. destruct (truthy_opt R) eqn:HR.
    - apply Htruthy in HR as (r & -> & Hr). cbn.
      split; [apply NoDup_singleton|]. split; [lia|].
      intros q. rewrite list_elem_of_singleton. split.
      + now intros ->.
      + now intros [_ [= ->]].
    - split; [constructor|]. split; [simpl; lia|].
      intros q. split; [intros H; inversion H|].
      intros [Hq HRq]. exfalso.
      assert (truthy_opt R = true) by (apply Htruthy; eauto). congruence. }
  destruct H1 as (Hn1 & Hl1 & Hin1).
  set (q2 := if truthy_opt E && negb (bool_decide (E = R))
             then (q1 ++ [default "" E])%list else q1).
  assert (H2 : NoDup q2 /\ (length q2 <= 2)%nat /\
               forall q, q ∈ q2 <-> q <> "" /\ (R = Some q \/ E = Some q)).
  { subst q2. destruct (truthy_opt E) eqn:HE; cbn [andb].
    - apply Htruthy in HE as (e & HEe & He).
      destruct (bool_decide_reflect (E = R)) as [Heq|Hne]; cbn [negb].
      + split; [assumption|]. split; [lia|].
        intros q. rewrite Hin1. rewrite Heq. tauto.
      + rewrite HEe in *. cbn [default from_option Datatypes.id].
        split; [|split].
        * apply NoDup_app. split; [assumption|].
          split; [|apply NoDup_singleton].
          intros x Hx Hx'. apply list_elem_of_singleton in Hx' as ->.
          apply Hin1 in Hx as [_ Hx]. congruence.
        * rewrite length_app. simpl. lia.
        * intros q. rewrite elem_of_app, Hin1, list_elem_of_singleton.
          split; [intros [[? ?]| ->]; auto|].
          intros [Hq [HRq|[= ->]]]; auto.
    - split; [assumption|]. split; [lia|].
      intros q. rewrite Hin1. split; [tauto|].
      intros [Hq [HRq|HEq]]; [auto|]. exfalso.
      assert (truthy_opt E = true) by (apply Htruthy; eauto). congruence. }
  destruct H2 as (Hn2 & Hl2 & Hin2).
  destruct (truthy_opt N) eqn:HN; cbn [andb].
  - apply Htruthy in HN as (n & HNn & Hn).
    rewrite HNn. cbn [default from_option Datatypes.id].
    destruct (bool_decide_reflect (n ∈ q2)) as [Hin|Hout]; cbn [negb].
    + split; [assumption|]. split; [lia|].
      intros q. rewrite Hin2. split; [tauto|].
      intros [Hq [HRq|[HEq|[= ->]]]]; auto. now apply Hin2.
    + split; [|split].
      * apply NoDup_app. split; [assumption|].
        split; [|apply NoDup_singleton].
        intros x Hx Hx'. apply list_elem_of_singleton in Hx' as ->.
        contradiction.
      * rewrite length_app. simpl. lia.
      * intros q. rewrite elem_of_app, Hin2, list_elem_of_singleton.
        split; [intros [[? [?|?]]| ->]; auto|].
        intros [Hq [HRq|[HEq|[= ->]]]]; auto.
  - split; [assumption|]. split; [lia|].
    intros q. rewrite Hin2. split; [tauto|].
    intros [Hq [HRq|[HEq|HNq]]]; auto. exfalso.
    assert (truthy_opt N = true) by (apply Htruthy; eauto). congruence.
Qed.

End QueryFacts.


(** ** The filters of the torrent repository *)

Section FilterFacts.
Import Models JsString InMemoryTorrentRepository TorrentRepositoryOps Criteria.

Lemma filter_if_spec (c : bool) (p : Torrent -> bool) (l : list Torrent) :
  filter_if c p l = List.filter (fun t => negb c || p t) l.
Proof.
  destruct c; simpl; [reflexivity|].
  induction l as [|x l IH]; simpl; congruence.
Qed.

Lemma filter_twice {A} (p q : A -> bool) (l : list A) :
  List.filter p (List.filter q l) = List.filter (fun x => q x && p x) l.
Proof.
  induction l as [|x l IH]; simpl; [reflexivity|].
  destruct (q x); simpl; [destruct (p x)|]; now rewrite IH.
Qed.

Lemma is_Some_bool {A} (o : option A) :
  bool_decide (is_Some o) = match o with Some _ => true | None => false end.
Proof.
  destruct o.
  - apply bool_decide_eq_true_2. eauto.
  - apply bool_decide_eq_false_2. intros [x Hx]. discriminate Hx.
Qed.

Lemma bool_decide_Some `{EqDecision A} (x y : A) :
  bool_decide (Some x = Some y) = bool_decide (x = y).
Proof. apply bool_decide_ext. split; congruence. Qed.

Lemma findByFilters_eq (torrents : Store) (filters : TorrentSearchFilter) :
  findByFilters torrents filters
  = JsArray.sort NyaaService.by_seeders_desc
                 (List.filter (matches filters) (values torrents)).
Proof.
  unfold findByFilters. cbv zeta.
  rewrite !filter_if_spec, !filter_twice. f_equal.
  apply List.filter_ext. intros t.
  unfold matches, wanted_text, wanted. rewrite !is_Some_bool.
  destruct filters as [fa fe fs fn fq fl fsl fr fm ft]; cbn.
  rewrite !andb_assoc. repeat apply (f_equal2 andb).
  - now destruct fa.
  - now destruct fe.
  - now destruct fs.
  - now destruct fn.
  - destruct fq; [|reflexivity]. cbn. apply bool_decide_Some.
  - now destruct fl.
  - now destruct fsl.
  - destruct fr; [|reflexivity]. cbn. apply bool_decide_Some.
  - destruct fm; [|reflexivity]. cbn. apply Z.geb_leb.
  - destruct ft as [[|]|]; reflexivity.
Qed.

Lemma sort_by_seeders_sorted (l : list Torrent) :
  StronglySorted (fun a b => seeders b <= seeders a)
                 (JsArray.sort NyaaService.by_seeders_desc l).
Proof.
  pose proof (sort_Sorted NyaaService.by_seeders_desc
                by_seeders_desc_total l) as Hs.
  apply Sorted_StronglySorted in Hs; [|apply by_seeders_desc_transitive].
  induction Hs as [|x l' Hs IH Hall]; constructor; [assumption|].
  eapply Forall_impl; [exact Hall|].
  intros y. unfold JsArray.cmp_le, NyaaService.by_seeders_desc. lia.
Qed.

Lemma filter_Permutation_stdpp {A} (p : A -> bool) (l : list A) :
  List.filter p l = base.filter (fun x => p x = true) l.
Proof.
  induction l as [|x l IH]; [reflexivity|]. simpl.
  rewrite filter_cons. destruct (p x) eqn:Hp.
  - rewrite decide_True by reflexivity. now rewrite IH.
  - rewrite decide_False by discriminate. exact IH.
Qed.

Lemma findByFilters_elem (torrents : Store) (filters : TorrentSearchFilter)
    (t : Torrent) :
  t ∈ findByFilters torrents filters <->
  t ∈ values torrents /\ matches filters t = true.
Proof.
  rewrite findByFilters_eq.
  rewrite sort_Permutation.
  rewrite filter_Permutation_stdpp, list_elem_of_filter. tauto.
Qed.

Lemma findByFilters_sorted (torrents : Store) (filters : TorrentSearchFilter) :
  StronglySorted (fun a b => seeders b <= seeders a)
                 (findByFilters torrents filters).
Proof. rewrite findByFilters_eq. apply sort_by_seeders_sorted. Qed.

(** X12: the torrents found with a filter are the stored torrents that
    meet every criterion of the filter, each as often as it is stored, with
    the most seeded first; an empty id and a false [trustedOnly] are no
    criterion. *)
Theorem X12_findByFilters (torrents : Store) (filters : TorrentSearchFilter) :
  StronglySorted (fun a b => seeders b <= seeders a)
                 (findByFilters torrents filters) /\
  findByFilters torrents filters
  ≡ₚ base.filter (fun t => matches filters t = true) (values torrents) /\
  (forall t, t ∈ findByFilters torrents filters <->
             t ∈ values torrents /\ matches filters t = true).
Proof.
  split; [apply findByFilters_sorted|]. split; [|apply findByFilters_elem].
  rewrite findByFilters_eq, <- filter_Permutation_stdpp.
  apply sort_Permutation.
Qed.

End FilterFacts.


(** ** The best torrent and the best quality of an episode *)

Section BestFacts.
Import Models JsString InMemoryTorrentRepository TorrentRepositoryOps.
Import NyaaQueries Criteria.

Lemma covers_episode_spec (n : Z) (t : Torrent) :
  covers_episode n t = true <->
  episodeNumber t = Some n \/
  exists range, episodeRange t = Some range /\
                ep_start range <= n <= ep_end range.
Proof.
  unfold covers_episode. rewrite orb_true_iff, bool_decide_eq_true.
  apply or_iff_compat_l. destruct (episodeRange t) as [r|].
  - rewrite andb_true_iff, Z.leb_le, Z.geb_le. split.
    + intros [H1 H2]. exists r. split; [reflexivity | lia].
    + intros (r' & [= <-] & H). lia.
  - split; [discriminate|]. intros (r & Hr & _). discriminate Hr.
Qed.

Lemma wanted_animeId (a : string) (t : Torrent) :
  negb (truthy a) || bool_decide (animeId t = Some a) = true <->
  (a <> "" -> animeId t = Some a).
Proof.
  rewrite orb_true_iff, negb_true_iff, bool_decide_eq_true.
  destruct (truthy a) eqn:Ha.
  - apply truthy_spec in Ha. split; [intros [H|H]; [discriminate|auto]|auto].
  - split; [|auto]. intros _ Hne. apply truthy_spec in Hne. congruence.
Qed.

Lemma matches_quality_filter (a : string) (n : Z) (t : Torrent) :
  matches (quality_filter a n) t = true <-> shows_episode a n t.
Proof.
  unfold matches, quality_filter, wanted_text, wanted, shows_episode. cbn.
  rewrite !andb_true_r, andb_true_iff, wanted_animeId, covers_episode_spec.
  reflexivity.
Qed.

Lemma matches_episode_filter (options : NyaaServiceOptions) (a : string)
    (n : Z) (t : Torrent) :
  matches (episode_filter a n options) t = true <-> eligible options a n t.
Proof.
  unfold matches, episode_filter, wanted_text, wanted, eligible, shows_episode.
  cbn. rewrite !andb_true_r, !andb_true_iff, wanted_animeId,
    covers_episode_spec, Z.leb_le, orb_true_iff, negb_true_iff,
    bool_decide_eq_true.
  destruct (trustedOnly options); intuition congruence.
Qed.

Lemma find_first {A} (p : A -> bool) (l : list A) (x : A) :
  List.find p l = Some x ->
  exists pre post, l = (pre ++ x :: post)%list /\ p x = true /\
                   forall y, y ∈ pre -> p y = false.
Proof.
  induction l as [|y l IH]; simpl; [discriminate|].
  destruct (p y) eqn:Hy.
  - intros [= <-]. exists [], l. split; [reflexivity|]. split; [assumption|].
    intros z Hz. inversion Hz.
  - intros H. destruct (IH H) as (pre & post & -> & Hx & Hpre).
    exists (y :: pre), post. split; [reflexivity|]. split; [assumption|].
    intros z Hz. apply elem_of_cons in Hz as [->|Hz]; auto.
Qed.

Lemma find_nothing {A} (p : A -> bool) (l : list A) :
  List.find p l = None -> forall y, y ∈ l -> p y = false.
Proof.
  induction l as [|x l IH]; simpl; intros H y Hy; [inversion Hy|].
  destruct (p x) eqn:Hx; [discriminate|].
  apply elem_of_cons in Hy as [->|Hy]; auto.
Qed.

(** In an array with the most seeded first, the first torrent with a
    property has the most seeders of those with the property. *)
Lemma find_most_seeded (p : Torrent -> bool) (l : list Torrent) (x : Torrent) :
  StronglySorted (fun a b => seeders b <= seeders a) l ->
  List.find p l = Some x ->
  x ∈ l /\ p x = true /\
  forall y, y ∈ l -> p y = true -> seeders y <= seeders x.
Proof.
  intros Hs Hfind. destruct (find_first _ _ _ Hfind) as (pre & post & -> & Hx & Hpre).
  split; [apply elem_of_app; right; left|]. split; [assumption|].
  intros y Hy Hpy. apply elem_of_app in Hy as [Hy|Hy].
  - rewrite (Hpre _ Hy) in Hpy. discriminate.
  - apply StronglySorted_app_1_r in Hs.
    apply elem_of_cons in Hy as [->|Hy]; [lia|].
    apply StronglySorted_inv in Hs as [_ Hall].
    rewrite Forall_forall in Hall. now apply Hall.
Qed.

Lemma head_most_seeded (l : list Torrent) (x : Torrent) :
  StronglySorted (fun a b => seeders b <= seeders a) l ->
  head l = Some x ->
  x ∈ l /\ forall y, y ∈ l -> seeders y <= seeders x.
Proof.
  intros Hs Hhead.
  destruct (find_most_seeded (fun _ => true) l x Hs) as (Hx & _ & Hmax).
  - destruct l; [discriminate | exact Hhead].
  - split; [assumption|]. intros y Hy. now apply Hmax.
Qed.

Lemma length_zero {A} (l : list A) :
  (length l =? 0)%nat = true <-> l = [].
Proof. rewrite Nat.eqb_eq. apply length_zero_iff_nil. Qed.

Lemma empty_no_elem {A} (l : list A) : l = [] <-> forall x, ~ x ∈ l.
Proof.
  split; [intros -> x H; inversion H|].
  destruct l as [|x l]; [reflexivity|]. intros H. destruct (H x). left.
Qed.

(** X13: the best torrent of an episode is none exactly when no stored
    torrent is eligible (of the anime, showing the episode, with the
    seeders and the trust that the options ask for).  Otherwise it is an
    eligible torrent: the most seeded one of the wanted quality when there
    is one of that quality, else the most seeded one of all. *)
Theorem X13_best_torrent (options : NyaaServiceOptions) (torrents : Store)
    (anime : Anime) (n : Z) (preferred : option TorrentQuality) :
  (getBestTorrentForEpisode options torrents anime n preferred = None <->
   forall t, t ∈ values torrents -> ~ eligible options (id anime) n t) /\
  (forall best,
     getBestTorrentForEpisode options torrents anime n preferred = Some best ->
     best ∈ values torrents /\ eligible options (id anime) n best /\
     ((quality (metadata best) = default (preferredQuality options) preferred /\
       forall t, t ∈ values torrents -> eligible options (id anime) n t ->
                 quality (metadata t) = quality (metadata best) ->
                 seeders t <= seeders best) \/
      ((forall t, t ∈ values torrents -> eligible options (id anime) n t ->
                  quality (metadata t)
                  <> default (preferredQuality options) preferred) /\
       forall t, t ∈ values torrents -> eligible options (id anime) n t ->
                 seeders t <= seeders best))).
Proof.
  unfold getBestTorrentForEpisode. cbv zeta.
  set (found := findByFilters torrents (episode_filter (id anime) n options)).
  assert (Hfound : forall t, t ∈ found <->
                             t ∈ values torrents /\
                             eligible options (id anime) n t).
  { intros t. unfold found.
    now rewrite findByFilters_elem, matches_episode_filter. }
  assert (Hsorted : StronglySorted (fun a b => seeders b <= seeders a) found)
    by apply findByFilters_sorted.
  set (q := default (preferredQuality options) preferred).
  destruct (length found =? 0)%nat eqn:Hlen.
  - apply length_zero in Hlen. split; [|discriminate].
    split; [|reflexivity]. intros _ t Ht He.
    apply (proj1 (empty_no_elem found) Hlen t). apply Hfound. now split.
  - assert (Hne : found <> []).
    { intros H. apply length_zero in H. congruence. }
    destruct (List.find _ found) as [exact|] eqn:Hfind.
    + split.
      * split; [discriminate|]. intros Hnone. exfalso.
        destruct (find_most_seeded _ _ _ Hsorted Hfind) as (Hin & _ & _).
        apply Hfound in Hin as [Hin He]. exact (Hnone _ Hin He).
      * intros best [= <-].
        destruct (find_most_seeded _ _ _ Hsorted Hfind) as (Hin & Hq & Hmax).
        apply bool_decide_eq_true in Hq.
        apply Hfound in Hin as [Hin He]. split; [assumption|].
        split; [assumption|]. left. split; [assumption|].
        intros t Ht Het Hqt. apply Hmax; [apply Hfound; now split|].
        apply bool_decide_eq_true. congruence.
    + destruct found as [|top rest] eqn:Hf; [congruence|]. cbn [head].
      split.
      * split; [discriminate|]. intros Hnone. exfalso.
        assert (Hin : top ∈ top :: rest) by left.
        apply Hfound in Hin as [Hin He]. exact (Hnone _ Hin He).
      * intros best [= <-].
        destruct (head_most_seeded (top :: rest) top Hsorted eq_refl)
          as [Hin Hmax].
        apply Hfound in Hin as [Hin He]. split; [assumption|].
        split; [assumption|]. right. split.
        -- intros t Ht Het Hqt.
           assert (Htf : t ∈ top :: rest) by (apply Hfound; now split).
           pose proof (find_nothing _ _ Hfind t Htf) as Hno.
           apply bool_decide_eq_false in Hno. contradiction.
        -- intros t Ht Het. apply Hmax, Hfound. now split.
Qed.

(** X14: the best quality of an episode is none exactly when no stored
    torrent of the anime shows the episode.  Otherwise it is the quality of
    such a torrent: the first of 4K, 1080p, 720p and 480p that one of them
    has, whatever the seeders, and when none has one of these four, the
    quality of the most seeded; so 2160p is the answer only when no
    torrent of the episode has one of the four. *)
Theorem X14_best_quality (torrents : Store) (animeId' : string) (n : Z) :
  (getBestQualityForEpisode torrents animeId' n = None <->
   forall t, t ∈ values torrents -> ~ shows_episode animeId' n t) /\
  (forall q,
     getBestQualityForEpisode torrents animeId' n = Some q ->
     (exists t, t ∈ values torrents /\ shows_episode animeId' n t /\
                quality (metadata t) = q) /\
     ((exists better worse,
         qualityPriority = (better ++ q :: worse)%list /\
         forall q' t, q' ∈ better -> t ∈ values torrents ->
                      shows_episode animeId' n t ->
                      quality (metadata t) <> q') \/
      ((forall t, t ∈ values torrents -> shows_episode animeId' n t ->
                  quality (metadata t) ∉ qualityPriority) /\
       exists t, t ∈ values torrents /\ shows_episode animeId' n t /\
                 quality (metadata t) = q /\
                 forall t', t' ∈ values torrents ->
                            shows_episode animeId' n t' ->
                            seeders t' <= seeders t))).
Proof.
  unfold getBestQualityForEpisode. cbv zeta.
  set (found := findByFilters torrents (quality_filter animeId' n)).
  assert (Hfound : forall t, t ∈ found <->
                             t ∈ values torrents /\ shows_episode animeId' n t).
  { intros t. unfold found.
    now rewrite findByFilters_elem, matches_quality_filter. }
  assert (Hsorted : StronglySorted (fun a b => seeders b <= seeders a) found)
    by apply findByFilters_sorted.
  assert (Hsome : forall q',
            existsb (fun t => bool_decide (quality (metadata t) = q')) found
            = true <->
            exists t, t ∈ values torrents /\ shows_episode animeId' n t /\
                      quality (metadata t) = q').
  { intros q'. rewrite existsb_exists. split.
    - intros (t & Hin & Hq). apply list_elem_of_In, Hfound in Hin as [Hin Hs].
      apply bool_decide_eq_true in Hq. eauto.
    - intros (t & Hin & Hs & Hq). exists t. split.
      + apply list_elem_of_In, Hfound. now split.
      + now apply bool_decide_eq_true. }
  destruct (length found =? 0)%nat eqn:Hlen.
  - apply length_zero in Hlen. split; [|discriminate].
    split; [|reflexivity]. intros _ t Ht He.
    apply (proj1 (empty_no_elem found) Hlen t). apply Hfound. now split.
  - destruct found as [|top rest] eqn:Hf; [discriminate Hlen|].
    assert (Htop : top ∈ values torrents /\ shows_episode animeId' n top).
    { apply Hfound. left. }
    destruct (List.find _ qualityPriority) as [first|] eqn:Hfind.
    + split.
      * split; [discriminate|]. intros Hnone. exfalso.
        destruct Htop as [Hin Hs]. exact (Hnone _ Hin Hs).
      * intros q [= <-].
        destruct (find_first _ _ _ Hfind) as (better & worse & Hsplit & Hq & Hpre).
        split; [now apply Hsome|]. left. exists better, worse.
        split; [assumption|]. intros q' t Hq' Ht Hs Heq.
        specialize (Hpre _ Hq').
        assert (Hyes : existsb
                         (fun t => bool_decide (quality (metadata t) = q'))
                         (top :: rest) = true) by (apply Hsome; eauto).
        congruence.
    + cbn [head option_map]. split.
      * split; [discriminate|]. intros Hnone. exfalso.
        destruct Htop as [Hin Hs]. exact (Hnone _ Hin Hs).
      * intros q [= <-]. destruct Htop as [Hin Hs].
        split; [eauto|]. right. split.
        -- intros t Ht Hst Hq.
           pose proof (find_nothing _ _ Hfind _ Hq) as Hno.
           assert (Hyes : existsb
                            (fun t' => bool_decide
                                         (quality (metadata t')
                                          = quality (metadata t)))
                            (top :: rest) = true) by (apply Hsome; eauto).
           congruence.
        -- exists top. split; [assumption|]. split; [assumption|].
           split; [reflexivity|]. intros t' Ht' Hs'.
           destruct (head_most_seeded (top :: rest) top Hsorted eq_refl)
             as [_ Hmax].
           apply Hmax, Hfound. now split.
Qed.

End BestFacts.


(** ** Deduplication, once more *)

Section DedupMore.
Import Models Design NyaaService.

Lemma set_absent {V} (m : list (string * V)) (k : string) (v : V) :
  JsMap.get k m = None -> JsMap.set k v m = (m ++ [(k, v)])%list.
Proof.
  induction m as [|[k' v'] m IH]; simpl; [reflexivity|].
  destruct (String.eqb k' k); [discriminate|]. intros H. now rewrite IH.
Qed.

Lemma set_length {V} (m : list (string * V)) (k : string) (v : V) :
  (length (JsMap.set k v m) <= S (length m))%nat.
Proof.
  induction m as [|[k' v'] m IH]; simpl; [lia|].
  destruct (String.eqb k' k); simpl; lia.
Qed.

Lemma dedup_loop_length (torrents : list Torrent)
    (m : list (string * Torrent)) :
  (length (foldl dedup_step m torrents) <= length m + length torrents)%nat.
Proof.
  revert m. induction torrents as [|t torrents IH]; intros m; simpl; [lia|].
  etransitivity; [apply IH|].
  assert (length (dedup_step m t) <= S (length m))%nat; [|lia].
  unfold dedup_step. destruct (JsMap.get _ m) as [e|].
  - destruct (seeders t >? seeders e); [apply set_length | lia].
  - apply set_length.
Qed.

(** Candidates with keys of their own, none of them in the map, are filed
    one after the other. *)
Lemma dedup_loop_fresh (torrents : list Torrent)
    (m : list (string * Torrent)) :
  NoDup (m.*1 ++ (dedup_key <$> torrents)) ->
  foldl dedup_step m torrents
  = (m ++ ((fun t => (dedup_key t, t)) <$> torrents))%list.
Proof.
  revert m. induction torrents as [|t torrents IH]; intros m Hnd; simpl.
  - now rewrite app_nil_r.
  - assert (Hget : JsMap.get (dedup_key t) m = None).
    { apply get_None_keys. intros Hin.
      apply NoDup_app in Hnd as (_ & Hdisj & _).
      apply (Hdisj _ Hin). left. }
    unfold dedup_step at 2. rewrite Hget, (set_absent _ _ _ Hget).
    rewrite IH.
    + now rewrite <- app_assoc.
    + rewrite fmap_app, <- app_assoc. exact Hnd.
Qed.

Lemma values_pairs (torrents : list Torrent) :
  JsMap.values ((fun t => (dedup_key t, t)) <$> torrents) = torrents.
Proof.
  unfold JsMap.values. induction torrents as [|t l IH]; [reflexivity|].
  cbn. now f_equal.
Qed.

Lemma deduplicateTorrents_keys (torrents : list Torrent) :
  NoDup (dedup_key <$> deduplicateTorrents torrents).
Proof.
  unfold deduplicateTorrents. cbv zeta.
  destruct (dedup_map_inv torrents) as (Hnd & Hfiled & _).
  rewrite sort_Permutation, dedup_key_values; [assumption|].
  intros k v Hin. now apply Hfiled.
Qed.

(** X10: deduplication is idempotent and never lengthens the array; an
    array without two torrents of one key is only sorted, with the most
    seeded first and, among equally seeded, in the order it had. *)
Theorem X10_deduplicate_idempotent (torrents : list Torrent) :
  deduplicateTorrents (deduplicateTorrents torrents)
  = deduplicateTorrents torrents /\
  (length (deduplicateTorrents torrents) <= length torrents)%nat /\
  (NoDup (dedup_key <$> torrents) ->
   deduplicateTorrents torrents = JsArray.sort by_seeders_desc torrents).
Proof.
  assert (Hfresh : forall l, NoDup (dedup_key <$> l) ->
            deduplicateTorrents l = JsArray.sort by_seeders_desc l).
  { intros l Hnd. unfold deduplicateTorrents. cbv zeta.
    rewrite dedup_loop_fresh by exact Hnd. cbn [app].
    now rewrite values_pairs. }
  split; [|split; [|apply Hfresh]].
  - rewrite Hfresh by apply deduplicateTorrents_keys.
    apply sort_of_Sorted. unfold deduplicateTorrents. cbv zeta.
    apply sort_Sorted, by_seeders_desc_total.
  - unfold deduplicateTorrents. cbv zeta.
    rewrite sort_Permutation. unfold JsMap.values.
    rewrite length_map.
    exact (dedup_loop_length torrents []).
Qed.

End DedupMore.

(** ** The statistics of an anime *)

Section StatsMore.
Import Models NyaaService InMemoryTorrentRepository Criteria.

Lemma sum_counts_insert `{Countable K} (k : K) (v : Z) (rec : gmap K Z)
    (keys : list K) :
  NoDup keys ->
  foldr Z.add 0 ((fun x => default 0 (<[k := v]> rec !! x)) <$> keys)
  = foldr Z.add 0 ((fun x => default 0 (rec !! x)) <$> keys)
    + (if decide (k ∈ keys) then v - default 0 (rec !! k) else 0).
Proof.
  induction keys as [|x keys IH]; intros Hnd.
  - cbn. rewrite decide_False; [lia|]. intros Hin; inversion Hin.
  - apply NoDup_cons in Hnd as [Hx Hnd]. cbn. rewrite (IH Hnd).
    destruct (decide (x = k)) as [->|Hne].
    + rewrite lookup_insert_eq. cbn.
      rewrite (decide_True (P := k ∈ k :: keys)) by left.
      rewrite (decide_False (P := k ∈ keys)) by assumption. lia.
    + rewrite lookup_insert_ne by congruence.
      destruct (decide (k ∈ keys)) as [Hin|Hout].
      * rewrite (decide_True (P := k ∈ x :: keys)) by now right.
        lia.
      * rewrite (decide_False (P := k ∈ x :: keys)); [lia|].
        intros Hin. apply elem_of_cons in Hin as [->|Hin]; congruence.
Qed.

Lemma histogram_total_increment `{Finite K} (k : K) (rec : gmap K Z) :
  histogram_total (increment k rec) = histogram_total rec + 1.
Proof.
  unfold histogram_total, increment.
  rewrite sum_counts_insert by apply NoDup_enum.
  rewrite decide_True by apply elem_of_enum. lia.
Qed.

Lemma histogram_total_empty `{Finite K} :
  histogram_total (∅ : gmap K Z) = 0.
Proof.
  unfold histogram_total. induction (enum K) as [|x l IH]; [reflexivity|].
  cbn. rewrite lookup_empty. cbn. exact IH.
Qed.

Lemma count_of_increment `{Countable K} (k k' : K) (rec : gmap K Z) :
  count_of (increment k rec) k'
  = count_of rec k' + (if decide (k = k') then 1 else 0).
Proof.
  unfold count_of, increment. destruct (decide (k = k')) as [->|Hne].
  - rewrite lookup_insert_eq. reflexivity.
  - rewrite lookup_insert_ne by assumption. lia.
Qed.

Lemma languages_counted (langs : list TorrentLanguage)
    (rec : gmap TorrentLanguage Z) :
  histogram_total (foldl (fun rec lang => increment lang rec) rec langs)
  = histogram_total rec + Z.of_nat (length langs).
Proof.
  revert rec. induction langs as [|l langs IH]; intros rec; simpl; [lia|].
  rewrite IH, histogram_total_increment. lia.
Qed.

Lemma count_loop (torrents : list Torrent) (stats : TorrentStats) :
  totalTorrents (foldl count_torrent stats torrents) = totalTorrents stats /\
  totalSize (foldl count_torrent stats torrents)
  = totalSize stats + foldr Z.add 0 (sizeBytes <$> torrents) /\
  histogram_total (byQuality (foldl count_torrent stats torrents))
  = histogram_total (byQuality stats) + Z.of_nat (length torrents) /\
  histogram_total (byReleaseType (foldl count_torrent stats torrents))
  = histogram_total (byReleaseType stats) + Z.of_nat (length torrents) /\
  histogram_total (byLanguage (foldl count_torrent stats torrents))
  = histogram_total (byLanguage stats)
    + Z.of_nat (length (concat ((fun t => audioLanguages (metadata t))
                                  <$> torrents))) /\
  (forall q,
     count_of (byQuality (foldl count_torrent stats torrents)) q
     = count_of (byQuality stats) q
       + Z.of_nat (length (base.filter (fun t => quality (metadata t) = q)
                                       torrents))).
Proof.
  revert stats. induction torrents as [|t torrents IH]; intros stats.
  - cbn. repeat (split; [lia|]). intros q. cbn. lia.
  - cbn [foldl]. destruct (IH (count_torrent stats t))
      as (H1 & H2 & H3 & H4 & H5 & H6).
    rewrite H1, H2, H3, H4, H5. cbn [count_torrent totalTorrents totalSize
      byQuality byReleaseType byLanguage].
    rewrite !histogram_total_increment, languages_counted.
    cbn [fmap list_fmap concat foldr length].
    rewrite length_app. repeat (split; [lia|]).
    intros q. rewrite H6. cbn [count_torrent byQuality].
    rewrite count_of_increment, filter_cons.
    destruct (decide (quality (metadata t) = q)); cbn [length]; lia.
Qed.

(** X11: the statistics of an anime add up.  The counts by quality and
    the counts by release type each sum to the number of torrents of the
    anime, the counts by language to the number of audio languages of
    these torrents; the count of a quality is the number of torrents of
    that quality, and the total size the sum of the sizes. *)
Theorem X11_stats_add_up (torrentRepository : Store) (animeId' : string) :
  totalTorrents (getTorrentStats torrentRepository animeId')
  = Z.of_nat (length (findByAnimeId torrentRepository animeId')) /\
  histogram_total (byQuality (getTorrentStats torrentRepository animeId'))
  = totalTorrents (getTorrentStats torrentRepository animeId') /\
  histogram_total (byReleaseType (getTorrentStats torrentRepository animeId'))
  = totalTorrents (getTorrentStats torrentRepository animeId') /\
  histogram_total (byLanguage (getTorrentStats torrentRepository animeId'))
  = Z.of_nat (length (concat ((fun t => audioLanguages (metadata t))
                              <$> findByAnimeId torrentRepository animeId'))) /\
  (forall q,
     count_of (byQuality (getTorrentStats torrentRepository animeId')) q
     = Z.of_nat (length (base.filter (fun t => quality (metadata t) = q)
                           (findByAnimeId torrentRepository animeId')))) /\
  totalSize (getTorrentStats torrentRepository animeId')
  = foldr Z.add 0 (sizeBytes <$> findByAnimeId torrentRepository animeId').
Proof.
  unfold getTorrentStats. cbv zeta.
  set (torrents := findByAnimeId torrentRepository animeId').
  destruct (length torrents =? 0)%nat eqn:Hlen.
  - apply Nat.eqb_eq, length_zero_iff_nil in Hlen. rewrite Hlen.
    cbn [totalTorrents byQuality byReleaseType byLanguage totalSize].
    rewrite !histogram_total_empty. repeat split; intros; reflexivity.
  - cbn [totalTorrents byQuality byReleaseType byLanguage totalSize].
    match goal with
    | |- context [foldl count_torrent ?s torrents] =>
        destruct (count_loop torrents s) as (H1 & H2 & H3 & H4 & H5 & H6)
    end.
    rewrite H1, H2, H3, H4, H5.
    cbn [totalTorrents byQuality byReleaseType byLanguage totalSize].
    rewrite !histogram_total_empty. repeat (split; [lia|]).
    split; [|lia]. intros q. rewrite H6. cbn [byQuality]. unfold count_of.
    rewrite lookup_empty. cbn. lia.
Qed.

End StatsMore.


(** ** The torrent repository as a store *)

Section StoreFacts.
Import Models InMemoryTorrentRepository TorrentRepositoryOps Criteria.

Lemma filter_all {A} (P : A -> Prop) `{forall x, Decision (P x)}
    (l : list A) :
  (forall x, x ∈ l -> P x) -> base.filter P l = l.
Proof.
  induction l as [|x l IH]; intros Hall; [reflexivity|].
  rewrite filter_cons_True by (apply Hall; left).
  f_equal. apply IH. intros y Hy. apply Hall. now right.
Qed.

Lemma filter_none {A} (P : A -> Prop) `{forall x, Decision (P x)}
    (l : list A) :
  (forall x, x ∈ l -> ~ P x) -> base.filter P l = [].
Proof.
  induction l as [|x l IH]; intros Hall; [reflexivity|].
  rewrite filter_cons_False by (apply Hall; left).
  apply IH. intros y Hy. apply Hall. now right.
Qed.

Lemma filter_iff_on {A} (P Q : A -> Prop) `{forall x, Decision (P x)}
    `{forall x, Decision (Q x)} (l : list A) :
  (forall x, x ∈ l -> P x <-> Q x) -> base.filter P l = base.filter Q l.
Proof.
  induction l as [|x l IH]; intros Hall; [reflexivity|].
  assert (Hx : P x <-> Q x) by (apply Hall; left).
  assert (Hl : base.filter P l = base.filter Q l).
  { apply IH. intros y Hy. apply Hall. now right. }
  rewrite !filter_cons, Hl.
  destruct (decide (P x)), (decide (Q x)); tauto.
Qed.

Lemma filter_and {A} (P Q : A -> Prop) `{forall x, Decision (P x)}
    `{forall x, Decision (Q x)} (l : list A) :
  base.filter P (base.filter Q l) = base.filter (fun x => Q x /\ P x) l.
Proof.
  induction l as [|x l IH]; [reflexivity|].
  rewrite (filter_cons Q), (filter_cons (fun x => Q x /\ P x)).
  destruct (decide (Q x)) as [HQ|HQ].
  - rewrite filter_cons, IH.
    destruct (decide (P x)), (decide (Q x /\ P x)); tauto.
  - rewrite IH. destruct (decide (Q x /\ P x)); tauto.
Qed.

Lemma filter_values (P : Torrent -> Prop) `{forall x, Decision (P x)}
    (m : Store) :
  base.filter P (values m) = values (base.filter (fun kv => P kv.2) m).
Proof.
  unfold values. induction m as [|[k v] m IH]; [reflexivity|].
  cbn [map snd]. destruct (decide (P v)) as [Hv|Hv].
  - rewrite (filter_cons_True P) by exact Hv.
    rewrite (filter_cons_True (fun kv : string * Torrent => P kv.2))
      by exact Hv.
    cbn [map snd]. now rewrite IH.
  - rewrite (filter_cons_False P) by exact Hv.
    rewrite (filter_cons_False (fun kv : string * Torrent => P kv.2))
      by exact Hv.
    exact IH.
Qed.

Lemma filter_complement_length {A} (P : A -> Prop)
    `{forall x, Decision (P x)} (l : list A) :
  (length (base.filter P l) + length (base.filter (fun x => ~ P x) l)
   = length l)%nat.
Proof. rewrite <- length_app. now rewrite filter_app_complement. Qed.

Lemma keys_filter_NoDup {V} (P : string * V -> Prop)
    `{forall x, Decision (P x)} (m : list (string * V)) :
  NoDup m.*1 -> NoDup (base.filter P m).*1.
Proof.
  intros Hnd. eapply sublist_NoDup; [exact Hnd|].
  apply fmap_sublist, sublist_filter.
Qed.

Lemma key_once {V} (m : list (string * V)) (k : string) (v1 v2 : V) :
  NoDup m.*1 -> (k, v1) ∈ m -> (k, v2) ∈ m -> v1 = v2.
Proof.
  induction m as [|[k' v'] m IH]; intros Hnd H1 H2; [inversion H1|].
  cbn in Hnd. apply NoDup_cons in Hnd as [Hout Hnd].
  assert (Hkey : forall v, (k, v) ∈ m -> k ∈ m.*1).
  { intros v Hin. apply list_elem_of_fmap. now exists (k, v). }
  apply elem_of_cons in H1 as [H1|H1]; apply elem_of_cons in H2 as [H2|H2].
  - congruence.
  - destruct Hout. injection H1 as <- _. eauto.
  - destruct Hout. injection H2 as <- _. eauto.
  - now apply IH.
Qed.

Lemma map_delete_filter {V} (m : list (string * V)) (k : string) :
  NoDup m.*1 ->
  (map_delete k m).2 = base.filter (fun kv => kv.1 <> k) m.
Proof.
  induction m as [|[k' v] m IH]; intros Hnd; [reflexivity|].
  cbn in Hnd. apply NoDup_cons in Hnd as [Hout Hnd]. cbn [map_delete].
  destruct (String.eqb_spec k' k) as [->|Hne].
  - rewrite filter_cons_False by (cbn; tauto). cbn [snd].
    symmetry. apply filter_all. intros [k'' v''] Hin Heq. cbn in Heq.
    subst k''. apply Hout, list_elem_of_fmap. now exists (k, v'').
  - rewrite filter_cons_True by (cbn; assumption).
    rewrite <- (IH Hnd). now destruct (map_delete k m).
Qed.

Lemma map_delete_found {V} (m : list (string * V)) (k : string) :
  (map_delete k m).1 = bool_decide (is_Some (JsMap.get k m)).
Proof.
  induction m as [|[k' v] m IH]; cbn [map_delete JsMap.get fst].
  - symmetry. apply bool_decide_eq_false_2. intros [x Hx]. discriminate.
  - destruct (String.eqb k' k).
    + symmetry. apply bool_decide_eq_true_2. eauto.
    + rewrite <- IH. now destruct (map_delete k m).
Qed.

Lemma delete_loop (ts : list Torrent) (m : list (string * Torrent)) :
  NoDup m.*1 ->
  foldl (fun store t => (map_delete (torrent_id t) store).2) m ts
  = base.filter (fun kv => kv.1 ∉ torrent_id <$> ts) m.
Proof.
  revert m. induction ts as [|t ts IH]; intros m Hnd; cbn [foldl].
  - symmetry. apply filter_all. intros kv _ Hin. inversion Hin.
  - rewrite map_delete_filter by assumption.
    rewrite IH by now apply keys_filter_NoDup.
    rewrite filter_and. apply list_filter_iff. intros kv.
    cbn [fmap list_fmap]. rewrite not_elem_of_cons. tauto.
Qed.

Lemma well_keyed_filter (P : string * Torrent -> Prop)
    `{forall x, Decision (P x)} (m : Store) :
  well_keyed m -> well_keyed (base.filter P m).
Proof.
  intros [Hnd Hid]. split; [now apply keys_filter_NoDup|].
  intros k t Hin. apply list_elem_of_filter in Hin as [_ Hin]. auto.
Qed.

Lemma deleteByAnimeId_store (a : string) (m : Store) :
  well_keyed m ->
  (deleteByAnimeId a m).2
  = base.filter (fun kv => animeId kv.2 <> Some a) m.
Proof.
  intros [Hnd Hid]. unfold deleteByAnimeId. cbn [snd].
  rewrite delete_loop by assumption.
  apply filter_iff_on. intros [k t] Hin. cbn [fst snd]. split.
  - intros Hout Ha. apply Hout. apply list_elem_of_fmap. exists t.
    split; [symmetry; now apply Hid|].
    apply list_elem_of_filter. split; [assumption|].
    apply list_elem_of_fmap. now exists (k, t).
  - intros Hne Hk. apply list_elem_of_fmap in Hk as (t' & Hk & Ht').
    apply list_elem_of_filter in Ht' as [Ha Ht'].
    apply list_elem_of_fmap in Ht' as ([k' t''] & Ht & Hin').
    cbn in Ht. subst t''. pose proof (Hid _ _ Hin') as Hk'.
    assert (Hkk : k' = k) by congruence. rewrite Hkk in Hin'.
    assert (t' = t) by exact (key_once _ _ _ _ Hnd Hin' Hin). congruence.
Qed.

(** X15: a torrent that was saved is found under its id, as it was given
    but for the date of the update; the torrents of other ids stay as
    they were, and the store grows by one exactly when the id is new.  A
    store whose torrents are filed under their ids stays so. *)
Theorem X15_save_then_find (now : Date) (t : Torrent) (torrents : Store) :
  findById (save now t torrents).2 (torrent_id t)
  = Some (save now t torrents).1 /\
  (save now t torrents).1 = stamped t now /\
  (forall id', id' <> torrent_id t ->
     findById (save now t torrents).2 id' = findById torrents id') /\
  count (save now t torrents).2
  = count torrents
    + match findById torrents (torrent_id t) with
      | Some _ => 0
      | None => 1
      end /\
  (well_keyed torrents -> well_keyed (save now t torrents).2).
Proof.
  unfold save, findById, count. cbn [fst snd].
  split; [apply get_set_eq|]. split; [reflexivity|].
  split; [intros id' Hne; now apply get_set_ne|]. split.
  - destruct (JsMap.get (torrent_id t) torrents) as [old|] eqn:Hget.
    + assert (Hlen : forall m : Store,
                is_Some (JsMap.get (torrent_id t) m) ->
                length (JsMap.set (torrent_id t) (stamped t now) m)
                = length m).
      { induction m as [|[k v] m IH]; cbn; [intros [x Hx]; discriminate|].
        destruct (String.eqb k (torrent_id t)); cbn; [reflexivity|].
        intros Hs. now rewrite IH. }
      rewrite Hlen by eauto. lia.
    + rewrite (set_absent _ _ _ Hget), length_app. cbn. lia.
  - intros [Hnd Hid]. split; [now apply set_keys_NoDup|].
    intros k v Hin. apply set_elem in Hin as [[= -> ->]|Hin]; [reflexivity|].
    now apply Hid.
Qed.

(** X16: in a store whose torrents are filed under their ids, deleting by
    anime reports the number of torrents of the anime and removes exactly
    these: none is left for the anime, the torrents of every other anime
    are found as before, and the count falls by the number reported. *)
Theorem X16_deleteByAnimeId (a : string) (torrents : Store) :
  well_keyed torrents ->
  (deleteByAnimeId a torrents).1
  = Z.of_nat (length (findByAnimeId torrents a)) /\
  findByAnimeId (deleteByAnimeId a torrents).2 a = [] /\
  (forall a', a' <> a ->
     findByAnimeId (deleteByAnimeId a torrents).2 a'
     = findByAnimeId torrents a') /\
  count (deleteByAnimeId a torrents).2
  = count torrents - (deleteByAnimeId a torrents).1 /\
  well_keyed (deleteByAnimeId a torrents).2.
Proof.
  intros Hwk. rewrite (deleteByAnimeId_store a torrents Hwk).
  split; [reflexivity|]. unfold findByAnimeId.
  assert (Hkept :
            values (base.filter
                      (fun kv : string * Torrent => animeId kv.2 <> Some a)
                      torrents)
            = base.filter (fun t => animeId t <> Some a) (values torrents)).
  { symmetry.
    exact (filter_values (fun t => animeId t <> Some a) torrents). }
  rewrite Hkept.
  split; [|split; [|split]].
  - rewrite filter_and. apply filter_none. intros t _ [H1 H2]. contradiction.
  - intros a' Hne. rewrite filter_and. apply list_filter_iff.
    intros t. split; [tauto|]. intros H. split; [congruence | assumption].
  - unfold count, deleteByAnimeId. cbn [fst].
    pose proof (filter_complement_length
                  (fun kv : string * Torrent => animeId kv.2 = Some a)
                  torrents) as Hlen.
    rewrite (filter_values (fun t => animeId t = Some a)).
    unfold values. rewrite length_map.
    match goal with
    | |- Z.of_nat ?n1 = _ - Z.of_nat ?n2 =>
        change (n2 + n1 = length torrents)%nat in Hlen
    end.
    lia.
  - now apply well_keyed_filter.
Qed.

Lemma X16_deleteByAnimeId_witness :
  well_keyed TorrentSamples.three_torrents /\
  (deleteByAnimeId "21" TorrentSamples.three_torrents).1 = 2 /\
  count (deleteByAnimeId "21" TorrentSamples.three_torrents).2 = 1.
Proof.
  assert (Hwk : well_keyed TorrentSamples.three_torrents).
  { split; [cbn; compute_done|]. intros k t Hin.
    repeat (apply elem_of_cons in Hin as [[= -> ->]|Hin]; [reflexivity|]).
    inversion Hin. }
  split; [exact Hwk|].
  destruct (X16_deleteByAnimeId "21" TorrentSamples.three_torrents Hwk)
    as (Hn & _ & _ & Hc & _).
  split; [rewrite Hn; reflexivity|]. rewrite Hc, Hn. reflexivity.
Defined.

End StoreFacts.


(** ** Pages and searches of the anime repository *)

Section PageFacts.
Import Models JsSlice AnimeRepositoryOps MiauIndex.

Lemma slice_nonneg {A} (l : list A) (start end' : Z) :
  0 <= start -> start <= end' ->
  slice l start end'
  = take (Z.to_nat (end' - start)) (drop (Z.to_nat start) l).
Proof.
  intros Hs He. unfold slice. cbv zeta.
  destruct (Z.ltb_spec start 0) as [?|_]; [lia|].
  destruct (Z.ltb_spec end' 0) as [?|_]; [lia|].
  destruct (Z_le_gt_dec (Z.of_nat (length l)) start) as [Hout|Hin].
  - rewrite !drop_ge by lia. now rewrite !take_nil.
  - rewrite (Z.min_l start) by lia.
    destruct (Z_le_gt_dec end' (Z.of_nat (length l))) as [Hle|Hgt].
    + rewrite (Z.min_l end') by lia. f_equal. lia.
    + rewrite (Z.min_r end') by lia.
      rewrite !take_ge; [reflexivity|rewrite length_drop; lia..].
Qed.

Lemma search_loop_spec (searchTerm : string) (limit : Z)
    (animes results : list Anime) :
  (length results < Z.to_nat (Z.max 1 limit))%nat ->
  search_loop searchTerm limit animes results
  = (results ++ take (Z.to_nat (Z.max 1 limit) - length results)
                     (List.filter (title_matches searchTerm) animes))%list.
Proof.
  revert results. induction animes as [|a animes IH]; intros results Hlen.
  - cbn. now rewrite take_nil, app_nil_r.
  - cbn [search_loop List.filter].
    destruct (title_matches searchTerm a); [|now apply IH]. cbv zeta.
    rewrite length_app. cbn [length].
    destruct (Z.geb_spec (Z.of_nat (length results + 1)) limit) as [Hge|Hlt].
    + replace (Z.to_nat (Z.max 1 limit) - length results)%nat with 1%nat
        by lia.
      cbn. now rewrite take_0.
    + rewrite IH by (rewrite length_app; cbn; lia).
      rewrite length_app. cbn [length].
      replace (Z.to_nat (Z.max 1 limit) - length results)%nat
        with (S (Z.to_nat (Z.max 1 limit) - (length results + 1)))%nat by lia.
      cbn [take]. now rewrite <- app_assoc.
Qed.

(** X17: a search by title returns, in the order of insertion, the first
    stored records of which a title or synonym holds the term in lower
    case: as many as the limit says, but one when the limit is 0 or
    less, since the limit is looked at only after a record was added. *)
Theorem X17_searchByTitle (allAnimes : list Anime) (title' : string)
    (limit : Z) :
  searchByTitle allAnimes title' limit
  = take (Z.to_nat (Z.max 1 limit))
         (List.filter (title_matches (JsString.toLowerCase title')) allAnimes) /\
  (limit <= 0 ->
   (exists a, a ∈ allAnimes /\
              title_matches (JsString.toLowerCase title') a = true) ->
   length (searchByTitle allAnimes title' limit) = 1%nat).
Proof.
  assert (Heq : searchByTitle allAnimes title' limit
                = take (Z.to_nat (Z.max 1 limit))
                       (List.filter
                          (title_matches (JsString.toLowerCase title'))
                          allAnimes)).
  { unfold searchByTitle. rewrite search_loop_spec by (cbn; lia).
    cbn [app length]. f_equal. lia. }
  split; [exact Heq|]. intros Hlimit (a & Hin & Hmatch). rewrite Heq.
  rewrite Z.max_l by lia.
  assert (Hfound : a ∈ List.filter
                     (title_matches (JsString.toLowerCase title')) allAnimes).
  { apply list_elem_of_In, filter_In. split; [now apply list_elem_of_In|].
    exact Hmatch. }
  destruct (List.filter _ allAnimes) as [|x l]; [inversion Hfound|].
  reflexivity.
Qed.

(** X18: pages are counted from 0: page [p] of size [n] holds the records
    from the [p*n]-th on.  [getAllLocal], which asks for page 1 of size
    1000, thus returns the records from the 1000th to the 1999th and
    nothing when at most 1000 records are stored; [clearLocal], which
    deletes page 1 of size 10000, leaves a repository of at most 10000
    records as it is. *)
Theorem X18_pages (allAnimes : list Anime) :
  (forall page limit, 0 <= page -> 0 <= limit ->
     findAll allAnimes page limit
     = take (Z.to_nat limit) (drop (Z.to_nat (page * limit)) allAnimes)) /\
  getAllLocal allAnimes
  = take (Z.to_nat 1000) (drop (Z.to_nat 1000) allAnimes) /\
  (Z.of_nat (length allAnimes) <= 1000 -> getAllLocal allAnimes = []) /\
  (forall animes : list (string * Anime),
     Z.of_nat (length animes) <= 10000 -> clearLocal animes = animes).
Proof.
  assert (Hpage : forall (l : list Anime) page limit,
            0 <= page -> 0 <= limit ->
            findAll l page limit
            = take (Z.to_nat limit) (drop (Z.to_nat (page * limit)) l)).
  { intros l page limit Hp Hl. unfold findAll. cbv zeta.
    rewrite slice_nonneg by nia. do 2 f_equal. lia. }
  split; [apply Hpage|]. split; [|split].
  - unfold getAllLocal. rewrite Hpage by lia. reflexivity.
  - intros Hlen. unfold getAllLocal. rewrite Hpage by lia.
    rewrite drop_ge by lia. apply take_nil.
  - intros animes Hlen. unfold clearLocal. cbv zeta.
    rewrite Hpage by lia.
    rewrite drop_ge; [now rewrite take_nil|].
    unfold JsMap.values. rewrite length_map. lia.
Qed.

End PageFacts.


(** ** Deduplication of search results *)

Section AnimeDedupFacts.
Import Models Effects JsSlice MiauIndex.

(** The loop of [deduplicateAnime] files, after what was seen, the first
    record of every key that was not seen. *)
Lemma seen_loop (anime : list Anime) (seen : list (string * Anime)) :
  exists firsts,
    foldl seen_step seen anime
    = (seen ++ ((fun a => (title_key a, a)) <$> firsts))%list /\
    (firsts `sublist_of` anime) /\
    (NoDup seen.*1 -> NoDup (seen.*1 ++ (title_key <$> firsts))) /\
    (forall a, a ∈ firsts <->
       exists pre post,
         anime = (pre ++ a :: post)%list /\
         (title_key a ∉ seen.*1) /\ title_key a ∉ title_key <$> pre).
Proof.
  revert seen. induction anime as [|x anime IH]; intros seen.
  - exists []. cbn. rewrite !app_nil_r. split; [reflexivity|].
    split; [constructor|]. split; [auto|]. intros a. split.
    + intros Hin. inversion Hin.
    + intros (pre & post & Heq & _). now destruct pre.
  - cbn [foldl]. unfold seen_step at 2.
    destruct (JsMap.get (title_key x) seen) as [old|] eqn:Hget.
    + assert (Hkey : title_key x ∈ seen.*1).
      { destruct (decide (title_key x ∈ seen.*1)) as [H|H]; [exact H|].
        apply get_None_keys in H. congruence. }
      destruct (IH seen) as (firsts & Heq & Hsub & Hnd & Hin).
      exists firsts. split; [exact Heq|]. split; [now constructor|].
      split; [exact Hnd|]. intros a. rewrite Hin. split.
      * intros (pre & post & -> & Hs & Hp). exists (x :: pre), post.
        split; [reflexivity|]. split; [assumption|].
        cbn. rewrite not_elem_of_cons. split; [|assumption].
        intros Heq'. apply Hs. rewrite Heq'. exact Hkey.
      * intros (pre & post & Heq' & Hs & Hp).
        destruct pre as [|y pre]; cbn in Heq'; injection Heq' as <- Heq'.
        -- contradiction.
        -- exists pre, post. split; [assumption|]. split; [assumption|].
           cbn in Hp. rewrite not_elem_of_cons in Hp. tauto.
    + assert (Hkey : title_key x ∉ seen.*1) by now apply get_None_keys.
      rewrite (set_absent _ _ _ Hget).
      destruct (IH (seen ++ [(title_key x, x)])%list)
        as (firsts & Heq & Hsub & Hnd & Hin).
      exists (x :: firsts). split; [|split; [|split]].
      * rewrite Heq, <- app_assoc. reflexivity.
      * now constructor.
      * intros Hseen. rewrite fmap_app, <- app_assoc in Hnd. apply Hnd.
        apply NoDup_app. split; [assumption|]. split; [|repeat constructor].
        -- intros k Hk Hk'. apply list_elem_of_singleton in Hk'.
           cbn in Hk'. subst k. contradiction.
        -- intros H. inversion H.
      * intros a. rewrite elem_of_cons, Hin. split.
        -- intros [->|(pre & post & -> & Hs & Hp)].
           ++ exists [], anime. split; [reflexivity|]. split; [assumption|].
              intros H. inversion H.
           ++ exists (x :: pre), post. split; [reflexivity|].
              rewrite fmap_app, not_elem_of_app in Hs. destruct Hs as [Hs Hx].
              split; [assumption|]. cbn. rewrite not_elem_of_cons.
              split; [|assumption]. intros Heq'. apply Hx. rewrite Heq'. left.
        -- intros (pre & post & Heq' & Hs & Hp).
           destruct pre as [|y pre]; cbn in Heq'; injection Heq' as <- Heq'.
           ++ now left.
           ++ right. exists pre, post. split; [assumption|].
              cbn in Hp. rewrite not_elem_of_cons in Hp. destruct Hp as [Hy Hp].
              split; [|assumption]. rewrite fmap_app, not_elem_of_app.
              split; [assumption|]. cbn. intros H.
              apply list_elem_of_singleton in H. contradiction.
Qed.

Lemma values_filed (firsts : list Anime) :
  JsMap.values ((fun a => (title_key a, a)) <$> firsts) = firsts.
Proof.
  unfold JsMap.values. induction firsts as [|a l IH]; [reflexivity|].
  cbn. now f_equal.
Qed.

Lemma seen_loop_fresh (anime : list Anime) (seen : list (string * Anime)) :
  NoDup (seen.*1 ++ (title_key <$> anime)) ->
  foldl seen_step seen anime
  = (seen ++ ((fun a => (title_key a, a)) <$> anime))%list.
Proof.
  revert seen. induction anime as [|x anime IH]; intros seen Hnd; cbn.
  - now rewrite app_nil_r.
  - assert (Hget : JsMap.get (title_key x) seen = None).
    { apply get_None_keys. intros Hin.
      apply NoDup_app in Hnd as (_ & Hdisj & _).
      apply (Hdisj _ Hin). left. }
    unfold seen_step at 2. rewrite Hget, (set_absent _ _ _ Hget).
    rewrite IH.
    + now rewrite <- app_assoc.
    + rewrite fmap_app, <- app_assoc. exact Hnd.
Qed.

Lemma deduplicateAnime_spec (anime : list Anime) :
  (deduplicateAnime anime `sublist_of` anime) /\
  NoDup (title_key <$> deduplicateAnime anime) /\
  (forall a, a ∈ deduplicateAnime anime <->
     exists pre post,
       anime = (pre ++ a :: post)%list /\ title_key a ∉ title_key <$> pre).
Proof.
  unfold deduplicateAnime.
  destruct (seen_loop anime []) as (firsts & -> & Hsub & Hnd & Hin).
  cbn [app]. rewrite values_filed. split; [assumption|].
  split; [apply Hnd; constructor|]. intros a. rewrite Hin.
  split; intros (pre & post & Heq & H); exists pre, post.
  - tauto.
  - split; [assumption|]. split; [|assumption]. intros H'. inversion H'.
Qed.

(** X19: of the records that share a key (the first non-empty one of the
    romaji, English and native title in lower case, else the id), the
    deduplication keeps the first and drops the others: the result is a
    sublist of the input, in the same order, without two records of one
    key, it holds a record exactly when no earlier record has its key,
    and deduplicating it again changes nothing. *)
Theorem X19_deduplicateAnime (anime : list Anime) :
  (deduplicateAnime anime `sublist_of` anime) /\
  NoDup (title_key <$> deduplicateAnime anime) /\
  (forall a, a ∈ deduplicateAnime anime <->
     exists pre post,
       anime = (pre ++ a :: post)%list /\ title_key a ∉ title_key <$> pre) /\
  deduplicateAnime (deduplicateAnime anime) = deduplicateAnime anime.
Proof.
  destruct (deduplicateAnime_spec anime) as (Hsub & Hnd & Hin).
  split; [assumption|]. split; [assumption|]. split; [assumption|].
  unfold deduplicateAnime at 1.
  rewrite seen_loop_fresh by exact Hnd. cbn [app]. apply values_filed.
Qed.

Lemma slice_0_length {A} (l : list A) (limit : Z) :
  0 <= limit -> slice l 0 limit = take (Z.to_nat limit) l.
Proof.
  intros H. rewrite slice_nonneg by lia. cbn. f_equal. lia.
Qed.

(** X20: a search over the providers returns at most [limit] records,
    without two of one key, each of them found by a provider whose search
    did not fail; the failed searches count for nothing. *)
Theorem X20_searchAnime (outcomes : list (JsError + list Anime)) (limit : Z) :
  0 <= limit ->
  Z.of_nat (length (searchAnime outcomes limit)) <= limit /\
  NoDup (title_key <$> searchAnime outcomes limit) /\
  (forall a, a ∈ searchAnime outcomes limit ->
     exists results, inr results ∈ outcomes /\ a ∈ results) /\
  searchAnime outcomes limit
  = searchAnime
      (List.filter (fun o : JsError + list Anime =>
                      match o with inr _ => true | inl _ => false end)
                   outcomes)
      limit.
Proof.
  intros Hlimit. unfold searchAnime. cbv zeta. rewrite !slice_0_length by lia.
  destruct (deduplicateAnime_spec (concat (map caught outcomes)))
    as (Hsub & Hnd & _).
  split; [rewrite length_take; lia|]. split; [|split].
  - eapply sublist_NoDup; [exact Hnd|].
    apply fmap_sublist, sublist_take.
  - intros a Ha. apply (subseteq_take (Z.to_nat limit)) in Ha.
    apply (sublist_subseteq _ _ Hsub) in Ha.
    apply list_elem_of_In, in_concat in Ha as (results & Hres & Ha).
    apply in_map_iff in Hres as (o & Ho & Hin).
    destruct o as [e|rs]; cbn in Ho; subst results; [inversion Ha|].
    exists rs. split; now apply list_elem_of_In.
  - do 2 f_equal. clear Hsub Hnd.
    induction outcomes as [|[e|rs] outcomes IH]; cbn.
    + reflexivity.
    + exact IH.
    + now rewrite IH.
Qed.

Lemma X20_searchAnime_witness :
  Z.of_nat (length (searchAnime [inr [Examples.from_mal; Examples.from_anilist];
                                 inl (Error "down")] 1)) <= 1.
Proof.
  apply (X20_searchAnime [inr [Examples.from_mal; Examples.from_anilist];
                          inl (Error "down")] 1).
  lia.
Defined.

End AnimeDedupFacts.


(** ** The sanitizer of search queries *)

Section SanitizeFacts.
Import JsString JsSlice TorrentValidation QueryShape.

Lemma substring_0_length (n : nat) (s : string) :
  (String.length (substring_0 n s) <= n)%nat.
Proof.
  revert s. induction n as [|n IH]; intros [|c s]; cbn; try lia.
  specialize (IH s). lia.
Qed.

Lemma substring_0_all (n : nat) (s : string) :
  (String.length s <= n)%nat -> substring_0 n s = s.
Proof.
  revert s. induction n as [|n IH]; intros [|c s]; cbn; try reflexivity.
  - lia.
  - intros H. rewrite IH by lia. reflexivity.
Qed.

Lemma substring_0_forallb (f : ascii -> bool) (n : nat) (s : string) :
  forallb f s = true -> forallb f (substring_0 n s) = true.
Proof.
  revert s. induction n as [|n IH]; intros [|c s]; cbn; try reflexivity.
  intros H. apply andb_true_iff in H as [-> H]. now apply IH.
Qed.

Lemma substring_0_single_spaced (n : nat) (s : string) (b : bool) :
  single_spaced b s = true -> single_spaced b (substring_0 n s) = true.
Proof.
  revert s b. induction n as [|n IH]; intros [|c s] b; cbn; try reflexivity.
  destruct (is_space c).
  - intros H. apply andb_true_iff in H as [-> H]. now apply IH.
  - apply IH.
Qed.

Lemma substring_0_start (n : nat) (s : string) :
  starts_with_space s = false -> starts_with_space (substring_0 n s) = false.
Proof. destruct n, s; cbn; auto. Qed.

Lemma replace_runs_single_spaced (s : string) (b : bool) :
  single_spaced b (replace_runs_from is_space b s) = true.
Proof.
  revert b. induction s as [|c s IH]; intros b; [reflexivity|].
  cbn [replace_runs_from]. destruct (is_space c) eqn:Hc.
  - destruct b; [apply IH|]. cbn [single_spaced].
    change (is_space " ") with true. cbn. apply IH.
  - cbn [single_spaced]. rewrite Hc. apply IH.
Qed.

Lemma replace_runs_safe (s : string) (b : bool) :
  forallb safe s = true ->
  forallb safe (replace_runs_from is_space b s) = true.
Proof.
  revert b. induction s as [|c s IH]; intros b; [reflexivity|].
  cbn [replace_runs_from forallb]. intros H.
  apply andb_true_iff in H as [Hc H]. destruct (is_space c).
  - destruct b; [now apply IH|]. cbn [forallb]. now rewrite IH.
  - cbn [forallb]. now rewrite Hc, IH.
Qed.

Lemma replace_runs_start (s : string) :
  starts_with_space s = false ->
  starts_with_space (replace_runs_from is_space false s) = false.
Proof.
  destruct s as [|c s]; [reflexivity|]. cbn. intros Hc. now rewrite Hc.
Qed.

Lemma replace_runs_fixed (s : string) (b : bool) :
  single_spaced b s = true -> replace_runs_from is_space b s = s.
Proof.
  revert b. induction s as [|c s IH]; intros b; [reflexivity|].
  cbn [replace_runs_from single_spaced]. destruct (is_space c).
  - intros H. apply andb_true_iff in H as [H Hs].
    apply andb_true_iff in H as [Hc Hb].
    apply Ascii.eqb_eq in Hc. subst c. destruct b; [discriminate|].
    now rewrite IH.
  - intros H. now rewrite IH.
Qed.

Lemma filter_forallb (f : ascii -> bool) (s : string) :
  forallb f (JsString.filter f s) = true.
Proof.
  induction s as [|c s IH]; [reflexivity|]. cbn.
  destruct (f c) eqn:Hc; [cbn; now rewrite Hc|exact IH].
Qed.

Lemma filter_fixed (f : ascii -> bool) (s : string) :
  forallb f s = true -> JsString.filter f s = s.
Proof.
  induction s as [|c s IH]; [reflexivity|]. cbn. intros H.
  apply andb_true_iff in H as [-> H]. now rewrite IH.
Qed.

Lemma dropWhile_start (s : string) :
  starts_with_space (dropWhile is_space s) = false.
Proof.
  induction s as [|c s IH]; [reflexivity|]. cbn.
  destruct (is_space c) eqn:Hc; [exact IH|]. cbn. exact Hc.
Qed.

Lemma trimEnd_start (s : string) :
  starts_with_space s = false -> starts_with_space (trimEnd s) = false.
Proof.
  destruct s as [|c s]; [reflexivity|].
  cbn [starts_with_space trimEnd]. intros Hc.
  destruct (trimEnd s); [rewrite Hc|]; cbn [starts_with_space]; exact Hc.
Qed.

Lemma trim_start (s : string) : starts_with_space (trim s) = false.
Proof. apply trimEnd_start, dropWhile_start. Qed.

(** X21: a sanitized query has at most 200 characters, none of them an
    angle bracket, an apostrophe or a quotation mark, and its only
    whitespace is single spaces.  It does not begin with a space when the
    query held none of the four characters, and a query that is already of
    this form, with no whitespace at its ends, is left as it is. *)
Theorem X21_sanitizeSearchQuery (query : string) :
  (String.length (sanitizeSearchQuery query) <= 200)%nat /\
  forallb safe (sanitizeSearchQuery query) = true /\
  single_spaced false (sanitizeSearchQuery query) = true /\
  (forallb safe query = true ->
   starts_with_space (sanitizeSearchQuery query) = false) /\
  ((String.length query <= 200)%nat -> forallb safe query = true ->
   single_spaced false query = true -> trim query = query ->
   sanitizeSearchQuery query = query).
Proof.
  unfold sanitizeSearchQuery, replace_runs.
  split; [apply substring_0_length|]. split; [|split; [|split]].
  - apply substring_0_forallb, replace_runs_safe. apply filter_forallb.
  - apply substring_0_single_spaced, replace_runs_single_spaced.
  - intros Hsafe. apply substring_0_start, replace_runs_start.
    assert (Htrim : forallb safe (trim query) = true).
    { unfold trim.
      assert (Hd : forall s, forallb safe s = true ->
                             forallb safe (dropWhile is_space s) = true).
      { induction s as [|c s IH]; [auto|]. cbn. intros H.
        destruct (is_space c); [|exact H].
        apply andb_true_iff in H as [_ H]. auto. }
      assert (Ht : forall s, forallb safe s = true ->
                             forallb safe (trimEnd s) = true).
      { induction s as [|c s IH]; [auto|]. cbn. intros H.
        apply andb_true_iff in H as [Hc H]. specialize (IH H).
        destruct (trimEnd s).
        - destruct (is_space c); [reflexivity|]. cbn. now rewrite Hc.
        - cbn [forallb]. cbn [forallb] in IH. now rewrite Hc, IH. }
      auto. }
    unfold safe in Htrim. rewrite (filter_fixed _ _ Htrim). apply trim_start.
  - intros Hlen Hsafe Hsingle Htrim. rewrite Htrim.
    unfold safe in Hsafe. rewrite (filter_fixed _ _ Hsafe).
    rewrite (replace_runs_fixed _ _ Hsingle). now apply substring_0_all.
Qed.

End SanitizeFacts.

(** ** The cache *)

Section CacheFacts.
Import CacheService.
Context {T : Type}.

Lemma get_has (now : Z) (key : string) (c : Cache T) :
  (has now key c).1 = bool_decide (is_Some (get now key c).1) /\
  (has now key c).2 = (get now key c).2.
Proof.
  unfold has, get.
  destruct (cache c !! key) as [entry|];
    [destruct (now >? expiresAt entry)|]; split; reflexivity.
Qed.

(** X22: a value that was set is returned by [get] until its time to
    live is over, the last millisecond included; after that [get] returns
    nothing and removes the entry.  Setting a key changes no answer for
    another key, and [has] answers as [get] does. *)
Theorem X22_cache_ttl (now now' : Z) (key : string) (value : T)
    (ttl : option Z) (c : Cache T) :
  (now' <= now + default (defaultTTL c) ttl ->
   get now' key (set now key value ttl c)
   = (Some value, set now key value ttl c)) /\
  (now + default (defaultTTL c) ttl < now' ->
   (get now' key (set now key value ttl c)).1 = None /\
   cache (get now' key (set now key value ttl c)).2 !! key = None /\
   forall later, (get later key (get now' key (set now key value ttl c)).2).1
                 = None) /\
  (forall key', key' <> key ->
     (get now' key' (set now key value ttl c)).1 = (get now' key' c).1) /\
  (forall key',
     (has now' key' c).1 = bool_decide (is_Some (get now' key' c).1) /\
     (has now' key' c).2 = (get now' key' c).2).
Proof.
  split; [|split; [|split]].
  - intros Hlive. unfold get, set. cbn. rewrite lookup_insert_eq. cbn.
    destruct (Z.gtb_spec now' (now + default (defaultTTL c) ttl)); [lia|].
    reflexivity.
  - intros Hdead.
    assert (Hget : get now' key (set now key value ttl c)
                   = (None, with_cache (set now key value ttl c)
                              (base.delete key
                                 (cache (set now key value ttl c))))).
    { unfold get, set. cbn. rewrite lookup_insert_eq. cbn.
      destruct (Z.gtb_spec now' (now + default (defaultTTL c) ttl)); [|lia].
      reflexivity. }
    rewrite Hget. cbn [fst snd]. split; [reflexivity|].
    split; [cbn; apply lookup_delete_eq|].
    intros later. unfold get at 1. cbn [cache with_cache].
    now rewrite lookup_delete_eq.
  - intros key' Hne. unfold get, set. cbn.
    rewrite lookup_insert_ne by congruence.
    destruct (cache c !! key') as [entry|]; [|reflexivity].
    destruct (now' >? expiresAt entry); reflexivity.
  - intros key'. apply get_has.
Qed.

Lemma delete_keys (keys : list string) (m : gmap string (CacheEntry T))
    (k : string) :
  foldl (fun m key => base.delete key m) m keys !! k
  = if decide (k ∈ keys) then None else m !! k.
Proof.
  revert m. induction keys as [|x keys IH]; intros m; cbn [foldl].
  - rewrite decide_False; [reflexivity|]. intros H. inversion H.
  - rewrite IH. destruct (decide (k ∈ keys)) as [Hin|Hout].
    + rewrite decide_True by now right. reflexivity.
    + destruct (decide (k = x)) as [->|Hne].
      * rewrite decide_True by left. apply lookup_delete_eq.
      * rewrite decide_False.
        -- now apply lookup_delete_ne.
        -- intros H. apply elem_of_cons in H as [?|?]; contradiction.
Qed.

Lemma cleanup_lookup (now : Z) (c : Cache T) (k : string) :
  cache (cleanup now c) !! k
  = match cache c !! k with
    | Some entry => if now >? expiresAt entry then None else Some entry
    | None => None
    end.
Proof.
  unfold cleanup. cbv zeta. cbn [cache with_cache]. rewrite delete_keys.
  destruct (decide (k ∈ _)) as [Hin|Hout].
  - apply list_elem_of_fmap in Hin as ([k' e] & -> & Hin). cbn.
    apply elem_of_map_to_list, map_lookup_filter_Some in Hin as [Hk He].
    cbn in He. rewrite Hk.
    destruct (Z.gtb_spec now (expiresAt e)); [reflexivity | lia].
  - destruct (cache c !! k) as [e|] eqn:Hk; [|reflexivity].
    destruct (Z.gtb_spec now (expiresAt e)) as [Hdead|Hlive]; [|reflexivity].
    destruct Hout. apply list_elem_of_fmap. exists (k, e).
    split; [reflexivity|].
    apply elem_of_map_to_list, map_lookup_filter_Some. split; [assumption|].
    cbn. lia.
Qed.

(** X23: the cleanup deletes the expired entries and only them, so that
    no [get] at that time or later tells whether it ran.  [getOrSet]
    returns what is cached and alive, whatever the factory would do; else
    it returns what the factory returns and caches it, and when the
    factory fails the failure is passed on and nothing is cached for the
    key. *)
Theorem X23_cleanup_getOrSet (now : Z) (key : string) (c : Cache T) :
  (forall k, cache (cleanup now c) !! k
             = match cache c !! k with
               | Some entry =>
                   if now >? expiresAt entry then None else Some entry
               | None => None
               end) /\
  (forall later k, now <= later ->
     (get later k (cleanup now c)).1 = (get later k c).1) /\
  (forall cached factory ttl,
     (get now key c).1 = Some cached ->
     getOrSet now key factory ttl c = (inr cached, c)) /\
  (forall value ttl,
     (get now key c).1 = None ->
     (getOrSet now key (inr value) ttl c).1 = inr value /\
     (0 <= default (defaultTTL c) ttl ->
      (get now key (getOrSet now key (inr value) ttl c).2).1 = Some value)) /\
  (forall e ttl,
     (get now key c).1 = None ->
     (getOrSet now key (inl e) ttl c).1 = inl e /\
     cache (getOrSet now key (inl e) ttl c).2 !! key = None).
Proof.
  split; [apply cleanup_lookup|]. split; [|split; [|split]].
  - intros later k Hlater. unfold get. rewrite cleanup_lookup.
    destruct (cache c !! k) as [e|]; [|reflexivity].
    destruct (Z.gtb_spec now (expiresAt e)) as [Hdead|Hlive].
    + destruct (Z.gtb_spec later (expiresAt e)); [reflexivity | lia].
    + destruct (later >? expiresAt e); reflexivity.
  - intros cached factory ttl. unfold getOrSet, get.
    destruct (cache c !! key) as [e|]; [|discriminate].
    destruct (now >? expiresAt e); [discriminate|]. cbn. now intros [= ->].
  - intros value ttl Hmiss. unfold getOrSet.
    destruct (get now key c) as [[cached|] c'] eqn:Hget; [discriminate|].
    cbn [fst snd]. split; [reflexivity|]. intros Httl.
    assert (Hdefault : defaultTTL c' = defaultTTL c).
    { unfold get in Hget. destruct (cache c !! key) as [e|].
      - destruct (now >? expiresAt e); [|discriminate].
        injection Hget as <-. reflexivity.
      - injection Hget as <-. reflexivity. }
    unfold get, set. cbn. rewrite lookup_insert_eq. cbn.
    rewrite Hdefault.
    destruct (Z.gtb_spec now (now + default (defaultTTL c) ttl)); [lia|].
    reflexivity.
  - intros e ttl Hmiss. unfold getOrSet.
    destruct (get now key c) as [[cached|] c'] eqn:Hget; [discriminate|].
    cbn [fst snd]. split; [reflexivity|].
    unfold get in Hget. destruct (cache c !! key) as [entry|] eqn:Hk.
    + destruct (now >? expiresAt entry); [|discriminate].
      injection Hget as <-. cbn. apply lookup_delete_eq.
    + injection Hget as <-. exact Hk.
Qed.

End CacheFacts.


(** ** Search and unification *)

Section SearchUnifyFacts.
Import Models Effects AnimeUnificationService UnificationSearch.

Lemma get_elem {V} (m : list (string * V)) (k : string) (v : V) :
  NoDup m.*1 -> (k, v) ∈ m -> JsMap.get k m = Some v.
Proof.
  induction m as [|[k' v'] m IH]; intros Hnd Hin; [inversion Hin|].
  cbn in Hnd. apply NoDup_cons in Hnd as [Hout Hnd]. cbn.
  apply elem_of_cons in Hin as [[= -> ->]|Hin].
  - now rewrite String.eqb_refl.
  - destruct (String.eqb_spec k' k) as [->|Hne]; [|now apply IH].
    destruct Hout. apply list_elem_of_fmap. now exists (k, v).
Qed.

Lemma get_keys {V} (m : list (string * V)) (k : string) :
  is_Some (JsMap.get k m) <-> k ∈ m.*1.
Proof.
  destruct (JsMap.get k m) as [v|] eqn:Hget.
  - split; [|eauto]. intros _. apply get_Some_elem in Hget.
    apply list_elem_of_fmap. now exists (k, v).
  - split; [intros [x Hx]; discriminate|]. intros Hin.
    apply get_None_keys in Hget. contradiction.
Qed.

Lemma group_step_grouped (done : list Anime) (m : list (string * list Anime))
    (a : Anime) :
  grouped done m -> grouped (done ++ [a])%list (group_step m a).
Proof.
  intros (Hnd & Hgroups & Hall). unfold group_step. cbv zeta.
  assert (Hother : forall k, k <> group_key a ->
            base.filter (fun x => group_key x = k) (done ++ [a])%list
            = base.filter (fun x => group_key x = k) done).
  { intros k Hne. rewrite filter_app, filter_cons_False by congruence.
    rewrite filter_nil. apply app_nil_r. }
  assert (Hsame : base.filter (fun x => group_key x = group_key a)
                              (done ++ [a])%list
                  = (base.filter (fun x => group_key x = group_key a) done
                     ++ [a])%list).
  { rewrite filter_app, filter_cons_True by reflexivity.
    now rewrite filter_nil. }
  assert (Hinv : forall m' g,
            NoDup m'.*1 ->
            JsMap.get (group_key a) m' = Some g ->
            g = base.filter (fun x => group_key x = group_key a) done ->
            (forall k, k <> group_key a -> JsMap.get k m' = JsMap.get k m) ->
            grouped (done ++ [a])%list
                    (JsMap.set (group_key a) (g ++ [a])%list m')).
  { intros m' g Hnd' Hget Hg Hrest. split; [now apply set_keys_NoDup|].
    split.
    - intros k g' Hk. destruct (decide (k = group_key a)) as [->|Hne].
      + rewrite get_set_eq in Hk. injection Hk as <-.
        split; [now destruct g|]. now rewrite Hsame, Hg.
      + rewrite get_set_ne in Hk by congruence. rewrite Hrest in Hk by exact Hne.
        destruct (Hgroups _ _ Hk) as [Hg1 Hg2]. split; [assumption|].
        now rewrite Hother.
    - intros x Hx.
      destruct (decide (group_key x = group_key a)) as [->|Hne].
      + rewrite get_set_eq. eauto.
      + rewrite get_set_ne by congruence. rewrite Hrest by exact Hne.
        apply elem_of_app in Hx as [Hx|Hx]; [now apply Hall|].
        apply list_elem_of_singleton in Hx. congruence. }
  destruct (JsMap.get (group_key a) m) as [g|] eqn:Hget.
  - rewrite Hget. apply Hinv; auto. now apply Hgroups.
  - rewrite get_set_eq. apply Hinv.
    + now apply set_keys_NoDup.
    + apply get_set_eq.
    + symmetry. apply filter_none. intros x Hx Hkey.
      destruct (Hall _ Hx) as [g Hg]. congruence.
    + intros k Hne. now apply get_set_ne.
Qed.

Lemma group_loop_grouped (l done : list Anime)
    (m : list (string * list Anime)) :
  grouped done m -> grouped (done ++ l)%list (foldl group_step m l).
Proof.
  revert done m. induction l as [|a l IH]; intros done m Hinv.
  - now rewrite app_nil_r.
  - cbn [foldl].
    replace (done ++ a :: l)%list with ((done ++ [a]) ++ l)%list
      by now rewrite <- app_assoc.
    apply IH. now apply group_step_grouped.
Qed.

Lemma grouped_all (l : list Anime) : grouped l (foldl group_step [] l).
Proof.
  apply (group_loop_grouped l [] []). split; [constructor|]. split.
  - intros k g H. discriminate H.
  - intros a H. inversion H.
Qed.

Lemma unify_groups_spec (groups : list (list Anime)) (acc : list Anime)
    (w : World) :
  Forall (fun g => g <> []) groups ->
  exists us w',
    unify_groups groups acc w = (w', inr (acc ++ us)%list) /\
    Forall2 unifies us groups /\
    ticks w' = (ticks w + 2 * length groups)%nat /\
    animes w' = animes w /\ clock w' = clock w.
Proof.
  revert acc w. induction groups as [|g groups IH]; intros acc w Hall.
  - exists [], w. cbn. rewrite app_nil_r. repeat split; try constructor.
    lia.
  - apply Forall_cons in Hall as [Hg Hall].
    destruct g as [|base rest]; [congruence|].
    cbn [unify_groups length Nat.ltb Nat.leb].
    unfold mbind, M_bind. rewrite unifyAnimeData_returns.
    destruct (IH (acc ++ [set_dates
                            (unifyFields base (base :: rest) merge_options)
                            (clock w (ticks w)) (clock w (S (ticks w)))])%list
                 {| clock := clock w; ticks := S (S (ticks w));
                    animes := animes w |} Hall)
      as (us & w' & Hrun & Hus & Hticks & Hanimes & Hclock).
    eexists (_ :: us), w'. split; [rewrite Hrun, <- app_assoc; reflexivity|].
    split.
    + constructor; [|assumption]. eexists _, _, _, _. split; reflexivity.
    + cbn in Hticks, Hanimes, Hclock. split; [cbn; lia|]. split; assumption.
Qed.

(** X24: a search with unification never fails.  It groups the records
    found by the providers that answered by their key (the romaji title,
    else the English title, else the id), unifies every group with merged
    arrays, keeps the first [limit] of the unified records, and stores
    nothing: there are as many unified records as keys, each with the id
    of the first record of its group and the external ids of all the
    records of its key, and the clock is read twice per group. *)
Theorem X24_searchAndUnify (outcomes : list (JsError + list Anime))
    (limit : Z) (w : World) :
  0 <= limit ->
  exists unified w',
    searchAndUnify outcomes limit w
    = (w', inr (take (Z.to_nat limit) unified)) /\
    length unified
    = length (remove_dups
                (group_key <$> concat (map MiauIndex.caught outcomes))) /\
    ticks w' = (ticks w + 2 * length unified)%nat /\
    animes w' = animes w /\
    (forall u, u ∈ unified ->
       exists base,
         base ∈ concat (map MiauIndex.caught outcomes) /\
         id u = id base /\
         externalIds u
         = concat (map externalIds
                     (base.filter
                        (fun a => group_key a = group_key base)
                        (concat (map MiauIndex.caught outcomes))))).
Proof.
  intros Hlimit. unfold searchAndUnify. cbv zeta.
  set (found := concat (map MiauIndex.caught outcomes)).
  destruct (grouped_all found) as (Hnd & Hgroups & Hall).
  set (m := foldl group_step [] found) in *.
  assert (Hvalues : forall g, g ∈ JsMap.values m ->
            exists k, JsMap.get k m = Some g).
  { intros g Hg. unfold JsMap.values in Hg.
    apply list_elem_of_In, in_map_iff in Hg as ([k g'] & <- & Hin).
    exists k. apply get_elem; [assumption|]. now apply list_elem_of_In. }
  assert (Hnonempty : Forall (fun g => g <> []) (JsMap.values m)).
  { apply Forall_forall. intros g Hg. destruct (Hvalues g Hg) as [k Hk].
    now apply Hgroups in Hk. }
  destruct (unify_groups_spec (JsMap.values m) [] w Hnonempty)
    as (us & w' & Hrun & Hus & Hticks & Hanimes & _).
  exists us, w'. unfold mbind, M_bind. rewrite Hrun. cbn [app].
  assert (Hlen : length us = length m).
  { rewrite (Forall2_length _ _ _ Hus). unfold JsMap.values.
    apply length_map. }
  split; [|split; [|split; [|split]]].
  - unfold mret, M_ret. now rewrite slice_0_length.
  - rewrite Hlen, <- (length_fmap fst m). apply Permutation_length.
    apply NoDup_Permutation; [assumption|apply NoDup_remove_dups|].
    intros k. rewrite elem_of_remove_dups, <- get_keys. split.
    + intros [g Hg]. destruct (Hgroups _ _ Hg) as [Hne Heq].
      destruct g as [|a g]; [congruence|].
      assert (Ha : a ∈ base.filter (fun a => group_key a = k) found)
        by (rewrite <- Heq; left).
      apply list_elem_of_filter in Ha as [Hk Ha].
      apply list_elem_of_fmap. now exists a.
    + intros Hk. apply list_elem_of_fmap in Hk as (a & -> & Ha).
      now apply Hall.
  - rewrite Hticks. unfold JsMap.values. rewrite length_map. lia.
  - exact Hanimes.
  - intros u Hu.
    apply list_elem_of_lookup in Hu as [i Hi].
    destruct (Forall2_lookup_l _ _ _ _ _ Hus Hi) as (g & Hg & Hunifies).
    apply list_elem_of_lookup_2 in Hg.
    destruct (Hvalues g Hg) as [k Hk].
    destruct (Hgroups _ _ Hk) as [_ Heq].
    destruct Hunifies as (base & rest & synced & updated & Hbase & ->).
    assert (Hin : base ∈ base.filter (fun a => group_key a = k) found)
      by (rewrite <- Heq, Hbase; left).
    apply list_elem_of_filter in Hin as [Hkey Hin].
    exists base. split; [assumption|]. split; [reflexivity|].
    cbn. rewrite Hkey, <- Heq. reflexivity.
Qed.

Lemma X24_searchAndUnify_witness :
  exists unified w',
    searchAndUnify [inl (Error "down");
                    inr [Examples.from_mal; Examples.from_anilist]]
                   10 Examples.world0
    = (w', inr (take (Z.to_nat 10) unified)) /\
    animes w' = animes Examples.world0.
Proof.
  destruct (X24_searchAndUnify
              [inl (Error "down");
               inr [Examples.from_mal; Examples.from_anilist]]
              10 Examples.world0)
    as (unified & w' & Hrun & _ & _ & Hanimes & _); [lia|].
  exists unified, w'. split; assumption.
Defined.

End SearchUnifyFacts.


(** ** Valid torrents and the best torrent *)

Section ValidityFacts.
Import Models InMemoryTorrentRepository TorrentRepositoryOps.
Import NyaaQueries NyaaValidity Criteria.

Lemma isValidTorrent_spec (options : NyaaServiceOptions) (t : Torrent) :
  isValidTorrent options t = true <->
  minSeeders options <= seeders t /\
  (trustedOnly options = true -> trusted t = Some true).
Proof.
  unfold isValidTorrent.
  destruct (Z.ltb_spec (seeders t) (minSeeders options)) as [Hlt|Hge].
  - split; [discriminate | lia].
  - destruct (trustedOnly options); cbn.
    + destruct (trusted t) as [[|]|]; cbn; split; try discriminate; auto.
      * intros [_ H]. specialize (H eq_refl). discriminate.
      * intros [_ H]. specialize (H eq_refl). discriminate.
    + split; [|reflexivity]. intros _. split; [assumption | discriminate].
Qed.

Lemma best_torrent_found (options : NyaaServiceOptions) (torrents : Store)
    (anime : Anime) (n : Z) (preferred : option TorrentQuality) :
  (getBestTorrentForEpisode options torrents anime n preferred = None <->
   findByFilters torrents (episode_filter (id anime) n options) = []) /\
  (forall best,
     getBestTorrentForEpisode options torrents anime n preferred = Some best ->
     best ∈ findByFilters torrents (episode_filter (id anime) n options)).
Proof.
  unfold getBestTorrentForEpisode. cbv zeta.
  destruct (findByFilters torrents _) as [|top rest]; cbn [length Nat.eqb].
  - split; [tauto | discriminate].
  - destruct (List.find _ (top :: rest)) as [exact|] eqn:Hfind.
    + split; [split; discriminate|]. intros best [= <-].
      destruct (find_first _ _ _ Hfind) as (pre & post & -> & _).
      apply elem_of_app. right. left.
    + cbn [head]. split; [split; discriminate|]. intros best [= <-]. left.
Qed.

(** X25: the torrents that the search for the best torrent considers are
    those that indexing accepts: a torrent is eligible for an episode
    exactly when it shows the episode and is valid.  So the best torrent
    is a valid one, and there is none exactly when no stored torrent of
    the episode is valid. *)
Theorem X25_best_is_valid (options : NyaaServiceOptions) (torrents : Store)
    (anime : Anime) (n : Z) (preferred : option TorrentQuality) :
  (forall t, eligible options (id anime) n t <->
             shows_episode (id anime) n t /\
             isValidTorrent options t = true) /\
  (forall best,
     getBestTorrentForEpisode options torrents anime n preferred = Some best ->
     isValidTorrent options best = true) /\
  (getBestTorrentForEpisode options torrents anime n preferred = None <->
   forall t, t ∈ values torrents -> shows_episode (id anime) n t ->
             isValidTorrent options t = false).
Proof.
  assert (Helig : forall t, eligible options (id anime) n t <->
                            shows_episode (id anime) n t /\
                            isValidTorrent options t = true).
  { intros t. unfold eligible. rewrite isValidTorrent_spec. tauto. }
  destruct (best_torrent_found options torrents anime n preferred)
    as [Hnone Hsome].
  split; [exact Helig|]. split.
  - intros best Hbest. apply Hsome in Hbest.
    apply findByFilters_elem in Hbest as [_ Hm].
    apply matches_episode_filter, Helig in Hm. tauto.
  - rewrite Hnone, empty_no_elem. split.
    + intros Hno t Ht Hshows.
      destruct (isValidTorrent options t) eqn:Hvalid; [|reflexivity].
      destruct (Hno t). apply findByFilters_elem. split; [assumption|].
      apply matches_episode_filter, Helig. now split.
    + intros Hno t Ht. apply findByFilters_elem in Ht as [Ht Hm].
      apply matches_episode_filter, Helig in Hm as [Hshows Hvalid].
      rewrite (Hno t Ht Hshows) in Hvalid. discriminate.
Qed.

End ValidityFacts.

(** ** The episode repository *)

Section EpisodeFacts.
Import Models InMemoryEpisodeRepository.

Lemma by_number_total (a b : Episode) :
  by_number a b <= 0 \/ by_number b a <= 0.
Proof. unfold by_number. lia. Qed.

Lemma by_number_transitive : Transitive (JsArray.cmp_le by_number).
Proof. intros a b c. unfold JsArray.cmp_le, by_number. lia. Qed.

Lemma findByAnimeId_elem (episodes : Store) (a : string) (e : Episode) :
  e ∈ findByAnimeId episodes a <->
  e ∈ JsMap.values episodes /\ ep_animeId e = a.
Proof.
  unfold findByAnimeId. rewrite sort_Permutation.
  rewrite list_elem_of_In, filter_In, <- list_elem_of_In.
  now rewrite String.eqb_eq.
Qed.

(** X26: the episodes found for an anime are the stored episodes of the
    anime, in the order of their numbers.  Counting with the id of the
    anime gives their number, but counting with the empty id gives the
    number of all stored episodes, as counting without an id does.  An
    episode is found by its number exactly when the episodes of the
    anime hold one with the number. *)
Theorem X26_episodes (episodes : Store) (animeId' : string) :
  StronglySorted (fun x y => number x <= number y)
                 (findByAnimeId episodes animeId') /\
  (forall e, e ∈ findByAnimeId episodes animeId' <->
             e ∈ JsMap.values episodes /\ ep_animeId e = animeId') /\
  (animeId' <> "" ->
   count episodes (Some animeId')
   = Z.of_nat (length (findByAnimeId episodes animeId'))) /\
  count episodes (Some "") = Z.of_nat (length episodes) /\
  count episodes None = Z.of_nat (length episodes) /\
  (forall n, findByNumber episodes animeId' n = None <->
             forall e, e ∈ findByAnimeId episodes animeId' -> number e <> n) /\
  (forall n e, findByNumber episodes animeId' n = Some e ->
               e ∈ findByAnimeId episodes animeId' /\ number e = n).
Proof.
  split; [|split; [apply findByAnimeId_elem|split; [|split; [|split; [|split]]]]].
  - unfold findByAnimeId.
    pose proof (sort_Sorted by_number by_number_total
                  (List.filter
                     (fun episode => String.eqb (ep_animeId episode) animeId')
                     (JsMap.values episodes))) as Hs.
    apply Sorted_StronglySorted in Hs; [|apply by_number_transitive].
    induction Hs as [|x l Hs IH Hall]; constructor; [assumption|].
    eapply Forall_impl; [exact Hall|].
    intros y. unfold JsArray.cmp_le, by_number. lia.
  - intros Hne. unfold count. cbn [NyaaExtractors.truthy_opt default].
    apply truthy_spec in Hne. rewrite Hne. cbn [negb].
    unfold findByAnimeId. now rewrite sort_Permutation.
  - reflexivity.
  - reflexivity.
  - intros n. unfold findByNumber. split.
    + intros Hnone e He Hn. apply findByAnimeId_elem in He as [He Ha].
      pose proof (find_nothing _ _ Hnone e He) as Hno. cbn in Hno.
      rewrite Ha, String.eqb_refl in Hno. cbn in Hno. lia.
    + intros Hno.
      destruct (List.find _ (JsMap.values episodes)) as [e|] eqn:Hfind;
        [|reflexivity].
      destruct (find_first _ _ _ Hfind) as (pre & post & Heq & He & _).
      apply andb_true_iff in He as [Ha Hn].
      apply String.eqb_eq in Ha. apply Z.eqb_eq in Hn.
      destruct (Hno e); [|assumption].
      apply findByAnimeId_elem. split; [|assumption].
      rewrite Heq. apply elem_of_app. right. left.
  - intros n e Hfind. unfold findByNumber in Hfind.
    destruct (find_first _ _ _ Hfind) as (pre & post & Heq & He & _).
    apply andb_true_iff in He as [Ha Hn].
    apply String.eqb_eq in Ha. apply Z.eqb_eq in Hn.
    split; [|assumption]. apply findByAnimeId_elem. split; [|assumption].
    rewrite Heq. apply elem_of_app. right. left.
Qed.

End EpisodeFacts.


(** ** Retries *)

Section RetryFacts.
Import Effects BaseAnimeProvider.
Context {T : Type}.

Lemma pow2_succ (i : nat) : 2 ^ Z.of_nat (S i) = 2 * 2 ^ Z.of_nat i.
Proof. rewrite Nat2Z.inj_succ. apply Z.pow_succ_r. lia. Qed.

Lemma retry_loop_spec (fetchFn : nat -> JsError + T) (maxRetries : Z)
    (remaining i : nat) (lastError : option JsError) (st : Retries) :
  Z.of_nat i + Z.of_nat remaining = maxRetries ->
  calls st = i ->
  waited st = (2 ^ Z.min (Z.of_nat i) (maxRetries - 1) - 1) * 1000 ->
  (forall k value,
     (i <= k < i + remaining)%nat ->
     (forall j, (i <= j < k)%nat -> exists e, fetchFn j = inl e) ->
     fetchFn k = inr value ->
     retry_loop fetchFn maxRetries remaining i lastError st
     = ({| calls := S k; waited := (2 ^ Z.of_nat k - 1) * 1000 |},
        inr value)) /\
  ((0 < remaining)%nat ->
   (forall j, (i <= j < i + remaining)%nat -> exists e, fetchFn j = inl e) ->
   exists e,
     fetchFn (i + remaining - 1)%nat = inl e /\
     retry_loop fetchFn maxRetries remaining i lastError st
     = ({| calls := (i + remaining)%nat;
           waited := (2 ^ (maxRetries - 1) - 1) * 1000 |}, inl e)).
Proof.
  revert i lastError st.
  induction remaining as [|remaining IH]; intros i lastError st Hsum Hcalls Hw.
  - split; [intros k value Hk; lia | intros H; lia].
  - assert (Hstep :
              waited st
              + (if Z.of_nat i <? maxRetries - 1
                 then 2 ^ Z.of_nat i * 1000 else 0)
              = (2 ^ Z.min (Z.of_nat (S i)) (maxRetries - 1) - 1) * 1000).
    { rewrite Hw.
      destruct (Z.ltb_spec (Z.of_nat i) (maxRetries - 1)) as [Hlt|Hge].
      - rewrite !Z.min_l by lia. rewrite pow2_succ. lia.
      - rewrite !Z.min_r by lia. lia. }
    cbn [retry_loop]. rewrite Hcalls. split.
    + intros k value Hk Hfail Hok.
      destruct (decide (k = i)) as [->|Hne].
      * rewrite Hok. do 2 f_equal. rewrite Hw. f_equal.
        rewrite Z.min_l by lia. reflexivity.
      * destruct (Hfail i) as [e He]; [lia|]. rewrite He. cbv zeta.
        apply (IH (S i) (Some e)); cbn [calls waited]; try lia.
        -- intros j Hj. apply Hfail. lia.
        -- exact Hok.
    + intros _ Hfail. destruct (Hfail i) as [e He]; [lia|].
      rewrite He. cbv zeta.
      destruct remaining as [|remaining'].
      * exists e. replace (i + 1 - 1)%nat with i by lia.
        split; [exact He|]. cbn [retry_loop default]. do 2 f_equal.
        -- f_equal. lia.
        -- rewrite Hstep. rewrite Z.min_r by lia. reflexivity.
      * destruct (IH (S i) (Some e)
                     {| calls := S i;
                        waited := waited st
                                  + (if Z.of_nat i <? maxRetries - 1
                                     then 2 ^ Z.of_nat i * 1000 else 0) |})
          as [_ Hall]; cbn [calls waited]; try lia.
        destruct Hall as (e' & He' & Hrun); [lia| |].
        -- intros j Hj. apply Hfail. lia.
        -- exists e'.
           replace (i + S (S remaining') - 1)%nat
             with (S i + S remaining' - 1)%nat by lia.
           split; [exact He'|]. rewrite Hrun.
           replace (S i + S remaining')%nat with (i + S (S remaining'))%nat
             by lia.
           reflexivity.
Qed.

(** X27: a fetch with retries returns the value of the first call that
    succeeds among the first [maxRetries] calls, after waiting 1, 2, 4, ...
    seconds between the calls, and calls no more.  When all the calls
    fail it throws the error of the last one, without waiting after it;
    with no call allowed it throws an error of its own at once. *)
Theorem X27_fetchWithRetry (fetchFn : nat -> JsError + T) (maxRetries : Z) :
  (maxRetries <= 0 ->
   fetchWithRetry fetchFn maxRetries
   = ({| calls := 0; waited := 0 |},
      inl (Error "Fetch failed after retries"))) /\
  (forall k value,
     Z.of_nat k < maxRetries ->
     (forall j, (j < k)%nat -> exists e, fetchFn j = inl e) ->
     fetchFn k = inr value ->
     fetchWithRetry fetchFn maxRetries
     = ({| calls := S k; waited := (2 ^ Z.of_nat k - 1) * 1000 |},
        inr value)) /\
  (0 < maxRetries ->
   (forall j, Z.of_nat j < maxRetries -> exists e, fetchFn j = inl e) ->
   exists e,
     fetchFn (Z.to_nat maxRetries - 1)%nat = inl e /\
     fetchWithRetry fetchFn maxRetries
     = ({| calls := Z.to_nat maxRetries;
           waited := (2 ^ (maxRetries - 1) - 1) * 1000 |}, inl e)).
Proof.
  unfold fetchWithRetry. split; [|split].
  - intros Hnone. replace (Z.to_nat maxRetries) with 0%nat by lia.
    reflexivity.
  - intros k value Hk Hfail Hok.
    assert (Hpos : 0 < maxRetries) by lia.
    apply (retry_loop_spec fetchFn maxRetries (Z.to_nat maxRetries) 0 None
             {| calls := 0; waited := 0 |}); cbn [calls waited]; try lia.
    + rewrite Z.min_l by lia. reflexivity.
    + intros j Hj. apply Hfail. lia.
    + exact Hok.
  - intros Hpos Hfail.
    destruct (retry_loop_spec fetchFn maxRetries (Z.to_nat maxRetries) 0 None
                {| calls := 0; waited := 0 |}) as [_ Hall];
      cbn [calls waited]; try lia.
    + rewrite Z.min_l by lia. reflexivity.
    + apply Hall; [lia|]. intros j Hj. apply Hfail. lia.
Qed.

End RetryFacts.
